(** * ncm-artist-rss-tgbot: a shallow embedding of [main.py]

    One pass of the bot: for every configured artist, download the RSS
    feed, parse it into items, drop the items Redis already knows, send
    the rest to Telegram and record each sent album in Redis.

    Python text ([str]) is a list of Unicode code points.  The network,
    Redis and Telegram are collaborators: their answers come from an
    environment, and every call the program makes is appended to a trace.
    Python exceptions are values of [Exc]; a computation returns either a
    value or a raised exception, together with the new state. *)

From Stdlib Require Import NArith ZArith String Ascii List Bool Lia.
From stdpp Require Import base option list gmap.

Open Scope N_scope.

(** ** Text *)

Abbreviation str := (list N).

(** A Python literal made of ASCII characters. *)
Definition cp (s : string) : str :=
  List.map N_of_ascii (list_ascii_of_string s).

(** [str.__add__] *)
Definition cat (a b : str) : str := a ++ b.

(** Truth value of a [str]: the empty text is false. *)
Definition truthy (s : str) : bool :=
  match s with
  | [] => false
  | _ :: _ => true
  end.

Fixpoint starts_with (p s : str) : bool :=
  match p, s with
  | [], _ => true
  | _ :: _, [] => false
  | a :: p', b :: s' => (a =? b) && starts_with p' s'
  end.

(** [text.replace(old, new)] for a non-empty [old]: scan from the left, a
    match is replaced and the scan resumes behind it.  [skip] counts the
    characters of the current match that are still to be passed over. *)
Fixpoint replace_from (old new : str) (skip : nat) (s : str) : str :=
  match s with
  | [] => []
  | c :: s' =>
      match skip with
      | S k => replace_from old new k s'
      | O =>
          if starts_with old s
          then new ++ replace_from old new (Nat.pred (length old)) s'
          else c :: replace_from old new 0 s'
      end
  end.

(** [str.replace]; with an empty [old] Python puts [new] around every
    character. *)
Definition replace (old new s : str) : str :=
  match old with
  | [] => new ++ flat_map (fun c => c :: new) s
  | _ :: _ => replace_from old new 0 s
  end.

(** ** The two regular expressions of [parse]

    [re] works on [str] patterns in Unicode mode: [\d] is any character of
    category Nd and [\s] any Unicode white space.  Each block of decimal
    digits is ten consecutive code points; [decimal_zeros] lists the first
    of each block (Unicode 14, as shipped with CPython 3.11). *)

Definition decimal_zeros : list N :=
  [ 48; 1632; 1776; 1984; 2406; 2534; 2662; 2790; 2918; 3046; 3174; 3302;
    3430; 3558; 3664; 3792; 3872; 4160; 4240; 6112; 6160; 6470; 6608; 6784;
    6800; 6992; 7088; 7232; 7248; 42528; 43216; 43264; 43472; 43504; 43600;
    44016; 65296; 66720; 68912; 69734; 69872; 69942; 70096; 70384; 70736;
    70864; 71248; 71360; 71472; 71904; 72016; 72784; 73040; 73120; 92768;
    92864; 93008; 120782; 120792; 120802; 120812; 120822; 123200; 123632;
    125264; 130032 ].

(** [\d] *)
Definition is_decimal (c : N) : bool :=
  existsb (fun z => (z <=? c) && (c <=? z + 9)) decimal_zeros.

Definition white_space : list N :=
  [ 9; 10; 11; 12; 13; 28; 29; 30; 31; 32; 133; 160; 5760; 8192; 8193; 8194;
    8195; 8196; 8197; 8198; 8199; 8200; 8201; 8202; 8232; 8233; 8239; 8287;
    12288 ].

(** [\s] *)
Definition is_space (c : N) : bool := existsb (N.eqb c) white_space.

Definition newline : N := 10.
Definition dquote : N := 34.
Definition backslash : N := 92.

(** The part of the pattern language the two patterns use: a literal
    character and [.], which matches anything but a newline. *)
Inductive atom : Type :=
  | Chr (c : N)
  | Dot.

Definition atom_matches (a : atom) (c : N) : bool :=
  match a with
  | Chr x => x =? c
  | Dot => negb (c =? newline)
  end.

(** Match a sequence of atoms at the head of [s]: the matched text and
    what follows it. *)
Fixpoint match_atoms (p : list atom) (s : str) : option (str * str) :=
  match p with
  | [] => Some ([], s)
  | a :: p' =>
      match s with
      | [] => None
      | c :: s' =>
          if atom_matches a c
          then match match_atoms p' s' with
               | Some (m, r) => Some (c :: m, r)
               | None => None
               end
          else None
      end
  end.

(** The longest run of at most [n] characters of class [f] at the head of
    [s]: a greedy bounded repetition. *)
Fixpoint take_upto (f : N -> bool) (n : nat) (s : str) : str :=
  match n, s with
  | S n', c :: s' => if f c then c :: take_upto f n' s' else []
  | _, _ => []
  end.

(** A greedy unbounded repetition. *)
Fixpoint take_while (f : N -> bool) (s : str) : str :=
  match s with
  | c :: s' => if f c then c :: take_while f s' else []
  | [] => []
  end.

(** [re.search]: the match at the leftmost position where one exists. *)
Fixpoint search (match_at : str -> option str) (s : str) : option str :=
  match match_at s with
  | Some m => Some m
  | None =>
      match s with
      | [] => None
      | _ :: s' => search match_at s'
      end
  end.

(** [\d{4,15}] at the head of [s] *)
Definition match_album_id (s : str) : option str :=
  let m := take_upto is_decimal 15 s in
  if (4 <=? length m)%nat then Some m else None.

Definition lit (s : string) : list atom := List.map Chr (cp s).

(** [https:\/\/p1.music.126.net\/] *)
Definition cover_head : list atom :=
  lit "https://p1" ++ Dot :: lit "music" ++ Dot :: lit "126" ++ Dot :: lit "net/".

(** The class after the host: any character but a double quote or white
    space. *)
Definition cover_tail (c : N) : bool := negb ((c =? dquote) || is_space c).

(** The cover pattern at the head of [s]: [cover_head], then as many
    [cover_tail] characters as there are. *)
Definition match_cover (s : str) : option str :=
  match match_atoms cover_head s with
  | Some (m, r) => Some (m ++ take_while cover_tail r)
  | None => None
  end.

(** [re.search(r'\d{4,15}', link)] *)
Definition search_album_id (link : str) : option str := search match_album_id link.

(** [re.search] of the cover pattern in [entry['summary']] *)
Definition search_cover (summary : str) : option str := search match_cover summary.

(** ** [escape] *)

Definition escape_chars : list str :=
  [ cp "_"; cp "*"; cp "["; cp "]"; cp "("; cp ")"; cp "~"; cp "`"; cp ">";
    cp "#"; cp "+"; cp "-"; cp "="; cp "|"; cp "{"; cp "}"; cp "."; cp "!" ].

(** [for escape_char in escape_chars: text = text.replace(escape_char, '\\' + escape_char)] *)
Definition escape (text : str) : str :=
  fold_left (fun t ec => replace ec (cat [backslash] ec) t) escape_chars text.

(** The reserved characters: those of [escape_chars]. *)
Definition reserved (c : N) : bool := existsb (N.eqb c) (concat escape_chars).

(** What [escape] does to one character, said in one pass. *)
Definition escape_char (c : N) : str :=
  if reserved c then [backslash; c] else [c].

(** One pass over the characters of [cs], each escaped after the ones
    before it. *)
Definition escape_with (cs : list N) (c : N) : str :=
  if existsb (N.eqb c) cs then [backslash; c] else [c].

(** The reserved set as the specification lists it. *)
Definition markdown_reserved : str := cp "_*[]()~`>#+-=|{}.!".

Definition is_markdown_reserved (c : N) : bool :=
  existsb (N.eqb c) markdown_reserved.

(** What the specification asks for one character: a reserved one gets
    the escape marker before it, any other is left alone. *)
Definition marked (c : N) : str :=
  if is_markdown_reserved c then [backslash; c] else [c].

(** Un-escaping as the specification words it: one escape marker is taken
    away before each reserved character. *)
Fixpoint unescape (s : str) : str :=
  match s with
  | [] => []
  | b :: rest =>
      match rest with
      | [] => [b]
      | c :: t =>
          if (b =? backslash) && is_markdown_reserved c
          then c :: unescape t
          else b :: unescape rest
      end
  end.

(** An escaped text read from the left, as its reader does: a backslash
    takes the character behind it, which then is ordinary text.
    [bare_reserved taken s] tells whether some reserved character of [s]
    is not taken by a backslash, that is, stands unescaped; [taken] says
    whether the first character of [s] is taken. *)
Fixpoint bare_reserved (taken : bool) (s : str) : bool :=
  match s with
  | [] => false
  | c :: s' =>
      if taken then bare_reserved false s'
      else if c =? backslash then bare_reserved true s'
      else is_markdown_reserved c || bare_reserved false s'
  end.

(** ** Exceptions, log records, events *)

Inductive Exc : Type :=
  | NameError (name : string)   (* a global name that is not bound *)
  | KeyError (key : str)        (* a subscript on a dict without that key *)
  | AttributeError              (* [.group()] on the [None] of a failed search *)
  | DownloadFailed              (* [Exception('Failed to download RSS.')] *)
  | TransportError.             (* raised inside the HTTP or the Redis client *)

Inductive Level : Type := INFO | WARN | ERROR.

(** The log lines of [main.py], one constructor per [logger] call, with
    the values the line interpolates. *)
Inductive Msg : Type :=
  | AppStart
  | AppEnd
  | Source (artist_name rss_url : str)
  | Downloading
  | AttemptOf (n total : nat)
  | FailedNext (e : Exc)
  | DownloadOk
  | Parsing
  | Link (l : str)
  | ExceptionMsg (e : Exc)
  | ParseEnd (ok total : nat)
  | FilteredBy (kept total : nat)
  | SendAlbum (t aid : str)
  | SendOk (t aid : str)
  | ApiReturns
  | SendPhotoFailed (photo caption : str)
  | SendMessageFailed (caption : str)
  | SendFailed (t aid : str)
  | SetAttempt (n total : nat)
  | SetOk (aid : str)
  | SetRetry
  | SetGiveUp (aid : str).

(** What the process does to the outside, in the order it does it. *)
Inductive Event : Type :=
  | Log (lvl : Level) (m : Msg)
  | HttpGet (url : str)
  | HttpPost (target : str) (params : list (str * str))
  | RedisSet (key value : str) (ex : Z)
  | Sleep (secs : Z)
  | RedisExists (key : str).

(** ** Data *)

(** A feed entry is a dict; [parse] reads five of its keys. *)
Abbreviation Entry := (gmap str str).

(** What [feedparser.parse] returns when it is true: a dict with the list
    of entries. *)
Record Feed : Type := { entries : list Entry }.

(** The dict [parse] builds for an entry, with its six keys. *)
Record Item : Type := {
  title : str;
  author : str;
  published : str;
  link : str;
  album_id : str;
  cover : str
}.

(** The module's global names.  [CHAT_ID], [TG_TOKEN] and [CONFIGS] are
    bound from the process environment when the module is loaded; [CONFIGS]
    is a JSON object and keeps the order of its keys.  [rss_author] and
    [rj_code] are read by [main] and [redis_set] and bound nowhere in
    [main.py]: they are [None] unless something outside the file binds
    them.  [REDIS] is the store of the state below. *)
Record Globals : Type := {
  CHAT_ID : str;
  TG_TOKEN : str;
  CONFIGS : list (str * str);
  rss_author : option str;
  rj_code : option str
}.

(** The module exactly as [main.py] defines it. *)
Definition as_written (chat token : str) (configs : list (str * str)) : Globals :=
  {| CHAT_ID := chat; TG_TOKEN := token; CONFIGS := configs;
     rss_author := None; rj_code := None |}.

(** ** The collaborators *)

Inductive GetAnswer : Type :=
  | GetRaises                           (* [client.get] or [feedparser.parse] raises *)
  | GetParsed (rss_json : option Feed). (* the parse result; [None] when it is false *)

Inductive PostAnswer : Type :=
  | PostRaises                (* the request or [response.json()['ok']] raises *)
  | PostAck (ok : bool).      (* the truth value of [response.json()['ok']] *)

Inductive SetAnswer : Type :=
  | SetRaises                 (* [REDIS.set] raises *)
  | SetRefused                (* it returns a false value, nothing stored *)
  | SetDone.                  (* it stores the key and returns true *)

Inductive ExistsAnswer : Type :=
  | ExistsRaises              (* [REDIS.exists] raises *)
  | ExistsAnswers.            (* it tells whether the key is live in the store *)

(** The answer to a call may depend on everything that happened before
    it. *)
Record Env : Type := {
  http_get : list Event -> str -> GetAnswer;
  http_post : list Event -> str -> list (str * str) -> PostAnswer;
  redis_answer : list Event -> str -> SetAnswer;
  redis_exists : list Event -> str -> ExistsAnswer
}.

(** The Redis store maps a live key to its value and expiry; [trace] is
    the list of events so far, oldest first. *)
Record State : Type := {
  redis : gmap str (str * Z);
  trace : list Event
}.

(** ** Computations that may raise *)

Inductive res (A : Type) : Type :=
  | Ret (a : A)
  | Raise (e : Exc).
Arguments Ret {A} a.
Arguments Raise {A} e.

Definition M (A : Type) : Type := State -> res A * State.

Definition ret {A} (a : A) : M A := fun st => (Ret a, st).

Definition raise {A} (e : Exc) : M A := fun st => (Raise e, st).

Definition bind {A B} (m : M A) (k : A -> M B) : M B :=
  fun st =>
    match m st with
    | (Ret a, st') => k a st'
    | (Raise e, st') => (Raise e, st')
    end.

(** [try: m except Exception as e: ...]: the outcome of [m] as a value. *)
Definition attempt {A} (m : M A) : M (Exc + A) :=
  fun st =>
    match m st with
    | (Ret a, st') => (Ret (inr a), st')
    | (Raise e, st') => (Ret (inl e), st')
    end.

Declare Scope py_scope.
Delimit Scope py_scope with py.
Notation "x <- m ;; k" := (bind m (fun x => k))
  (at level 100, m at level 90, right associativity) : py_scope.
Notation "m ;; k" := (bind m (fun _ => k))
  (at level 100, right associativity) : py_scope.
Open Scope py_scope.

(** The state after further events. *)
Definition extend (st : State) (evs : list Event) : State :=
  {| redis := redis st; trace := trace st ++ evs |}.

Definition emit (e : Event) : M unit :=
  fun st => (Ret tt, extend st [e]).

Definition log (lvl : Level) (m : Msg) : M unit := emit (Log lvl m).

(** [time.sleep] *)
Definition sleep (secs : Z) : M unit := emit (Sleep secs).

(** Reading a global name. *)
Definition load_name (name : string) (binding : option str) : M str :=
  match binding with
  | Some v => ret v
  | None => raise (NameError name)
  end.

(** [d[key]] on [CONFIGS] *)
Definition configs_get (d : list (str * str)) (key : str) : M str :=
  match List.find (fun p => bool_decide (fst p = key)) d with
  | Some p => ret (snd p)
  | None => raise (KeyError key)
  end.

(** [entry[key]] *)
Definition getitem (entry : Entry) (key : string) : M str :=
  match entry !! cp key with
  | Some v => ret v
  | None => raise (KeyError (cp key))
  end.

(** [m.group()] on the result of [re.search] *)
Definition group (m : option str) : M str :=
  match m with
  | Some s => ret s
  | None => raise AttributeError
  end.

(** [client.get(rss_url, timeout=10.0)] followed by
    [feedparser.parse(response.text)] *)
Definition fetch (E : Env) (rss_url : str) : M (option Feed) :=
  fun st =>
    let st' := extend st [HttpGet rss_url] in
    match http_get E (trace st) rss_url with
    | GetRaises => (Raise TransportError, st')
    | GetParsed rss_json => (Ret rss_json, st')
    end.

(** [client.post(target, params=params)] followed by
    [response.json()['ok']] *)
Definition post (E : Env) (target : str) (params : list (str * str)) : M bool :=
  fun st =>
    let st' := extend st [HttpPost target params] in
    match http_post E (trace st) target params with
    | PostRaises => (Raise TransportError, st')
    | PostAck ok => (Ret ok, st')
    end.

(** [REDIS.set(key, value, ex=ex)] *)
Definition REDIS_set (E : Env) (key value : str) (ex : Z) : M bool :=
  fun st =>
    let st' := extend st [RedisSet key value ex] in
    match redis_answer E (trace st) key with
    | SetRaises => (Raise TransportError, st')
    | SetRefused => (Ret false, st')
    | SetDone =>
        (Ret true, {| redis := <[key := (value, ex)]> (redis st'); trace := trace st' |})
    end.

(** [REDIS.exists(key)]: whether the key is live in the store, unless the
    client raises. *)
Definition REDIS_exists (E : Env) (key : str) : M bool :=
  fun st =>
    let st' := extend st [RedisExists key] in
    match redis_exists E (trace st) key with
    | ExistsRaises => (Raise TransportError, st')
    | ExistsAnswers => (Ret (bool_decide (is_Some (redis st !! key))), st')
    end.

(** ** The program *)

(** [rss_url_generator]: the pairs of an artist's name and feed URL, in
    the order of the keys of [CONFIGS]. *)
Definition rss_url (artist_id : str) : str :=
  cat (cp "https://rsshub.app/ncm/artist/") artist_id.

Definition rss_url_generator (G : Globals) : list (str * str) :=
  List.map (fun kv => (fst kv, rss_url (snd kv))) (CONFIGS G).

(** The loop of [download] over the remaining values of [retry].  A true
    parse result leaves the loop ([break]); a false one goes on to the next
    attempt; an exception is logged and followed by a pause. *)
Fixpoint download_loop (E : Env) (rss_url : str) (retries : list nat)
    (rss_json : option Feed) : M (option Feed) :=
  match retries with
  | [] => ret rss_json
  | retry :: rest =>
      log INFO (AttemptOf (retry + 1) 3) ;;
      r <- attempt (fetch E rss_url) ;;
      match r with
      | inr (Some feed) => ret (Some feed)
      | inr None => download_loop E rss_url rest None
      | inl e =>
          log INFO (FailedNext e) ;;
          sleep 6 ;;
          download_loop E rss_url rest rss_json
      end
  end.

Definition download (E : Env) (rss_url : str) : M Feed :=
  log INFO Downloading ;;
  rss_json <- download_loop E rss_url (seq 0 3) None ;;
  match rss_json with
  | None => raise DownloadFailed
  | Some feed => log INFO DownloadOk ;; ret feed
  end.

(** The body of the [try] in [parse]. *)
Definition parse_entry (entry : Entry) : M Item :=
  t <- getitem entry "title" ;;
  a <- getitem entry "author" ;;
  p <- getitem entry "published" ;;
  l <- getitem entry "link" ;;
  log INFO (Link l) ;;
  aid <- group (search_album_id l) ;;
  s <- getitem entry "summary" ;;
  c <- group (search_cover s) ;;
  ret {| title := t; author := a; published := p; link := l;
         album_id := aid; cover := c |}.

(** The loop of [parse]: [items] is the list built so far. *)
Fixpoint parse_loop (es : list Entry) (items : list Item) : M (list Item) :=
  match es with
  | [] => ret items
  | entry :: rest =>
      r <- attempt (parse_entry entry) ;;
      match r with
      | inr item => parse_loop rest (items ++ [item])
      | inl e => log INFO (ExceptionMsg e) ;; parse_loop rest items
      end
  end.

(** [parse]; its counter [filtered_cnt] is set to 0 and never used. *)
Definition parse (rss_json : Feed) : M (list Item) :=
  log INFO Parsing ;;
  items <- parse_loop (entries rss_json) [] ;;
  log INFO (ParseEnd (length items) (length (entries rss_json))) ;;
  ret items.

Definition send_photo_url (G : Globals) : str :=
  cat (cat (cp "https://api.telegram.org/bot") (TG_TOKEN G)) (cp "/sendPhoto").

Definition send_message_url (G : Globals) : str :=
  cat (cat (cp "https://api.telegram.org/bot") (TG_TOKEN G)) (cp "/sendMessage").

Definition send (E : Env) (G : Globals) (chat_id photo caption : str)
    (item : Item) : M bool :=
  log INFO (SendAlbum (title item) (album_id item)) ;;
  if truthy photo then
    let target := send_photo_url G in
    let params :=
      [(cp "chat_id", chat_id); (cp "photo", photo); (cp "caption", caption)] in
    r <- attempt (post E target params) ;;
    match r with
    | inr true => log INFO (SendOk (title item) (album_id item)) ;; ret true
    | inr false =>
        log WARN ApiReturns ;;
        log WARN (SendPhotoFailed photo caption) ;;
        log ERROR (SendFailed (title item) (album_id item)) ;;
        ret false
    | inl e =>
        log ERROR (ExceptionMsg e) ;;
        log ERROR (SendFailed (title item) (album_id item)) ;;
        ret false
    end
  else
    let target := send_message_url G in
    let params :=
      [(cp "chat_id", chat_id); (cp "parse_mode", cp "MarkdownV2");
       (cp "text", caption)] in
    r <- attempt (post E target params) ;;
    match r with
    | inr true => log INFO (SendOk (title item) (album_id item)) ;; ret true
    | inr false =>
        log WARN ApiReturns ;;
        log WARN (SendMessageFailed caption) ;;
        log ERROR (SendFailed (title item) (album_id item)) ;;
        ret false
    | inl e =>
        log ERROR (ExceptionMsg e) ;;
        log ERROR (SendFailed (title item) (album_id item)) ;;
        ret false
    end.

(** [construct_params]: photo, caption and album id of an item. *)
Definition construct_params (item : Item) : str * str * str :=
  let album_id := album_id item in
  let photo := cover item in
  let caption :=
    cp "\#" ++ album_id ++ [newline] ++
    cp "*" ++ escape (title item) ++ cp "*" ++ [newline] ++
    [newline] ++
    escape (author item) ++ [newline] ++
    [newline] ++
    escape (link item) in
  (photo, caption, album_id).

(** [filter]: is the item's album already in Redis?  The call of
    [REDIS.exists] stands in no [try]. *)
Definition filter (E : Env) (item : Item) : M bool :=
  known <- REDIS_exists E (album_id item) ;;
  if known then ret true else ret false.

(** The loop of [redis_set] over the remaining values of [retry].  The
    key handed to [REDIS.set] is the global [rj_code]. *)
Fixpoint redis_set_loop (E : Env) (G : Globals) (album_id : str)
    (retries : list nat) : M bool :=
  match retries with
  | [] => log INFO (SetGiveUp album_id) ;; ret false
  | retry :: rest =>
      log INFO (SetAttempt (retry + 1) 5) ;;
      r <- attempt (key <- load_name "rj_code" (rj_code G) ;;
                    REDIS_set E key (cp "sent") 64281600) ;;
      match r with
      | inr true => log INFO (SetOk album_id) ;; ret true
      | inr false => redis_set_loop E G album_id rest
      | inl _ => log INFO SetRetry ;; sleep 6 ;; redis_set_loop E G album_id rest
      end
  end.

Definition redis_set (E : Env) (G : Globals) (album_id : str) : M bool :=
  redis_set_loop E G album_id (seq 0 5).

(** [[item for item in items if not filter(item)]] *)
Fixpoint not_yet_sent (E : Env) (items : list Item) : M (list Item) :=
  match items with
  | [] => ret []
  | item :: rest =>
      known <- filter E item ;;
      kept <- not_yet_sent E rest ;;
      ret (if known then kept else item :: kept)
  end.

(** The inner loop of [main] over [filtered_items].  The first argument of
    [send] is [CONFIGS[rss_author]]. *)
Fixpoint send_loop (E : Env) (G : Globals) (filtered_items : list Item) : M unit :=
  match filtered_items with
  | [] => ret tt
  | item :: rest =>
      let '(photo, caption, album_id) := construct_params item in
      name <- load_name "rss_author" (rss_author G) ;;
      chat <- configs_get (CONFIGS G) name ;;
      sent <- send E G chat photo caption item ;;
      (if sent then (_ <- redis_set E G album_id ;; sleep 10) else ret tt) ;;
      send_loop E G rest
  end.

(** The body of the outer loop of [main], for one artist. *)
Definition one_source (E : Env) (G : Globals) (artist_name rss_url : str) : M unit :=
  log INFO (Source artist_name rss_url) ;;
  rss_json <- download E rss_url ;;
  items <- parse rss_json ;;
  filtered_items <- not_yet_sent E items ;;
  log INFO (FilteredBy (length filtered_items) (length items)) ;;
  send_loop E G filtered_items.

Fixpoint sources_loop (E : Env) (G : Globals) (sources : list (str * str)) : M unit :=
  match sources with
  | [] => ret tt
  | (artist_name, rss_url) :: rest =>
      one_source E G artist_name rss_url ;;
      sources_loop E G rest
  end.

Definition main (E : Env) (G : Globals) : M unit :=
  log INFO AppStart ;;
  sources_loop E G (rss_url_generator G) ;;
  log INFO AppEnd.

(** The exit status of the process: 0 when [main] returns, 1 when an
    exception leaves it. *)
Definition exit_status (r : res unit) : Z :=
  match r with
  | Ret _ => 0%Z
  | Raise _ => 1%Z
  end.

(** ** Vocabulary of the properties *)

Definition present {A} (o : option A) : bool :=
  match o with
  | Some _ => true
  | None => false
  end.

(** Four decimal digits stand at the head of [s]. *)
Definition four_digits_at (s : str) : bool :=
  match s with
  | a :: b :: c :: d :: _ =>
      is_decimal a && is_decimal b && is_decimal c && is_decimal d
  | _ => false
  end.

(** [p] holds of [s] from some position on. *)
Fixpoint somewhere (p : str -> bool) (s : str) : bool :=
  p s
  || match s with
     | [] => false
     | _ :: s' => somewhere p s'
     end.

(** The fixed part of the cover pattern, as the text it is meant to find;
    in the pattern its three dots are not escaped, so each of them stands
    for any character but a newline. *)
Definition cover_prefix : str := cp "https://p1.music.126.net/".

Definition full_stop : N := 46.

(** [s] begins with [pattern], a dot of [pattern] standing for any
    character but a newline. *)
Fixpoint fits (pattern s : str) : bool :=
  match pattern, s with
  | [], _ => true
  | _ :: _, [] => false
  | p :: pattern', c :: s' =>
      (if p =? full_stop then negb (c =? newline) else p =? c) && fits pattern' s'
  end.

(** A link matches the id pattern when it has four decimal digits in a
    row, a summary matches the cover pattern when the fixed part of the
    pattern stands somewhere in it. *)
Definition has_album_id (link : str) : bool := somewhere four_digits_at link.

Definition has_cover (summary : str) : bool := somewhere (fits cover_prefix) summary.

(** An entry as the specification counts it: the required fields are
    there, the link matches the id pattern and the summary the cover
    pattern. *)
Definition counted_entry (entry : Entry) : bool :=
  present (entry !! cp "title")
  && present (entry !! cp "author")
  && present (entry !! cp "published")
  && match entry !! cp "link" with
     | Some l => has_album_id l
     | None => false
     end
  && match entry !! cp "summary" with
     | Some s => has_cover s
     | None => false
     end.

(** The item has the four fields [parse] copies from the entry. *)
Definition copied_from (entry : Entry) (item : Item) : Prop :=
  entry !! cp "title" = Some (title item)
  /\ entry !! cp "author" = Some (author item)
  /\ entry !! cp "published" = Some (published item)
  /\ entry !! cp "link" = Some (link item).

(** What [parse_entry] needs of an entry to return an item: every lookup
    and both searches give a result. *)
Definition complete_entry (entry : Entry) : bool :=
  present (entry !! cp "title")
  && present (entry !! cp "author")
  && present (entry !! cp "published")
  && match entry !! cp "link" with
     | Some l => present (search_album_id l)
     | None => false
     end
  && match entry !! cp "summary" with
     | Some s => present (search_cover s)
     | None => false
     end.

(** The log line [parse] writes for an entry it drops. *)
Definition is_skip_line (e : Event) : bool :=
  match e with
  | Log INFO (ExceptionMsg _) => true
  | _ => false
  end.

Definition is_log (e : Event) : bool :=
  match e with
  | Log _ _ => true
  | _ => false
  end.

(** How many of the events are of a kind. *)
Definition count_events (kind : Event -> bool) (evs : list Event) : nat :=
  length (List.filter kind evs).

(** The number of entries [parse] reports as dropped. *)
Definition skipped_lines (evs : list Event) : nat := count_events is_skip_line evs.

(** The events of [parse]. *)
Definition is_parse_event (e : Event) : bool :=
  match e with
  | Log INFO Parsing | Log INFO (Link _) | Log INFO (ExceptionMsg _)
  | Log INFO (ParseEnd _ _) => true
  | _ => false
  end.

(** The events of [download] before its last line. *)
Definition is_download_body (e : Event) : bool :=
  match e with
  | Log INFO Downloading | Log INFO (AttemptOf _ _) | Log INFO (FailedNext _)
  | HttpGet _ | Sleep _ => true
  | _ => false
  end.

Definition is_get (e : Event) : bool :=
  match e with
  | HttpGet _ => true
  | _ => false
  end.

(** An answer that makes an attempt of [download] fail: an exception or a
    false parse result. *)
Definition failed_answer (a : GetAnswer) : bool :=
  match a with
  | GetParsed (Some _) => false
  | _ => true
  end.

(** Every GET among the events [evs], which follow the history [h], was
    answered with a failure. *)
Fixpoint gets_failed (E : Env) (h evs : list Event) : bool :=
  match evs with
  | [] => true
  | e :: evs' =>
      match e with
      | HttpGet url => failed_answer (http_get E h url)
      | _ => true
      end
      && gets_failed E (h ++ [e]) evs'
  end.

Definition is_lookup (e : Event) : bool :=
  match e with
  | RedisExists _ => true
  | _ => false
  end.

(** The calls of [REDIS.exists] that [filter] makes for a list of items,
    one after the other. *)
Definition lookups (items : list Item) : list Event :=
  List.map (fun i => RedisExists (album_id i)) items.

Definition answered (a : ExistsAnswer) : bool :=
  match a with
  | ExistsAnswers => true
  | ExistsRaises => false
  end.

(** Every call of [REDIS.exists] among the events [evs], which follow the
    history [h], was answered: none raised. *)
Fixpoint lookups_answered (E : Env) (h evs : list Event) : bool :=
  match evs with
  | [] => true
  | e :: evs' =>
      match e with
      | RedisExists key => answered (redis_exists E h key)
      | _ => true
      end
      && lookups_answered E (h ++ [e]) evs'
  end.

(** The events of [redis_set] before its last line. *)
Definition is_commit_body (e : Event) : bool :=
  match e with
  | Log INFO (SetAttempt _ _) | Log INFO SetRetry | RedisSet _ _ _ | Sleep _ => true
  | _ => false
  end.

Definition is_set_call (e : Event) : bool :=
  match e with
  | RedisSet _ _ _ => true
  | _ => false
  end.

Definition is_set_attempt (e : Event) : bool :=
  match e with
  | Log INFO (SetAttempt _ _) => true
  | _ => false
  end.

(** The last line of [redis_set], by its result. *)
Definition commit_closing (album_id : str) (done : bool) : Event :=
  if done then Log INFO (SetOk album_id) else Log INFO (SetGiveUp album_id).

(** The lines of [send] between its request and its last line. *)
Definition is_send_detail (e : Event) : bool :=
  match e with
  | Log WARN ApiReturns | Log WARN (SendPhotoFailed _ _)
  | Log WARN (SendMessageFailed _) | Log ERROR (ExceptionMsg _) => true
  | _ => false
  end.

(** The last line of [send], by its result. *)
Definition send_closing (item : Item) (sent : bool) : Event :=
  if sent then Log INFO (SendOk (title item) (album_id item))
  else Log ERROR (SendFailed (title item) (album_id item)).

(** The items [parse] returns for a feed. *)
Definition parsed (rss_json : Feed) : list Item :=
  match parse rss_json {| redis := ∅; trace := [] |} with
  | (Ret items, _) => items
  | (Raise _, _) => []
  end.

(** The items of a list that the store of [st] does not have. *)
Definition new_items (st : State) (items : list Item) : list Item :=
  List.filter (fun i => negb (present (redis st !! album_id i))) items.

(** The events of [parse] and of the list comprehension after it. *)
Definition is_sift_event (e : Event) : bool := is_parse_event e || is_lookup e.

(** The events of one artist before the sending starts: the artist's line,
    those of [download], those of [parse] and of the lookups ([sift]), and
    the count of the items left. *)
Definition intake (artist_name url : str) (body sift : list Event)
    (kept total : nat) : list Event :=
  Log INFO (Source artist_name url)
  :: body ++ Log INFO DownloadOk :: sift ++ [Log INFO (FilteredBy kept total)].

(** The events of one artist up to the last lookup. *)
Definition is_intake_event (e : Event) : bool :=
  match e with
  | Log INFO (Source _ _) | Log INFO DownloadOk => true
  | _ => is_download_body e || is_sift_event e
  end.

Definition is_post (e : Event) : bool :=
  match e with
  | HttpPost _ _ => true
  | _ => false
  end.

(** The first line of [send]. *)
Definition is_send_line (e : Event) : bool :=
  match e with
  | Log _ (SendAlbum _ _) => true
  | _ => false
  end.

(** The line that says at least one item is left to send. *)
Definition is_survivors_line (e : Event) : bool :=
  match e with
  | Log _ (FilteredBy (S _) _) => true
  | _ => false
  end.

Definition is_download_ok (e : Event) : bool :=
  match e with
  | Log _ DownloadOk => true
  | _ => false
  end.

(** The last line of a [send], which tells its result. *)
Definition is_send_outcome (e : Event) : bool :=
  match e with
  | Log _ (SendOk _ _) | Log _ (SendFailed _ _) => true
  | _ => false
  end.

(** The events only [redis_set] produces. *)
Definition is_commit_event (e : Event) : bool :=
  match e with
  | Log _ (SetAttempt _ _) | Log _ SetRetry | Log _ (SetOk _)
  | Log _ (SetGiveUp _) | RedisSet _ _ _ => true
  | _ => false
  end.

Definition note_outcome (cur : option Event) (e : Event) : option Event :=
  if is_send_outcome e then Some e else cur.

(** The latest [send] result line among [evs], or [cur] if there is
    none. *)
Definition latest_outcome (cur : option Event) (evs : list Event) : option Event :=
  fold_left note_outcome evs cur.

(** A commit event is in order when the latest [send] succeeded, and its
    closing line names the album of that [send]. *)
Definition commit_allowed (latest : option Event) (e : Event) : bool :=
  match latest with
  | Some (Log INFO (SendOk _ aid)) =>
      match e with
      | Log _ (SetOk a) | Log _ (SetGiveUp a) => bool_decide (a = aid)
      | _ => true
      end
  | _ => false
  end.

Fixpoint commits_in_order (latest : option Event) (evs : list Event) : bool :=
  match evs with
  | [] => true
  | e :: evs' =>
      (if is_commit_event e then commit_allowed latest e else true)
      && commits_in_order (note_outcome latest e) evs'
  end.

(** Between two states only events were added, every commit event among
    them is in order whatever came before, and a key of the store for
    which there was no [REDIS.set] is as it was. *)
Definition orderly (st st' : State) : Prop :=
  exists evs,
    trace st' = trace st ++ evs
    /\ (forall latest, commits_in_order latest evs = true)
    /\ (forall k, (forall v ex, ~ In (RedisSet k v ex) evs) ->
                  redis st' !! k = redis st !! k).

(** ** A sample feed and sample collaborators *)

(** The entry of the specification's scenario: album 123456789 with a
    cover on the image host. *)
Definition sample_entry : Entry :=
  list_to_map
    [ (cp "title", cp "A"); (cp "author", cp "X");
      (cp "published", cp "Mon, 18 Jul 2022 00:00:00 GMT");
      (cp "link", cp "https://music.163.com/#/album?id=123456789");
      (cp "summary",
       cp "<img src=" ++ dquote :: cp "https://p1.music.126.net/abc.jpg" ++ [dquote]) ].

Definition sample_feed : Feed := {| entries := [sample_entry] |}.

Definition sample_item : Item :=
  {| title := cp "A"; author := cp "X";
     published := cp "Mon, 18 Jul 2022 00:00:00 GMT";
     link := cp "https://music.163.com/#/album?id=123456789";
     album_id := cp "123456789";
     cover := cp "https://p1.music.126.net/abc.jpg" |}.

Definition empty_state : State := {| redis := ∅; trace := [] |}.

(** A store that already has the sample album. *)
Definition state_with_sample : State :=
  {| redis := {[ cp "123456789" := (cp "sent", 64281600%Z) ]}; trace := [] |}.

(** Every feed request is answered with the sample feed, Telegram
    acknowledges every post and Redis stores every key. *)
Definition online : Env :=
  {| http_get := fun _ _ => GetParsed (Some sample_feed);
     http_post := fun _ _ _ => PostAck true;
     redis_answer := fun _ _ => SetDone;
     redis_exists := fun _ _ => ExistsAnswers |}.

(** Every feed request raises. *)
Definition offline : Env :=
  {| http_get := fun _ _ => GetRaises;
     http_post := fun _ _ _ => PostAck true;
     redis_answer := fun _ _ => SetDone;
     redis_exists := fun _ _ => ExistsAnswers |}.

(** The feed of artist 1 answers with an empty list of entries, every
    other feed request raises. *)
Definition second_down : Env :=
  {| http_get := fun _ url =>
       if bool_decide (url = rss_url (cp "1"))
       then GetParsed (Some {| entries := [] |})
       else GetRaises;
     http_post := fun _ _ _ => PostAck true;
     redis_answer := fun _ _ => SetDone;
     redis_exists := fun _ _ => ExistsAnswers |}.

(** The feed of artist 1 raises, every other feed request is answered with
    the sample feed. *)
Definition first_down : Env :=
  {| http_get := fun _ url =>
       if bool_decide (url = rss_url (cp "1"))
       then GetRaises
       else GetParsed (Some sample_feed);
     http_post := fun _ _ _ => PostAck true;
     redis_answer := fun _ _ => SetDone;
     redis_exists := fun _ _ => ExistsAnswers |}.

Definition one_artist : Globals :=
  as_written (cp "-1001") (cp "TOKEN") [(cp "artist", cp "1")].

Definition two_artists : Globals :=
  as_written (cp "-1001") (cp "TOKEN") [(cp "first", cp "1"); (cp "second", cp "2")].

(** [main.py] with the two stray names bound: [rss_author] to a key of
    [CONFIGS], [rj_code] to some key. *)
Definition names_bound : Globals :=
  {| CHAT_ID := cp "-1001"; TG_TOKEN := cp "TOKEN";
     CONFIGS := [(cp "artist", cp "1")];
     rss_author := Some (cp "artist"); rj_code := Some (cp "RJ000") |}.

(** [main.py] with only [rss_author] bound. *)
Definition author_bound : Globals :=
  {| CHAT_ID := cp "-1001"; TG_TOKEN := cp "TOKEN";
     CONFIGS := [(cp "artist", cp "1")];
     rss_author := Some (cp "artist"); rj_code := None |}.

(** The GETs of one URL. *)
Definition is_get_of (url : str) (e : Event) : bool :=
  match e with
  | HttpGet u => bool_decide (u = url)
  | _ => false
  end.

(** The sample passes. *)
Definition pass_as_written : res unit * State := main online one_artist empty_state.

Definition pass_names_bound : res unit * State := main online names_bound empty_state.


(** The state of the pass of [second_down] after artist 1, and at the end
    of the download for artist 2. *)
Definition after_first_artist : State :=
  snd (sources_loop second_down two_artists [(cp "first", rss_url (cp "1"))]
         (extend empty_state [Log INFO AppStart])).

Definition at_failed_download : State :=
  snd (download second_down (rss_url (cp "2"))
         (extend after_first_artist [Log INFO (Source (cp "second") (rss_url (cp "2")))])).

(** ** Vocabulary of the further properties *)

(** In the events [evs], which follow the history [h]: a request of [url]
    that raised is followed by the line about the next attempt and the
    pause of 6 seconds; and every pause is of 6 seconds and stands
    directly behind that line of a request that raised. *)
Definition backs_off (E : Env) (url : str) (h evs : list Event) : Prop :=
  (forall pre post,
     evs = pre ++ HttpGet url :: post ->
     http_get E (h ++ pre) url = GetRaises ->
     exists post', post = Log INFO (FailedNext TransportError) :: Sleep 6 :: post')
  /\ (forall pre secs post,
        evs = pre ++ Sleep secs :: post ->
        secs = 6%Z
        /\ exists pre',
             pre = pre' ++ [HttpGet url; Log INFO (FailedNext TransportError)]
             /\ http_get E (h ++ pre') url = GetRaises).

(** An event that is neither a request nor a pause. *)
Definition is_quiet (e : Event) : bool :=
  match e with
  | HttpGet _ | Sleep _ => false
  | _ => true
  end.

(** The answer on which [send] returns true. *)
Definition acknowledged (a : PostAnswer) : bool :=
  match a with
  | PostAck true => true
  | _ => false
  end.

(** The address and the parameters of the request of [send]. *)
Definition send_target (G : Globals) (photo : str) : str :=
  if truthy photo then send_photo_url G else send_message_url G.

Definition send_params (chat_id photo caption : str) : list (str * str) :=
  if truthy photo
  then [(cp "chat_id", chat_id); (cp "photo", photo); (cp "caption", caption)]
  else [(cp "chat_id", chat_id); (cp "parse_mode", cp "MarkdownV2");
        (cp "text", caption)].

(** The first line of [send] for an item. *)
Definition send_line (item : Item) : Event :=
  Log INFO (SendAlbum (title item) (album_id item)).

Definition is_send_ok (e : Event) : bool :=
  match e with
  | Log _ (SendOk _ _) => true
  | _ => false
  end.

(** The pause of [main] after a delivery. *)
Definition is_pause (e : Event) : bool :=
  match e with
  | Sleep secs => (secs =? 10)%Z
  | _ => false
  end.

(** The events of [redis_set], with its pause of 6 seconds. *)
Definition is_commit_step (e : Event) : bool :=
  match e with
  | Sleep secs => (secs =? 6)%Z
  | _ => is_commit_event e
  end.

(** The module with another value of [CHAT_ID]. *)
Definition with_chat_id (c : str) (G : Globals) : Globals :=
  {| CHAT_ID := c; TG_TOKEN := TG_TOKEN G; CONFIGS := CONFIGS G;
     rss_author := rss_author G; rj_code := rj_code G |}.

(** The events of the inner loop of [main]: those of [send], those of
    [redis_set] and the pause after a delivery. *)
Definition is_delivery_event (e : Event) : bool :=
  is_send_line e || is_post e || is_send_detail e || is_send_outcome e
  || is_commit_step e || is_pause e.

(** The caption [construct_params] makes for an item. *)
Definition caption_of (item : Item) : str := snd (fst (construct_params item)).

(** Everything answers as in [online], but every [REDIS.exists] raises. *)
Definition store_down : Env :=
  {| http_get := fun _ _ => GetParsed (Some sample_feed);
     http_post := fun _ _ _ => PostAck true;
     redis_answer := fun _ _ => SetDone;
     redis_exists := fun _ _ => ExistsRaises |}.

(** The first feed request raises, the second parses to a false result,
    every later one is answered with the sample feed. *)
Definition flaky : Env :=
  {| http_get := fun h _ =>
       match count_events is_get h with
       | 0%nat => GetRaises
       | 1%nat => GetParsed None
       | _ => GetParsed (Some sample_feed)
       end;
     http_post := fun _ _ _ => PostAck true;
     redis_answer := fun _ _ => SetDone;
     redis_exists := fun _ _ => ExistsAnswers |}.

(** The pass of the module as written over a store that has the sample
    album, and the pass with the store out of reach. *)
Definition pass_as_written_known : res unit * State :=
  main online one_artist state_with_sample.

Definition pass_store_down : res unit * State :=
  main store_down one_artist empty_state.

(** * Properties *)

(** ** Text and patterns *)

Example escape_ex1 : escape (cp "a_b.c") = cp "a\_b\.c".
Proof. reflexivity. Qed.

Example search_album_ex1 : search_album_id (cp "https://music.163.com/#/album?id=123456789") = Some (cp "123456789").
Proof. reflexivity. Qed.

Example search_album_ex2 : search_album_id (cp "ab 123 45678901234567890") = Some (cp "456789012345678").
Proof. reflexivity. Qed.

Example search_cover_ex1 :
  search_cover (cp "<img src=" ++ dquote :: cp "https://p1.music.126.net/abc.jpg" ++ dquote :: cp " />")
  = Some (cp "https://p1.music.126.net/abc.jpg").
Proof. reflexivity. Qed.

Lemma replace_single (c : N) (new s : str) :
  replace [c] new s = flat_map (fun x => if x =? c then new else [x]) s.
Proof.
  unfold replace. induction s as [|x s IH]; simpl; [reflexivity|].
  rewrite N.eqb_sym, andb_true_r.
  destruct (x =? c); simpl; rewrite IH; reflexivity.
Qed.

Lemma existsb_snoc (c x : N) (cs : list N) :
  existsb (N.eqb x) (cs ++ [c]) = existsb (N.eqb x) cs || (x =? c).
Proof. rewrite existsb_app. simpl. rewrite orb_false_r. reflexivity. Qed.

Lemma replace_after_pass (done : list N) (c : N) (s : str) :
  existsb (N.eqb c) done = false ->
  c <> backslash ->
  replace [c] (cat [backslash] [c]) (flat_map (escape_with done) s)
  = flat_map (escape_with (done ++ [c])) s.
Proof.
  intros Hfresh Hbs. rewrite replace_single. unfold cat. cbn [app].
  induction s as [|x s IH]; [reflexivity|].
  cbn [flat_map]. rewrite flat_map_app, IH. f_equal.
  unfold escape_with. rewrite existsb_snoc.
  destruct (existsb (N.eqb x) done) eqn:Hx; cbn [orb flat_map app].
  - destruct (N.eqb_spec backslash c) as [Heq|_]; [congruence|].
    destruct (N.eqb_spec x c) as [->|_]; [congruence|reflexivity].
  - destruct (N.eqb_spec x c) as [->|_]; reflexivity.
Qed.

Lemma escape_passes (cs done : list N) (s : str) :
  List.NoDup (done ++ cs) ->
  ~ In backslash cs ->
  fold_left (fun t ec => replace ec (cat [backslash] ec) t)
    (List.map (fun c => [c]) cs) (flat_map (escape_with done) s)
  = flat_map (escape_with (done ++ cs)) s.
Proof.
  revert done. induction cs as [|c cs IH]; intros done Hnd Hbs;
    cbn [List.map fold_left].
  - rewrite app_nil_r. reflexivity.
  - rewrite replace_after_pass.
    + replace (done ++ c :: cs) with ((done ++ [c]) ++ cs)
        by (rewrite <- app_assoc; reflexivity).
      apply IH.
      * rewrite <- app_assoc. exact Hnd.
      * intros Hin. apply Hbs. right. exact Hin.
    + apply NoDup_remove_2 in Hnd.
      destruct (existsb (N.eqb c) done) eqn:Hc; [|reflexivity].
      exfalso. apply Hnd. apply existsb_exists in Hc as (y & Hy & Hcy).
      apply N.eqb_eq in Hcy. subst y. apply in_or_app. left. exact Hy.
    + intros ->. apply Hbs. left. reflexivity.
Qed.

Lemma escape_one_pass (text : str) : escape text = flat_map escape_char text.
Proof.
  unfold escape.
  change escape_chars with (List.map (fun c : N => [c]) (concat escape_chars)).
  replace text with (flat_map (escape_with []) text) at 1.
  - rewrite escape_passes.
    + reflexivity.
    + apply NoDup_ListNoDup.
      apply (bool_decide_unpack (NoDup (concat escape_chars))).
      vm_compute. exact I.
    + intros Hin. apply list_elem_of_In in Hin. revert Hin.
      apply (bool_decide_unpack (backslash ∉ concat escape_chars)).
      vm_compute. exact I.
  - induction text as [|x t IH]; simpl; [reflexivity|]. rewrite IH. reflexivity.
Qed.

(** The characters [escape] treats are the reserved set of the
    specification. *)
Lemma reserved_is_markdown (c : N) : reserved c = is_markdown_reserved c.
Proof. reflexivity. Qed.

Lemma escape_marks (text : str) : escape text = flat_map marked text.
Proof.
  rewrite escape_one_pass. apply flat_map_ext. intros c.
  unfold escape_char, marked. rewrite reserved_is_markdown. reflexivity.
Qed.

Lemma marked_head_plain (text : str) (c : N) (r : str) :
  flat_map marked text = c :: r -> is_markdown_reserved c = false.
Proof.
  destruct text as [|x t]; simpl; [discriminate|].
  unfold marked at 1. destruct (is_markdown_reserved x) eqn:Hx; simpl;
    intros [= <- _].
  - reflexivity.
  - exact Hx.
Qed.

Lemma marked_guarded (text pre : str) (c : N) (post : str) :
  flat_map marked text = pre ++ c :: post ->
  is_markdown_reserved c = true ->
  exists pre', pre = pre' ++ [backslash].
Proof.
  revert pre. induction text as [|x t IH]; intros pre Heq Hc; simpl in Heq.
  - destruct pre; discriminate.
  - unfold marked at 1 in Heq. destruct (is_markdown_reserved x) eqn:Hx;
      simpl in Heq.
    + destruct pre as [|p1 [|p2 pre]]; simpl in Heq.
      * injection Heq as <- _. discriminate.
      * injection Heq as <- <- _. exists []. reflexivity.
      * injection Heq as <- <- Heq. destruct (IH pre Heq Hc) as [pre' ->].
        exists (backslash :: x :: pre'). reflexivity.
    + destruct pre as [|p1 pre]; simpl in Heq.
      * injection Heq as <- _. congruence.
      * injection Heq as <- Heq. destruct (IH pre Heq Hc) as [pre' ->].
        exists (x :: pre'). reflexivity.
Qed.

Lemma unescape_pair (b c : N) (t : str) :
  unescape (b :: c :: t)
  = if (b =? backslash) && is_markdown_reserved c then c :: unescape t
    else b :: unescape (c :: t).
Proof. reflexivity. Qed.

Lemma unescape_marked (text : str) : unescape (flat_map marked text) = text.
Proof.
  induction text as [|x t IH]; [reflexivity|].
  cbn [flat_map]. unfold marked at 1. destruct (is_markdown_reserved x) eqn:Hx.
  - cbn [app]. rewrite unescape_pair, N.eqb_refl, Hx. cbn [andb].
    rewrite IH. reflexivity.
  - cbn [app]. destruct (flat_map marked t) as [|c r] eqn:Ht.
    + simpl in IH. subst t. reflexivity.
    + rewrite unescape_pair, (marked_head_plain t c r Ht), andb_false_r.
      rewrite IH. reflexivity.
Qed.

Lemma bare_reserved_pair (taken : bool) (c : N) (s : str) :
  bare_reserved taken (c :: s)
  = if taken then bare_reserved false s
    else if c =? backslash then bare_reserved true s
    else is_markdown_reserved c || bare_reserved false s.
Proof. reflexivity. Qed.

Lemma marked_none_bare (text : str) :
  existsb (N.eqb backslash) text = false ->
  bare_reserved false (flat_map marked text) = false.
Proof.
  induction text as [|x t IH]; [reflexivity|].
  cbn [existsb flat_map]. intros [Hx Ht]%orb_false_elim.
  unfold marked at 1. destruct (is_markdown_reserved x) eqn:Hr; cbn [app].
  - rewrite bare_reserved_pair, N.eqb_refl, bare_reserved_pair. apply IH. exact Ht.
  - rewrite bare_reserved_pair, N.eqb_sym, Hx, Hr. apply IH. exact Ht.
Qed.

(** C7, as the program has it.  For any text, [escape] puts a backslash
    before every character of the reserved set of the specification and
    changes nothing else; in the result every reserved character stands
    directly behind a backslash; taking one backslash away before each
    reserved character gives the text back; and when the text has no
    backslash of its own, no reserved character of the result is left
    unescaped for a reader that takes a backslash together with the
    character behind it. *)
Theorem escape_round_trip (text : str) :
  escape text = flat_map marked text
  /\ (forall pre c post,
        escape text = pre ++ c :: post ->
        is_markdown_reserved c = true ->
        exists pre', pre = pre' ++ [backslash])
  /\ unescape (escape text) = text
  /\ (existsb (N.eqb backslash) text = false ->
      bare_reserved false (escape text) = false).
Proof.
  rewrite escape_marks. split; [reflexivity|]. split; [|split].
  - intros pre c post. apply marked_guarded.
  - apply unescape_marked.
  - apply marked_none_bare.
Qed.

(** ** States *)

Lemma extend_extend (st : State) (a b : list Event) :
  extend (extend st a) b = extend st (a ++ b).
Proof. unfold extend. simpl. rewrite <- app_assoc. reflexivity. Qed.

Lemma extend_nil (st : State) : extend st [] = st.
Proof. destruct st. unfold extend. simpl. rewrite app_nil_r. reflexivity. Qed.

Lemma redis_extend (st : State) (evs : list Event) : redis (extend st evs) = redis st.
Proof. reflexivity. Qed.

Lemma trace_extend (st : State) (evs : list Event) :
  trace (extend st evs) = trace st ++ evs.
Proof. reflexivity. Qed.

(** ** Running a computation one step *)

Lemma bind_ret {A B} (a : A) (k : A -> M B) (st : State) :
  bind (ret a) k st = k a st.
Proof. reflexivity. Qed.

Lemma bind_raise {A B} (e : Exc) (k : A -> M B) (st : State) :
  bind (raise e) k st = (Raise e, st).
Proof. reflexivity. Qed.

Lemma bind_emit {B} (e : Event) (k : unit -> M B) (st : State) :
  bind (emit e) k st = k tt (extend st [e]).
Proof. reflexivity. Qed.

Lemma bind_log {B} (lvl : Level) (m : Msg) (k : unit -> M B) (st : State) :
  bind (log lvl m) k st = k tt (extend st [Log lvl m]).
Proof. reflexivity. Qed.

Lemma bind_sleep {B} (secs : Z) (k : unit -> M B) (st : State) :
  bind (sleep secs) k st = k tt (extend st [Sleep secs]).
Proof. reflexivity. Qed.

Lemma bind_attempt {A B} (m : M A) (k : Exc + A -> M B) (st : State) :
  bind (attempt m) k st
  = match m st with
    | (Ret a, st') => k (inr a) st'
    | (Raise e, st') => k (inl e) st'
    end.
Proof. unfold bind, attempt. destruct (m st) as [[a|e] st']; reflexivity. Qed.

Lemma bind_bind {A B C} (m : M A) (k : A -> M B) (k' : B -> M C) (st : State) :
  bind (bind m k) k' st = bind m (fun a => bind (k a) k') st.
Proof. unfold bind. destruct (m st) as [[a|e] st']; reflexivity. Qed.

Lemma bind_returns {A B} (m : M A) (k : A -> M B) (st st' : State) (a : A) :
  m st = (Ret a, st') -> bind m k st = k a st'.
Proof. intros H. unfold bind. rewrite H. reflexivity. Qed.

Lemma bind_raises {A B} (m : M A) (k : A -> M B) (st st' : State) (e : Exc) :
  m st = (Raise e, st') -> bind m k st = (Raise e, st').
Proof. intros H. unfold bind. rewrite H. reflexivity. Qed.

Lemma log_run (lvl : Level) (m : Msg) (st : State) :
  log lvl m st = (Ret tt, extend st [Log lvl m]).
Proof. reflexivity. Qed.

Lemma sleep_run (secs : Z) (st : State) :
  sleep secs st = (Ret tt, extend st [Sleep secs]).
Proof. reflexivity. Qed.

Ltac run :=
  repeat first
    [ rewrite bind_log | rewrite bind_sleep | rewrite bind_emit
    | rewrite bind_ret | rewrite bind_raise | rewrite bind_attempt
    | rewrite log_run | rewrite sleep_run
    | rewrite extend_extend ];
  cbn [app].

(** ** [parse] *)

Lemma match_atoms_length (p : list atom) (s m r : str) :
  match_atoms p s = Some (m, r) -> length m = length p.
Proof.
  revert s m r. induction p as [|a p IH]; intros s m r H; simpl in H.
  - injection H as <- _. reflexivity.
  - destruct s as [|c s]; [discriminate|].
    destruct (atom_matches a c); [|discriminate].
    destruct (match_atoms p s) as [[m' r']|] eqn:Hm; [|discriminate].
    injection H as <- _. simpl. f_equal. eapply IH. exact Hm.
Qed.

Lemma search_found (f : str -> option str) (s m : str) :
  search f s = Some m -> exists s', f s' = Some m.
Proof.
  induction s as [|c s IH]; simpl; destruct (f _) eqn:Hf; intros H.
  - injection H as <-. eauto.
  - discriminate.
  - injection H as <-. eauto.
  - auto.
Qed.

Lemma match_atoms_literal (pre : str) (p : list atom) (s m r : str) :
  match_atoms (List.map Chr pre ++ p) s = Some (m, r) ->
  forall t, starts_with pre (m ++ t) = true.
Proof.
  revert s m r. induction pre as [|x pre IH]; intros s m r H t; [reflexivity|].
  cbn [List.map app match_atoms] in H.
  destruct s as [|c s]; [discriminate|]. cbn [atom_matches] in H.
  destruct (N.eqb_spec x c) as [->|_]; [|discriminate].
  destruct (match_atoms (List.map Chr pre ++ p) s) as [[m' r']|] eqn:Hm;
    [|discriminate].
  injection H as <- _. cbn [app starts_with]. rewrite N.eqb_refl.
  apply (IH _ _ _ Hm).
Qed.

Lemma search_cover_long (summary c : str) :
  search_cover summary = Some c ->
  (25 <= length c)%nat /\ starts_with (cp "https://p1") c = true.
Proof.
  intros H. apply search_found in H as [s' H]. unfold match_cover in H.
  destruct (match_atoms cover_head s') as [[m r]|] eqn:Hm; [|discriminate].
  injection H as <-. split.
  - apply match_atoms_length in Hm.
    rewrite length_app, Hm. change (length cover_head) with 25%nat. lia.
  - eapply match_atoms_literal. exact Hm.
Qed.

(** What [parse_entry] does, by the completeness of the entry; neither the
    result nor the lines logged depend on the state. *)
Lemma parse_entry_cases (entry : Entry) :
  if complete_entry entry
  then exists item l s,
         (forall st, parse_entry entry st = (Ret item, extend st [Log INFO (Link l)]))
         /\ search_cover s = Some (cover item)
         /\ search_album_id l = Some (album_id item)
         /\ copied_from entry item
  else exists e evs,
         (forall st, parse_entry entry st = (Raise e, extend st evs))
         /\ (evs = [] \/ exists l, evs = [Log INFO (Link l)]).
Proof.
  unfold complete_entry, copied_from, parse_entry, bind, getitem, group, log, emit,
    ret, raise.
  destruct (entry !! cp "title") as [t|];
    [|exists (KeyError (cp "title")), [];
      split; [intros st; rewrite extend_nil; reflexivity|auto]].
  destruct (entry !! cp "author") as [a|];
    [|exists (KeyError (cp "author")), [];
      split; [intros st; rewrite extend_nil; reflexivity|auto]].
  destruct (entry !! cp "published") as [p|];
    [|exists (KeyError (cp "published")), [];
      split; [intros st; rewrite extend_nil; reflexivity|auto]].
  destruct (entry !! cp "link") as [l|];
    [|exists (KeyError (cp "link")), [];
      split; [intros st; rewrite extend_nil; reflexivity|auto]].
  cbn [present andb].
  destruct (search_album_id l) as [aid|] eqn:Hid; cbn [present andb];
    [|exists AttributeError, [Log INFO (Link l)];
      split; [intros st; reflexivity|eauto]].
  destruct (entry !! cp "summary") as [s|];
    [|exists (KeyError (cp "summary")), [Log INFO (Link l)];
      split; [intros st; reflexivity|eauto]].
  destruct (search_cover s) as [c|] eqn:Hc; cbn [present];
    [|exists AttributeError, [Log INFO (Link l)];
      split; [intros st; reflexivity|eauto]].
  eexists _, l, s. split; [intros st; reflexivity|]. simpl.
  split; [exact Hc|]. split; [exact Hid|]. repeat split.
Qed.

Lemma count_events_app (kind : Event -> bool) (a b : list Event) :
  count_events kind (a ++ b) = (count_events kind a + count_events kind b)%nat.
Proof. unfold count_events. rewrite List.filter_app, length_app. reflexivity. Qed.

Lemma skipped_lines_app (a b : list Event) :
  skipped_lines (a ++ b) = (skipped_lines a + skipped_lines b)%nat.
Proof. apply count_events_app. Qed.

Lemma parse_loop_spec (es : list Entry) :
  exists items evs,
    (forall acc st, parse_loop es acc st = (Ret (acc ++ items), extend st evs))
    /\ length items = length (List.filter complete_entry es)
    /\ (skipped_lines evs + length items = length es)%nat
    /\ forallb is_parse_event evs = true
    /\ Forall (fun item => exists s, search_cover s = Some (cover item)) items
    /\ Forall2 copied_from (List.filter complete_entry es) items.
Proof.
  induction es as [|entry es IH].
  - exists [], []. split.
    + intros acc st. rewrite app_nil_r, extend_nil. reflexivity.
    + repeat split; constructor.
  - destruct IH as (items & evs & Hrun & Hlen & Hskip & Hcls & Hall & Hfrom).
    cbn [parse_loop List.filter].
    pose proof (parse_entry_cases entry) as Hentry.
    destruct (complete_entry entry).
    + destruct Hentry as (item & l & s & Hitem & Hcover & _ & Hcopied).
      exists (item :: items), (Log INFO (Link l) :: evs). split.
      * intros acc st. run. rewrite Hitem, Hrun. run.
        rewrite <- app_assoc. reflexivity.
      * cbn [length]. split; [lia|]. split; [|split].
        -- change (Log INFO (Link l) :: evs) with ([Log INFO (Link l)] ++ evs).
           rewrite skipped_lines_app. unfold skipped_lines at 1, count_events.
           simpl. lia.
        -- exact Hcls.
        -- split; constructor; eauto.
    + destruct Hentry as (e & evs0 & Hfail & Hevs0).
      exists items, ((evs0 ++ [Log INFO (ExceptionMsg e)]) ++ evs). split.
      * intros acc st. run. rewrite Hfail. run. rewrite Hrun. run.
        rewrite <- !app_assoc. reflexivity.
      * split; [exact Hlen|]. split; [|split].
        -- rewrite !skipped_lines_app.
           destruct Hevs0 as [->|[l ->]]; cbn [length];
             unfold skipped_lines at 1 2, count_events; simpl; lia.
        -- rewrite forallb_app, Hcls.
           destruct Hevs0 as [->|[l ->]]; reflexivity.
        -- split; [exact Hall|exact Hfrom].
Qed.

(** [parse] always returns [parsed], whatever the state. *)
Lemma parse_spec (rss_json : Feed) :
  exists evs,
    (forall st, parse rss_json st = (Ret (parsed rss_json), extend st evs))
    /\ length (parsed rss_json) = length (List.filter complete_entry (entries rss_json))
    /\ (skipped_lines evs + length (parsed rss_json) = length (entries rss_json))%nat
    /\ forallb is_parse_event evs = true
    /\ last evs = Some (Log INFO (ParseEnd (length (parsed rss_json))
                                    (length (entries rss_json))))
    /\ Forall (fun item => exists s, search_cover s = Some (cover item))
         (parsed rss_json)
    /\ Forall2 copied_from (List.filter complete_entry (entries rss_json))
         (parsed rss_json).
Proof.
  destruct (parse_loop_spec (entries rss_json))
    as (items & evs & Hrun & Hlen & Hskip & Hcls & Hall & Hfrom).
  assert (Hparse : forall st,
             parse rss_json st
             = (Ret items,
                extend st (Log INFO Parsing
                           :: evs ++ [Log INFO (ParseEnd (length items)
                                                 (length (entries rss_json)))]))).
  { intros st. unfold parse. run. unfold bind at 1. rewrite Hrun. cbn [app]. run.
    reflexivity. }
  assert (Hitems : parsed rss_json = items).
  { unfold parsed. rewrite Hparse. reflexivity. }
  rewrite Hitems. eexists. split; [exact Hparse|].
  split; [exact Hlen|]. split; [|split; [|split]].
  - change (Log INFO Parsing :: evs ++ [Log INFO (ParseEnd (length items)
                                                  (length (entries rss_json)))])
      with ([Log INFO Parsing] ++ evs ++ [Log INFO (ParseEnd (length items)
                                                  (length (entries rss_json)))]).
    rewrite !skipped_lines_app. unfold skipped_lines at 1 3, count_events.
    simpl. lia.
  - cbn [forallb is_parse_event]. rewrite forallb_app, Hcls. reflexivity.
  - change (Log INFO Parsing :: evs ++ [Log INFO (ParseEnd (length items)
                                                  (length (entries rss_json)))])
      with (([Log INFO Parsing] ++ evs) ++ [Log INFO (ParseEnd (length items)
                                                  (length (entries rss_json)))]).
    apply last_snoc.
  - split; [exact Hall|exact Hfrom].
Qed.

(** The two searches succeed exactly on the texts the specification
    describes. *)
Lemma search_present (f : str -> option str) (s : str) :
  present (search f s) = somewhere (fun t => present (f t)) s.
Proof.
  induction s as [|c s IH]; cbn [search somewhere]; destruct (f _);
    cbn [present orb]; auto.
Qed.

Lemma somewhere_ext (p q : str -> bool) (s : str) :
  (forall t, p t = q t) -> somewhere p s = somewhere q s.
Proof.
  intros Hpq. induction s as [|c s IH]; cbn [somewhere]; rewrite Hpq; [reflexivity|].
  rewrite IH. reflexivity.
Qed.

Lemma match_album_id_present (s : str) :
  present (match_album_id s) = four_digits_at s.
Proof.
  unfold match_album_id, four_digits_at.
  destruct s as [|a [|b [|c [|d s]]]]; cbn [take_upto];
    repeat match goal with
      | |- context [if is_decimal ?x then _ else _] => destruct (is_decimal x)
      end;
    reflexivity.
Qed.

Lemma match_atoms_present (pattern s : str) :
  present (match_atoms
             (List.map (fun p => if p =? full_stop then Dot else Chr p) pattern) s)
  = fits pattern s.
Proof.
  revert s. induction pattern as [|p pattern IH]; intros s; [reflexivity|].
  cbn [List.map match_atoms fits]. destruct s as [|c s]; [reflexivity|].
  rewrite <- IH.
  destruct (p =? full_stop); cbn [atom_matches];
    match goal with
    | |- context [if ?b then _ else _] => destruct b
    end; cbn [andb present]; try reflexivity;
    destruct (match_atoms _ s) as [[m r]|]; reflexivity.
Qed.

Lemma match_cover_present (s : str) : present (match_cover s) = fits cover_prefix s.
Proof.
  rewrite <- match_atoms_present. unfold match_cover.
  change (List.map (fun p => if p =? full_stop then Dot else Chr p) cover_prefix)
    with cover_head.
  destruct (match_atoms cover_head s) as [[m r]|]; reflexivity.
Qed.

Lemma complete_is_counted (entry : Entry) : complete_entry entry = counted_entry entry.
Proof.
  unfold complete_entry, counted_entry, has_album_id, has_cover,
    search_album_id, search_cover.
  destruct (entry !! cp "link") as [l|], (entry !! cp "summary") as [s|];
    rewrite ?search_present,
      ?(somewhere_ext _ _ _ match_album_id_present),
      ?(somewhere_ext _ _ _ match_cover_present);
    reflexivity.
Qed.

Lemma filter_complete_counted (es : list Entry) :
  List.filter complete_entry es = List.filter counted_entry es.
Proof. apply List.filter_ext. intros entry. apply complete_is_counted. Qed.

(** C5. A feed of N entries, of which K have the required fields, a link
    with four decimal digits in a row and a summary in which the fixed part
    of the cover pattern stands, is parsed without an exception into
    exactly K items, which are those of the K entries in the order of the
    feed; the log has one line for each of the N-K dropped entries and ends
    with the line "K/N Succeed". *)
Theorem parse_accepts_complete_entries (rss_json : Feed) (st : State) :
  let N := length (entries rss_json) in
  let K := length (List.filter counted_entry (entries rss_json)) in
  exists items evs,
    parse rss_json st = (Ret items, extend st evs)
    /\ length items = K
    /\ Forall2 copied_from (List.filter counted_entry (entries rss_json)) items
    /\ skipped_lines evs = (N - K)%nat
    /\ last evs = Some (Log INFO (ParseEnd K N)).
Proof.
  intros N K.
  destruct (parse_spec rss_json)
    as (evs & Hrun & Hlen & Hskip & _ & Hlast & _ & Hfrom).
  rewrite filter_complete_counted in Hlen, Hfrom.
  exists (parsed rss_json), evs. split; [apply Hrun|].
  fold K in Hlen. fold N in Hskip, Hlast. rewrite Hlen in Hlast.
  split; [exact Hlen|]. split; [exact Hfrom|]. split; [lia|exact Hlast].
Qed.

Lemma send_photo_branch (E : Env) (G : Globals) (chat photo caption : str)
    (item : Item) (st : State) :
  truthy photo = true ->
  exists sent logs,
    send E G chat photo caption item st
    = (Ret sent,
       extend st
         (Log INFO (SendAlbum (title item) (album_id item))
          :: HttpPost (send_photo_url G)
               [(cp "chat_id", chat); (cp "photo", photo); (cp "caption", caption)]
          :: logs))
    /\ forallb is_log logs = true.
Proof.
  intros Hphoto. unfold send, bind, log, emit, attempt, post, ret. rewrite Hphoto.
  destruct (http_post E _ _ _) as [|[|]]; rewrite !extend_extend;
    eexists _, _; (split; [reflexivity|reflexivity]).
Qed.

Lemma send_urls_differ (G : Globals) : send_photo_url G <> send_message_url G.
Proof.
  unfold send_photo_url, send_message_url, cat. intros H.
  apply app_inv_head in H. discriminate H.
Qed.

(** C10. Every item [parse] returns has a cover that begins with the
    scheme and host of the pattern and has at least the 25 characters of
    its fixed part, so [construct_params] hands [send] a true photo: [send]
    makes its one request to the sendPhoto address, with the cover as
    photo, and none to sendMessage. *)
Theorem parsed_items_take_photo_branch (E : Env) (G : Globals) (rss_json : Feed)
    (st st' : State) (items : list Item) (item : Item) :
  parse rss_json st = (Ret items, st') ->
  In item items ->
  (25 <= length (cover item))%nat
  /\ starts_with (cp "https://p1") (cover item) = true
  /\ fst (fst (construct_params item)) = cover item
  /\ send_photo_url G <> send_message_url G
  /\ forall chat caption st1,
       exists sent logs,
         send E G chat (cover item) caption item st1
         = (Ret sent,
            extend st1
              (Log INFO (SendAlbum (title item) (album_id item))
               :: HttpPost (send_photo_url G)
                    [(cp "chat_id", chat); (cp "photo", cover item);
                     (cp "caption", caption)]
               :: logs))
         /\ forallb is_log logs = true.
Proof.
  intros Hparse Hin.
  assert (Hcover : (25 <= length (cover item))%nat
                   /\ starts_with (cp "https://p1") (cover item) = true).
  { destruct (parse_spec rss_json) as (evs & Hrun & _ & _ & _ & _ & Hall & _).
    rewrite Hrun in Hparse. injection Hparse as <- _.
    rewrite List.Forall_forall in Hall. destruct (Hall item Hin) as [s Hs].
    eapply search_cover_long. exact Hs. }
  destruct Hcover as [Hlong Hhost].
  split; [exact Hlong|]. split; [exact Hhost|].
  split; [reflexivity|]. split; [apply send_urls_differ|].
  intros chat caption st1. apply send_photo_branch.
  destruct (cover item); [simpl in Hlong; lia|reflexivity].
Qed.

(** ** [filter] *)

Lemma decide_present {A} (o : option A) : bool_decide (is_Some o) = present o.
Proof.
  destruct o; cbn [present].
  - apply bool_decide_eq_true_2. eauto.
  - apply bool_decide_eq_false_2. intros [? ?]. discriminate.
Qed.

Lemma lookups_answered_app (E : Env) (h a b : list Event) :
  lookups_answered E h (a ++ b)
  = lookups_answered E h a && lookups_answered E (h ++ a) b.
Proof.
  revert h. induction a as [|e a IH]; intros h; cbn [app lookups_answered].
  - rewrite app_nil_r. reflexivity.
  - rewrite IH, <- app_assoc, andb_assoc. reflexivity.
Qed.

Lemma lookups_answered_none (E : Env) (h evs : list Event) :
  forallb (fun e => negb (is_lookup e)) evs = true ->
  lookups_answered E h evs = true.
Proof.
  revert h. induction evs as [|e evs IH]; intros h; [reflexivity|].
  cbn [forallb lookups_answered]. intros [He Hevs]%andb_prop.
  rewrite (IH _ Hevs), andb_true_r. destruct e; try reflexivity. discriminate.
Qed.

Lemma forallb_lookups (p : Event -> bool) (items : list Item) :
  (forall key, p (RedisExists key) = true) -> forallb p (lookups items) = true.
Proof.
  intros Hp. induction items as [|item items IH]; [reflexivity|].
  cbn [lookups List.map forallb]. rewrite Hp. exact IH.
Qed.

(** [filter] is one call of [REDIS.exists]: it raises when the call does,
    and otherwise tells whether the key is in the store. *)
Lemma filter_spec (E : Env) (item : Item) (st : State) :
  filter E item st
  = match redis_exists E (trace st) (album_id item) with
    | ExistsRaises =>
        (Raise TransportError, extend st [RedisExists (album_id item)])
    | ExistsAnswers =>
        (Ret (present (redis st !! album_id item)),
         extend st [RedisExists (album_id item)])
    end.
Proof.
  unfold filter, REDIS_exists, bind, ret.
  destruct (redis_exists E (trace st) (album_id item)); [reflexivity|].
  rewrite decide_present. destruct (present _); reflexivity.
Qed.

Lemma filter_is_lookup (E : Env) (item : Item) (st : State) :
  filter E item st = REDIS_exists E (album_id item) st.
Proof.
  unfold filter, REDIS_exists, bind, ret.
  destruct (redis_exists E (trace st) (album_id item)); [reflexivity|].
  destruct (bool_decide _); reflexivity.
Qed.

(** The list comprehension of [main]: either every lookup is answered, and
    it returns the items the store does not have; or a lookup raises, which
    ends it on the spot. *)
Lemma not_yet_sent_spec (E : Env) (items : list Item) (st : State) :
  (not_yet_sent E items st = (Ret (new_items st items), extend st (lookups items))
   /\ lookups_answered E (trace st) (lookups items) = true)
  \/ (exists pre item post,
        items = pre ++ item :: post
        /\ redis_exists E (trace st ++ lookups pre) (album_id item) = ExistsRaises
        /\ lookups_answered E (trace st) (lookups pre) = true
        /\ lookups_answered E (trace st) (lookups (pre ++ [item])) = false
        /\ not_yet_sent E items st
           = (Raise TransportError, extend st (lookups (pre ++ [item])))).
Proof.
  revert st. induction items as [|item items IH]; intros st.
  - left. cbn [not_yet_sent lookups List.map]. rewrite extend_nil. split; reflexivity.
  - assert (Hstep :
              not_yet_sent E (item :: items) st
              = match redis_exists E (trace st) (album_id item) with
                | ExistsRaises =>
                    (Raise TransportError, extend st [RedisExists (album_id item)])
                | ExistsAnswers =>
                    bind (not_yet_sent E items)
                      (fun kept =>
                         ret (if present (redis st !! album_id item)
                              then kept else item :: kept))
                      (extend st [RedisExists (album_id item)])
                end).
    { cbn [not_yet_sent]. unfold bind at 1. rewrite filter_spec.
      destruct (redis_exists E (trace st) (album_id item)); reflexivity. }
    rewrite Hstep. clear Hstep.
    destruct (redis_exists E (trace st) (album_id item)) eqn:Hans.
    + right. exists [], item, items. cbn [app lookups List.map lookups_answered].
      rewrite app_nil_r, Hans. repeat split.
    + destruct (IH (extend st [RedisExists (album_id item)]))
        as [[Hrun Hall]|(pre & it & post & -> & Hraise & Hpre & Hall & Hrun)].
      * left. unfold bind. rewrite Hrun. unfold ret. rewrite extend_extend. split.
        -- unfold new_items. cbn [List.filter redis extend].
           destruct (present (redis st !! album_id item)); reflexivity.
        -- cbn [lookups List.map lookups_answered]. rewrite Hans. exact Hall.
      * right. exists (item :: pre), it, post.
        cbn [trace extend] in Hraise, Hpre, Hall. rewrite <- app_assoc in Hraise.
        split; [reflexivity|]. split; [exact Hraise|].
        cbn [app lookups List.map lookups_answered]. rewrite Hans.
        split; [exact Hpre|]. split; [exact Hall|].
        unfold bind. rewrite Hrun, extend_extend. reflexivity.
Qed.


(** C8. [filter] returns what the lookup [REDIS.exists] of the item's
    album id reports: true exactly when the store has a live entry for it,
    and the lookup's exception when it raises.  It makes that one call and
    leaves the store as it was.  The list comprehension of [main] makes the
    lookups in the order of the items and leaves the store as it was; when
    they are all answered it returns, unchanged and in order, the items
    whose id the store does not have, and when one raises it ends there
    with that exception. *)
Theorem filter_reads_the_store (E : Env) (item : Item) (items : list Item)
    (st : State) :
  (exists r st',
     filter E item st = (r, st')
     /\ REDIS_exists E (album_id item) st = (r, st')
     /\ redis st' = redis st
     /\ trace st' = trace st ++ [RedisExists (album_id item)]
     /\ match redis_exists E (trace st) (album_id item) with
        | ExistsAnswers =>
            exists known,
              r = Ret known /\ (known = true <-> is_Some (redis st !! album_id item))
        | ExistsRaises => r = Raise TransportError
        end)
  /\ (exists r st',
        not_yet_sent E items st = (r, st')
        /\ redis st' = redis st
        /\ match r with
           | Ret kept =>
               kept = List.filter
                        (fun i => negb (present (redis st !! album_id i))) items
               /\ trace st' = trace st ++ lookups items
               /\ lookups_answered E (trace st) (lookups items) = true
           | Raise e =>
               e = TransportError
               /\ exists pre it post,
                    items = pre ++ it :: post
                    /\ redis_exists E (trace st ++ lookups pre) (album_id it)
                       = ExistsRaises
                    /\ lookups_answered E (trace st) (lookups pre) = true
                    /\ trace st' = trace st ++ lookups (pre ++ [it])
           end).
Proof.
  split.
  - rewrite <- filter_is_lookup, filter_spec.
    destruct (redis_exists E (trace st) (album_id item)).
    + eexists _, _. repeat split.
    + eexists _, _. split; [reflexivity|]. split; [reflexivity|].
      split; [reflexivity|]. split; [reflexivity|].
      exists (present (redis st !! album_id item)). split; [reflexivity|].
      rewrite <- decide_present. apply bool_decide_eq_true.
  - destruct (not_yet_sent_spec E items st)
      as [[Hrun Hall]|(pre & it & post & Hitems & Hraise & Hpre & _ & Hrun)].
    + eexists _, _. split; [exact Hrun|]. repeat split. exact Hall.
    + eexists _, _. split; [exact Hrun|]. split; [reflexivity|].
      split; [reflexivity|]. exists pre, it, post. repeat split; assumption.
Qed.

(** ** [download] *)

Ltac by_kind :=
  let e := fresh "e" in
  intros e; destruct e as [[] [] | | | | |];
  unfold is_intake_event, is_sift_event; simpl; congruence.

Section Pass.

(** The collaborators and the module's globals are arbitrary from here
    on. *)
Context (E : Env) (G : Globals).

Lemma gets_failed_app (h a b : list Event) :
  gets_failed E h (a ++ b) = gets_failed E h a && gets_failed E (h ++ a) b.
Proof.
  revert h. induction a as [|e a IH]; intros h; cbn [app gets_failed].
  - rewrite app_nil_r. reflexivity.
  - rewrite IH, <- app_assoc, andb_assoc. reflexivity.
Qed.

Lemma download_loop_spec (url : str) (retries : list nat) (st : State) :
  exists r evs,
    download_loop E url retries None st = (Ret r, extend st evs)
    /\ forallb is_download_body evs = true
    /\ (count_events is_get evs <= length retries)%nat
    /\ match r with
       | Some feed => exists h, http_get E h url = GetParsed (Some feed)
       | None =>
           count_events is_get evs = length retries
           /\ gets_failed E (trace st) evs = true
       end.
Proof.
  revert st. induction retries as [|retry rest IH]; intros st.
  - exists None, []. rewrite extend_nil. repeat split.
    unfold count_events. simpl. lia.
  - cbn [download_loop]. run. unfold fetch. cbn [trace extend].
    destruct (http_get E (trace st ++ [Log INFO (AttemptOf (retry + 1) 3)]) url)
      as [|[feed|]] eqn:Hans; run.
    + destruct (IH (extend st [Log INFO (AttemptOf (retry + 1) 3); HttpGet url;
                               Log INFO (FailedNext TransportError); Sleep 6]))
        as (r & evs & -> & Hcls & Hcnt & Hr).
      rewrite extend_extend. eexists r, _. split; [reflexivity|].
      split; [rewrite forallb_app, Hcls; reflexivity|].
      rewrite count_events_app. cbn [length].
      change (count_events is_get [_; _; _; _]) with 1%nat.
      split; [lia|]. destruct r as [feed|]; [exact Hr|].
      destruct Hr as [Hn Hf]. split; [lia|].
      rewrite gets_failed_app. cbn [trace extend] in Hf. rewrite Hf, andb_true_r.
      cbn [gets_failed]. rewrite Hans. reflexivity.
    + unfold ret. eexists (Some feed), _. split; [reflexivity|].
      split; [reflexivity|]. split; [unfold count_events; simpl; lia|]. eauto.
    + destruct (IH (extend st [Log INFO (AttemptOf (retry + 1) 3); HttpGet url]))
        as (r & evs & -> & Hcls & Hcnt & Hr).
      rewrite extend_extend. eexists r, _. split; [reflexivity|].
      split; [rewrite forallb_app, Hcls; reflexivity|].
      rewrite count_events_app. cbn [length].
      change (count_events is_get [_; _]) with 1%nat.
      split; [lia|]. destruct r as [feed|]; [exact Hr|].
      destruct Hr as [Hn Hf]. split; [lia|].
      rewrite gets_failed_app. cbn [trace extend] in Hf. rewrite Hf, andb_true_r.
      cbn [gets_failed]. rewrite Hans. reflexivity.
Qed.

Lemma download_spec (url : str) (st : State) :
  exists r evs,
    download E url st = (r, extend st evs)
    /\ (count_events is_get evs <= 3)%nat
    /\ match r with
       | Ret feed =>
           (exists h, http_get E h url = GetParsed (Some feed))
           /\ exists body,
                evs = body ++ [Log INFO DownloadOk]
                /\ forallb is_download_body body = true
       | Raise e =>
           e = DownloadFailed
           /\ count_events is_get evs = 3%nat
           /\ gets_failed E (trace st) evs = true
           /\ forallb is_download_body evs = true
       end.
Proof.
  unfold download. run. unfold bind at 1.
  destruct (download_loop_spec url (seq 0 3) (extend st [Log INFO Downloading]))
    as (r & evs & -> & Hcls & Hcnt & Hr).
  cbn [length seq] in *.
  destruct r as [feed|]; run.
  - unfold ret. eexists (Ret feed), _.
    split; [reflexivity|]. split.
    + change (Log INFO Downloading :: evs ++ [Log INFO DownloadOk])
        with ([Log INFO Downloading] ++ evs ++ [Log INFO DownloadOk]).
      rewrite !count_events_app. unfold count_events at 1 3. simpl. lia.
    + split; [exact Hr|]. exists (Log INFO Downloading :: evs).
      split; [reflexivity|]. exact Hcls.
  - unfold raise. eexists (Raise DownloadFailed), _.
    split; [reflexivity|]. destruct Hr as [Hn Hf].
    change (Log INFO Downloading :: evs) with ([Log INFO Downloading] ++ evs).
    rewrite count_events_app. unfold count_events at 1 3. simpl.
    split; [lia|]. split; [reflexivity|]. split; [lia|].
    split; [|exact Hcls].
    cbn [app gets_failed]. cbn [trace extend] in Hf. rewrite Hf. reflexivity.
Qed.

(** ** [redis_set] *)

Lemma redis_set_loop_spec (aid : str) (retries : list nat)
    (st : State) :
  exists done st' body,
    redis_set_loop E G aid retries st = (Ret done, st')
    /\ trace st' = trace st ++ body ++ [commit_closing aid done]
    /\ forallb is_commit_body body = true
    /\ (count_events is_set_call body <= length retries)%nat
    /\ (count_events is_set_attempt body <= length retries)%nat
    /\ (done = false -> count_events is_set_attempt body = length retries)
    /\ match rj_code G with
       | None =>
           redis st' = redis st /\ done = false
           /\ count_events is_set_call body = 0%nat
       | Some key =>
           if done then redis st' = <[key := (cp "sent", 64281600%Z)]> (redis st)
           else redis st' = redis st
       end
    /\ (forall k, (forall v ex, ~ In (RedisSet k v ex) body) ->
                  redis st' !! k = redis st !! k).
Proof.
  revert st. induction retries as [|retry rest IH]; intros st.
  - cbn [redis_set_loop]. run. unfold ret. eexists false, _, [].
    split; [reflexivity|]. split; [reflexivity|]. split; [reflexivity|].
    change (count_events is_set_call []) with 0%nat.
    change (count_events is_set_attempt []) with 0%nat. cbn [length].
    split; [lia|]. split; [lia|]. split; [reflexivity|].
    split; [|reflexivity].
    destruct (rj_code G); [reflexivity|]. split; [reflexivity|].
    split; reflexivity.
  - cbn [redis_set_loop]. run. unfold load_name.
    destruct (rj_code G) as [key|] eqn:Hkey; run.
    + unfold REDIS_set. cbn [trace extend].
      destruct (redis_answer E _ key) eqn:Hans; run.
      * destruct (IH (extend st [Log INFO (SetAttempt (retry + 1) 5);
                                 RedisSet key (cp "sent") 64281600;
                                 Log INFO SetRetry; Sleep 6]))
          as (done & st' & body & -> & Htr & Hcls & Hcalls & Hatt & Hall & Hst & Hw).
        exists done, st', ([Log INFO (SetAttempt (retry + 1) 5);
                            RedisSet key (cp "sent") 64281600;
                            Log INFO SetRetry; Sleep 6] ++ body).
        split; [reflexivity|].
        split; [rewrite Htr; cbn [trace extend]; rewrite <- !app_assoc; reflexivity|].
        split; [rewrite forallb_app, Hcls; reflexivity|].
        rewrite !count_events_app.
        change (count_events is_set_call [_; _; _; _]) with 1%nat.
        change (count_events is_set_attempt [_; _; _; _]) with 1%nat.
        cbn [length]. split; [lia|]. split; [lia|].
        split; [intros Hd; specialize (Hall Hd); lia|]. split; [exact Hst|].
        intros k Hk. rewrite Hw; [reflexivity|].
        intros v ex Hin. apply (Hk v ex). apply in_or_app. right. exact Hin.
      * destruct (IH (extend st [Log INFO (SetAttempt (retry + 1) 5);
                                 RedisSet key (cp "sent") 64281600]))
          as (done & st' & body & -> & Htr & Hcls & Hcalls & Hatt & Hall & Hst & Hw).
        exists done, st', ([Log INFO (SetAttempt (retry + 1) 5);
                            RedisSet key (cp "sent") 64281600] ++ body).
        split; [reflexivity|].
        split; [rewrite Htr; cbn [trace extend]; rewrite <- !app_assoc; reflexivity|].
        split; [rewrite forallb_app, Hcls; reflexivity|].
        rewrite !count_events_app.
        change (count_events is_set_call [_; _]) with 1%nat.
        change (count_events is_set_attempt [_; _]) with 1%nat.
        cbn [length]. split; [lia|]. split; [lia|].
        split; [intros Hd; specialize (Hall Hd); lia|]. split; [exact Hst|].
        intros k Hk. rewrite Hw; [reflexivity|].
        intros v ex Hin. apply (Hk v ex). apply in_or_app. right. exact Hin.
      * unfold ret.
        eexists true, _, [Log INFO (SetAttempt (retry + 1) 5);
                          RedisSet key (cp "sent") 64281600].
        split; [reflexivity|].
        split; [cbn [trace extend]; rewrite <- !app_assoc; reflexivity|].
        split; [reflexivity|].
        change (count_events is_set_call [_; _]) with 1%nat.
        change (count_events is_set_attempt [_; _]) with 1%nat.
        cbn [length]. split; [lia|]. split; [lia|]. split; [discriminate|].
        split; [reflexivity|].
        intros k Hk. cbn [redis extend]. apply lookup_insert_ne.
        intros ->. apply (Hk (cp "sent") 64281600%Z). right. left. reflexivity.
    + destruct (IH (extend st [Log INFO (SetAttempt (retry + 1) 5);
                               Log INFO SetRetry; Sleep 6]))
        as (done & st' & body & -> & Htr & Hcls & Hcalls & Hatt & Hall & Hst & Hw).
      exists done, st', ([Log INFO (SetAttempt (retry + 1) 5);
                          Log INFO SetRetry; Sleep 6] ++ body).
      split; [reflexivity|].
      split; [rewrite Htr; cbn [trace extend]; rewrite <- !app_assoc; reflexivity|].
      split; [rewrite forallb_app, Hcls; reflexivity|].
      rewrite !count_events_app.
      change (count_events is_set_call [_; _; _]) with 0%nat.
      change (count_events is_set_attempt [_; _; _]) with 1%nat.
      cbn [length]. destruct Hst as (Hr & Hd & Hc).
      split; [lia|]. split; [lia|]. split; [intros Hdd; specialize (Hall Hdd); lia|].
      split; [split; [exact Hr|]; split; [exact Hd|lia]|].
      intros k Hk. rewrite Hw; [reflexivity|].
      intros v ex Hin. apply (Hk v ex). apply in_or_app. right. exact Hin.
Qed.

(** C6. [download] issues at most 3 GETs, and when it raises, the
    exception is its own "Failed to download RSS.", it has issued all 3 and
    each was answered with a failure.  [redis_set] never raises, calls
    [REDIS.set] at most 5 times in at most 5 attempts, and returns false
    only after the fifth attempt. *)
Theorem retries_are_bounded (url aid : str) (st : State) :
  (exists r evs,
     download E url st = (r, extend st evs)
     /\ (count_events is_get evs <= 3)%nat
     /\ forall e, r = Raise e ->
          e = DownloadFailed
          /\ count_events is_get evs = 3%nat
          /\ gets_failed E (trace st) evs = true)
  /\ (exists done st' evs,
        redis_set E G aid st = (Ret done, st')
        /\ trace st' = trace st ++ evs
        /\ (count_events is_set_call evs <= 5)%nat
        /\ (count_events is_set_attempt evs <= 5)%nat
        /\ (done = false ->
            count_events is_set_attempt evs = 5%nat
            /\ last evs = Some (Log INFO (SetGiveUp aid)))).
Proof.
  split.
  - destruct (download_spec url st) as (r & evs & Hrun & Hcnt & Hr).
    exists r, evs. split; [exact Hrun|]. split; [exact Hcnt|].
    intros e ->. destruct Hr as (He & Hn & Hf & _). auto.
  - destruct (redis_set_loop_spec aid (seq 0 5) st)
      as (done & st' & body & Hrun & Htr & _ & Hcalls & Hatt & Hall & _).
    exists done, st', (body ++ [commit_closing aid done]).
    split; [exact Hrun|]. split; [exact Htr|].
    rewrite !count_events_app. cbn [length seq] in *.
    assert (Hc0 : forall k, count_events k [commit_closing aid done]
                            = if k (commit_closing aid done) then 1%nat else 0%nat).
    { intros k. unfold count_events. simpl. destruct (k _); reflexivity. }
    rewrite !Hc0. destruct done; cbn [commit_closing is_set_call is_set_attempt].
    + split; [lia|]. split; [lia|]. discriminate.
    + specialize (Hall eq_refl). split; [lia|]. split; [lia|]. intros _.
      split; [lia|]. rewrite last_snoc. reflexivity.
Qed.

(** ** [send] *)

Lemma send_spec (chat photo caption : str) (item : Item)
    (st : State) :
  exists sent target params mid,
    send E G chat photo caption item st
    = (Ret sent,
       extend st
         (Log INFO (SendAlbum (title item) (album_id item))
          :: HttpPost target params :: mid ++ [send_closing item sent]))
    /\ forallb is_send_detail mid = true.
Proof.
  unfold send. run. destruct (truthy photo); run; unfold post; cbn [trace extend];
    destruct (http_post E _ _ _) as [|[|]]; run; unfold ret.
  - eexists false, _, _, [_]. split; reflexivity.
  - eexists true, _, _, []. split; reflexivity.
  - eexists false, _, _, [_; _]. split; reflexivity.
  - eexists false, _, _, [_]. split; reflexivity.
  - eexists true, _, _, []. split; reflexivity.
  - eexists false, _, _, [_; _]. split; reflexivity.
Qed.

(** ** One artist *)

Lemma forallb_weaken {A} (p q : A -> bool) (l : list A) :
  (forall x, p x = true -> q x = true) ->
  forallb p l = true -> forallb q l = true.
Proof.
  intros Hpq. induction l as [|x l IH]; [reflexivity|]. cbn [forallb].
  intros [Hx Hl]%andb_prop. rewrite (Hpq x Hx), (IH Hl). reflexivity.
Qed.

Lemma existsb_none {A} (p q : A -> bool) (l : list A) :
  (forall x, p x = true -> q x = false) ->
  forallb p l = true -> existsb q l = false.
Proof.
  intros Hpq. induction l as [|x l IH]; [reflexivity|]. cbn [forallb existsb].
  intros [Hx Hl]%andb_prop. rewrite (Hpq x Hx), (IH Hl). reflexivity.
Qed.

Lemma count_events_none (p q : Event -> bool) (l : list Event) :
  (forall x, p x = true -> q x = false) ->
  forallb p l = true -> count_events q l = 0%nat.
Proof.
  intros Hpq. unfold count_events.
  induction l as [|x l IH]; [reflexivity|]. cbn [forallb List.filter].
  intros [Hx Hl]%andb_prop. rewrite (Hpq x Hx). apply IH. exact Hl.
Qed.

(** The three ways the work for one artist can go: [download] gives up; a
    lookup of the list comprehension raises; or the inner loop is reached
    with the items the store does not have. *)
Lemma one_source_run (name url : str) (st : State) :
  (exists body,
     forallb is_download_body body = true
     /\ download E url (extend st [Log INFO (Source name url)])
        = (Raise DownloadFailed, extend st (Log INFO (Source name url) :: body))
     /\ one_source E G name url st
        = (Raise DownloadFailed, extend st (Log INFO (Source name url) :: body)))
  \/ (exists feed h evs,
        http_get E h url = GetParsed (Some feed)
        /\ forallb is_intake_event evs = true
        /\ count_events is_download_ok evs = 1%nat
        /\ lookups_answered E (trace st) evs = false
        /\ (exists h' key, redis_exists E h' key = ExistsRaises)
        /\ one_source E G name url st = (Raise TransportError, extend st evs))
  \/ (exists feed h body sift,
        http_get E h url = GetParsed (Some feed)
        /\ forallb is_download_body body = true
        /\ forallb is_sift_event sift = true
        /\ lookups_answered E (trace st)
             (intake name url body sift
                (length (new_items st (parsed feed))) (length (parsed feed)))
           = true
        /\ one_source E G name url st
           = send_loop E G (new_items st (parsed feed))
               (extend st
                  (intake name url body sift
                     (length (new_items st (parsed feed)))
                     (length (parsed feed))))).
Proof.
  unfold one_source. run.
  destruct (download_spec url (extend st [Log INFO (Source name url)]))
    as (r & evs & Hd & _ & Hr).
  rewrite extend_extend in Hd. cbn [app] in Hd. destruct r as [feed|e].
  - right. destruct Hr as ((h & Hh) & body & -> & Hbody).
    destruct (parse_spec feed) as (evs_p & Hp & _ & _ & Hcls & _).
    rewrite (bind_returns _ _ _ _ _ Hd).
    rewrite (bind_returns _ _ _ _ _ (Hp _)).
    rewrite extend_extend.
    set (front := (Log INFO (Source name url) :: body ++ [Log INFO DownloadOk])
                  ++ evs_p).
    assert (Hquiet : forallb (fun e => negb (is_lookup e)) front = true).
    { unfold front. rewrite forallb_app. cbn [forallb is_lookup negb andb].
      rewrite forallb_app.
      rewrite (forallb_weaken is_download_body _ body) by (assumption || by_kind).
      rewrite (forallb_weaken is_parse_event _ evs_p) by (assumption || by_kind).
      reflexivity. }
    assert (Hkind : forallb is_intake_event front = true).
    { unfold front. rewrite forallb_app. cbn [forallb is_intake_event andb].
      rewrite forallb_app.
      rewrite (forallb_weaken is_download_body _ body) by (assumption || by_kind).
      rewrite (forallb_weaken is_parse_event _ evs_p) by (assumption || by_kind).
      reflexivity. }
    assert (Hok : count_events is_download_ok front = 1%nat).
    { unfold front.
      change (Log INFO (Source name url) :: body ++ [Log INFO DownloadOk])
        with ([Log INFO (Source name url)] ++ body ++ [Log INFO DownloadOk]).
      rewrite !count_events_app.
      rewrite (count_events_none is_download_body is_download_ok body),
        (count_events_none is_parse_event is_download_ok evs_p);
        try assumption; try by_kind.
      reflexivity. }
    destruct (not_yet_sent_spec E (parsed feed) (extend st front))
      as [[Hrun Hall]|(pre & it & post & Hitems & Hraise & _ & Hall & Hrun)];
      cbn [trace extend] in Hall.
    + right. exists feed, h, body, (evs_p ++ lookups (parsed feed)).
      split; [exact Hh|]. split; [exact Hbody|]. split.
      { rewrite forallb_app.
        rewrite (forallb_weaken is_parse_event _ evs_p) by (assumption || by_kind).
        rewrite forallb_lookups by reflexivity. reflexivity. }
      assert (Hshape :
                intake name url body (evs_p ++ lookups (parsed feed))
                  (length (new_items st (parsed feed))) (length (parsed feed))
                = front ++ lookups (parsed feed)
                  ++ [Log INFO (FilteredBy (length (new_items st (parsed feed)))
                                  (length (parsed feed)))]).
      { unfold intake, front. cbn [app]. rewrite <- !app_assoc. reflexivity. }
      rewrite Hshape. split.
      { rewrite !lookups_answered_app, Hall.
        rewrite (lookups_answered_none _ _ front Hquiet). reflexivity. }
      rewrite (bind_returns _ _ _ _ _ Hrun). run. reflexivity.
    + left. exists feed, h, (front ++ lookups (pre ++ [it])).
      split; [exact Hh|]. split.
      { rewrite forallb_app, Hkind. rewrite forallb_lookups by reflexivity.
        reflexivity. }
      split.
      { rewrite count_events_app, Hok.
        rewrite (count_events_none is_lookup is_download_ok)
          by (by_kind || (apply forallb_lookups; reflexivity)).
        reflexivity. }
      split.
      { rewrite lookups_answered_app, Hall. apply andb_false_r. }
      split; [eauto|].
      rewrite (bind_raises _ _ _ _ _ Hrun), extend_extend. reflexivity.
  - left. destruct Hr as (-> & _ & _ & Hbody). exists evs.
    split; [|split].
    + change (Log INFO (Source name url) :: evs)
        with ([Log INFO (Source name url)] ++ evs) in Hd.
      rewrite <- extend_extend in Hd. cbn [forallb] in Hbody. exact Hbody.
    + exact Hd.
    + rewrite (bind_raises _ _ _ _ _ Hd). reflexivity.
Qed.

Lemma sources_loop_app (a b : list (str * str)) (st : State) :
  sources_loop E G (a ++ b) st
  = match sources_loop E G a st with
    | (Ret _, st1) => sources_loop E G b st1
    | (Raise e, st1) => (Raise e, st1)
    end.
Proof.
  revert st. induction a as [|[name url] a IH]; intros st; [reflexivity|].
  cbn [app sources_loop]. unfold bind.
  destruct (one_source E G name url st) as [[[]|e] st1]; [apply IH|reflexivity].
Qed.

(** C2, as the program has it.  When [download] gives up on an artist,
    its exception leaves [main]: the pass ends in the state in which
    [download] raised, so nothing is done for the artists after it, and the
    exit status is 1. *)
Theorem failed_download_ends_the_pass (st st1 st2 : State)
    (before after : list (str * str)) (name artist_id : str) (e : Exc) :
  CONFIGS G = before ++ (name, artist_id) :: after ->
  sources_loop E G (List.map (fun kv => (fst kv, rss_url (snd kv))) before)
    (extend st [Log INFO AppStart]) = (Ret tt, st1) ->
  download E (rss_url artist_id)
    (extend st1 [Log INFO (Source name (rss_url artist_id))]) = (Raise e, st2) ->
  main E G st = (Raise e, st2)
  /\ e = DownloadFailed
  /\ exit_status (fst (main E G st)) = 1%Z.
Proof.
  intros Hcfg Hbefore Hdown.
  assert (Hmain : main E G st = (Raise e, st2)).
  { unfold main, rss_url_generator. run. rewrite Hcfg, List.map_app.
    unfold bind at 1. rewrite sources_loop_app, Hbefore.
    cbn [List.map sources_loop fst snd]. unfold bind at 1, one_source. run.
    rewrite (bind_raises _ _ _ _ _ Hdown). reflexivity. }
  rewrite Hmain. split; [reflexivity|]. split; [|reflexivity].
  destruct (download_spec (rss_url artist_id)
              (extend st1 [Log INFO (Source name (rss_url artist_id))]))
    as (r & evs & Hd & _ & Hr).
  rewrite Hd in Hdown. injection Hdown as -> _. destruct Hr as [-> _]. reflexivity.
Qed.

(** ** Kinds of events *)

Lemma intake_no_post (name url : str) (body evs_p : list Event) (k n : nat) :
  forallb is_download_body body = true ->
  forallb is_sift_event evs_p = true ->
  existsb is_post (intake name url body evs_p k n) = false
  /\ existsb is_send_line (intake name url body evs_p k n) = false.
Proof.
  intros Hb Hp. unfold intake. cbn [existsb is_post is_send_line orb].
  rewrite !existsb_app. cbn [existsb is_post is_send_line orb].
  rewrite !existsb_app. cbn [existsb is_post is_send_line orb].
  rewrite (existsb_none is_download_body is_post body), (existsb_none is_sift_event is_post evs_p),
    (existsb_none is_download_body is_send_line body),
    (existsb_none is_sift_event is_send_line evs_p); try assumption; try by_kind.
  split; reflexivity.
Qed.

Lemma intake_survivors (name url : str) (body evs_p : list Event) (k n : nat) :
  forallb is_download_body body = true ->
  forallb is_sift_event evs_p = true ->
  existsb is_survivors_line (intake name url body evs_p k n)
  = match k with O => false | S _ => true end.
Proof.
  intros Hb Hp. unfold intake. cbn [existsb is_survivors_line orb].
  rewrite !existsb_app. cbn [existsb is_survivors_line orb].
  rewrite !existsb_app. cbn [existsb is_survivors_line orb].
  rewrite (existsb_none is_download_body is_survivors_line body),
    (existsb_none is_sift_event is_survivors_line evs_p);
    try assumption; try by_kind.
  destruct k; reflexivity.
Qed.

Lemma intake_download_ok (name url : str) (body evs_p : list Event) (k n : nat) :
  forallb is_download_body body = true ->
  forallb is_sift_event evs_p = true ->
  count_events is_download_ok (intake name url body evs_p k n) = 1%nat.
Proof.
  intros Hb Hp. unfold intake.
  change (Log INFO (Source name url)
          :: body ++ Log INFO DownloadOk :: evs_p ++ [Log INFO (FilteredBy k n)])
    with ([Log INFO (Source name url)] ++ body ++ [Log INFO DownloadOk] ++ evs_p
          ++ [Log INFO (FilteredBy k n)]).
  rewrite !count_events_app.
  rewrite (count_events_none is_download_body is_download_ok body),
    (count_events_none is_sift_event is_download_ok evs_p);
    try assumption; try by_kind.
  reflexivity.
Qed.

(** ** The pass of the module as written *)

Section AsWritten.

(** [main.py] binds [rss_author] nowhere. *)
Hypothesis Hname : rss_author G = None.

Lemma send_loop_unbound (items : list Item) (st : State) :
  send_loop E G items st
  = match items with
    | [] => (Ret tt, st)
    | _ :: _ => (Raise (NameError "rss_author"), st)
    end.
Proof.
  destruct items as [|item items]; [reflexivity|].
  cbn [send_loop]. unfold construct_params. cbn iota. rewrite Hname.
  reflexivity.
Qed.

Lemma sources_loop_as_written (srcs : list (str * str))
    (st : State) :
  exists r evs,
    sources_loop E G srcs st = (r, extend st evs)
    /\ existsb is_post evs = false
    /\ match r with
       | Ret _ =>
           existsb is_survivors_line evs = false
           /\ count_events is_download_ok evs = length srcs
           /\ lookups_answered E (trace st) evs = true
       | Raise e =>
           (e = NameError "rss_author" /\ existsb is_survivors_line evs = true)
           \/ (e = DownloadFailed
               /\ existsb is_survivors_line evs = false
               /\ (count_events is_download_ok evs < length srcs)%nat)
           \/ (e = TransportError
               /\ existsb is_survivors_line evs = false
               /\ lookups_answered E (trace st) evs = false)
       end.
Proof.
  revert st.
  induction srcs as [|[name url] srcs IH]; intros st.
  - exists (Ret tt), []. rewrite extend_nil. repeat split.
  - cbn [sources_loop length].
    destruct (one_source_run name url st)
      as [(body & Hbody & _ & Hrun)
         |[(feed & h & evs1 & _ & Hkind & _ & Hall & _ & Hrun)
          |(feed & h & body & evs_p & _ & Hbody & Hp & Hall & Hrun)]].
    + rewrite (bind_raises _ _ _ _ _ Hrun).
      eexists _, _. split; [reflexivity|].
      cbn [existsb is_post is_survivors_line orb].
      rewrite (existsb_none is_download_body is_post body) by (assumption || by_kind).
      split; [reflexivity|]. right. left.
      rewrite (existsb_none is_download_body is_survivors_line body)
        by (assumption || by_kind).
      split; [reflexivity|]. split; [reflexivity|].
      change (Log INFO (Source name url) :: body)
        with ([Log INFO (Source name url)] ++ body).
      rewrite count_events_app.
      rewrite (count_events_none is_download_body is_download_ok body)
        by (assumption || by_kind).
      cbn. lia.
    + rewrite (bind_raises _ _ _ _ _ Hrun).
      eexists _, _. split; [reflexivity|].
      rewrite (existsb_none is_intake_event is_post evs1) by (assumption || by_kind).
      split; [reflexivity|]. right. right.
      rewrite (existsb_none is_intake_event is_survivors_line evs1)
        by (assumption || by_kind).
      split; [reflexivity|]. split; [reflexivity|exact Hall].
    + rewrite send_loop_unbound in Hrun.
      pose proof (intake_no_post name url body evs_p
                    (length (new_items st (parsed feed))) (length (parsed feed))
                    Hbody Hp) as [Hpost _].
      pose proof (intake_survivors name url body evs_p
                    (length (new_items st (parsed feed))) (length (parsed feed))
                    Hbody Hp) as Hsurv.
      pose proof (intake_download_ok name url body evs_p
                    (length (new_items st (parsed feed))) (length (parsed feed))
                    Hbody Hp) as Hok.
      destruct (new_items st (parsed feed)) as [|item items] eqn:Hnew.
      * rewrite (bind_returns _ _ _ _ _ Hrun).
        destruct (IH (extend st (intake name url body evs_p
                                   (length (@nil Item)) (length (parsed feed)))))
          as (r & evs & -> & Hpost' & Hr).
        rewrite extend_extend. eexists r, _. split; [reflexivity|].
        rewrite existsb_app, Hpost, Hpost'. split; [reflexivity|].
        rewrite existsb_app, Hsurv, count_events_app, Hok.
        rewrite lookups_answered_app, Hall. cbn [length orb andb].
        cbn [trace extend] in Hr.
        destruct r as [[]|e].
        -- destruct Hr as (Hs & Hc & Ha). split; [exact Hs|]. split; [lia|exact Ha].
        -- destruct Hr as [[-> Hs]|[(-> & Hs & Hc)|(-> & Hs & Ha)]].
           ++ left. split; [reflexivity|exact Hs].
           ++ right. left. split; [reflexivity|]. split; [exact Hs|]. lia.
           ++ right. right. split; [reflexivity|]. split; [exact Hs|exact Ha].
      * rewrite (bind_raises _ _ _ _ _ Hrun).
        eexists _, _. split; [reflexivity|]. split; [exact Hpost|].
        left. split; [reflexivity|exact Hsurv].
Qed.

Lemma main_as_written (st : State) :
  exists r evs,
    main E G st = (r, extend st evs)
    /\ existsb is_post evs = false
    /\ match r with
       | Ret _ =>
           existsb is_survivors_line evs = false
           /\ count_events is_download_ok evs = length (CONFIGS G)
           /\ lookups_answered E (trace st) evs = true
       | Raise e =>
           (e = NameError "rss_author" /\ existsb is_survivors_line evs = true)
           \/ (e = DownloadFailed
               /\ existsb is_survivors_line evs = false
               /\ (count_events is_download_ok evs < length (CONFIGS G))%nat)
           \/ (e = TransportError
               /\ existsb is_survivors_line evs = false
               /\ lookups_answered E (trace st) evs = false)
       end.
Proof.
  unfold main. run.
  destruct (sources_loop_as_written (rss_url_generator G)
              (extend st [Log INFO AppStart]))
    as (r & evs & Hrun & Hpost & Hr).
  rewrite extend_extend in Hrun. cbn [app] in Hrun.
  unfold rss_url_generator in Hr at 1 2. rewrite length_map in Hr.
  cbn [trace extend] in Hr.
  destruct r as [[]|e].
  - rewrite (bind_returns _ _ _ _ _ Hrun). run.
    eexists (Ret tt), _. split; [reflexivity|].
    change (Log INFO AppStart :: evs ++ [Log INFO AppEnd])
      with ([Log INFO AppStart] ++ evs ++ [Log INFO AppEnd]).
    rewrite !existsb_app, !count_events_app, !lookups_answered_app, Hpost.
    destruct Hr as (-> & -> & ->). split; [reflexivity|]. split; [reflexivity|].
    change (count_events is_download_ok [Log INFO AppStart]) with 0%nat.
    change (count_events is_download_ok [Log INFO AppEnd]) with 0%nat.
    split; [lia|reflexivity].
  - rewrite (bind_raises _ _ _ _ _ Hrun).
    eexists (Raise e), _. split; [reflexivity|].
    change (Log INFO AppStart :: evs) with ([Log INFO AppStart] ++ evs).
    rewrite !existsb_app, !count_events_app, !lookups_answered_app, Hpost.
    split; [reflexivity|].
    change (count_events is_download_ok [Log INFO AppStart]) with 0%nat.
    exact Hr.
Qed.

(** C3, as the program has it.  In the module as written, a pass whose
    log says that at least one item was left after the filter ends with the
    unhandled [NameError] for [rss_author], and has posted nothing.  A pass
    in which no item was left and the download of every configured artist
    succeeded returns normally when every lookup of the store was answered,
    and ends with the exception of the lookup that raised otherwise. *)
Theorem unbound_rss_author_stops_delivery (st st' : State)
    (r : res unit) (evs : list Event) :
  main E G st = (r, st') ->
  trace st' = trace st ++ evs ->
  (existsb is_survivors_line evs = true ->
   r = Raise (NameError "rss_author") /\ existsb is_post evs = false)
  /\ (existsb is_survivors_line evs = false ->
      count_events is_download_ok evs = length (CONFIGS G) ->
      if lookups_answered E (trace st) evs
      then r = Ret tt
      else r = Raise TransportError).
Proof.
  intros Hmain Htrace.
  destruct (main_as_written st) as (r0 & evs0 & Hrun & Hpost & Hr).
  rewrite Hrun in Hmain. injection Hmain as <- <-.
  cbn [trace extend] in Htrace. apply app_inv_head in Htrace. subst evs0.
  split.
  - intros Hs. destruct r0 as [[]|e].
    + destruct Hr as [Hs' _]. congruence.
    + destruct Hr as [[-> _]|[(_ & Hs' & _)|(_ & Hs' & _)]]; [auto|congruence..].
  - intros Hs Hc. destruct r0 as [[]|e].
    + destruct Hr as (_ & _ & ->). reflexivity.
    + destruct Hr as [[_ Hs']|[(_ & _ & Hlt)|(-> & _ & ->)]];
        [congruence|lia|reflexivity].
Qed.

End AsWritten.

(** ** A pass over feeds whose albums the store knows *)


Section KnownAlbums.

(** The state at the start of the pass: its store has every album of every
    feed the source can serve. *)
Variable st : State.

Hypothesis Hknown :
  forall h url feed item,
    http_get E h url = GetParsed (Some feed) ->
    In item (parsed feed) -> is_Some (redis st !! album_id item).



End KnownAlbums.

(** ** The order of sending and committing *)

Lemma latest_outcome_app (latest : option Event) (a b : list Event) :
  latest_outcome latest (a ++ b) = latest_outcome (latest_outcome latest a) b.
Proof. unfold latest_outcome. apply fold_left_app. Qed.

Lemma commits_in_order_app (latest : option Event) (a b : list Event) :
  commits_in_order latest (a ++ b)
  = commits_in_order latest a && commits_in_order (latest_outcome latest a) b.
Proof.
  revert latest. induction a as [|e a IH]; intros latest; [reflexivity|].
  cbn [app commits_in_order]. rewrite IH, andb_assoc. reflexivity.
Qed.

Lemma commits_without_commit (latest : option Event) (evs : list Event) :
  forallb (fun e => negb (is_commit_event e)) evs = true ->
  commits_in_order latest evs = true.
Proof.
  revert latest. induction evs as [|e evs IH]; intros latest; [reflexivity|].
  cbn [forallb commits_in_order]. intros [He Hevs]%andb_prop.
  apply negb_true_iff in He. rewrite He. apply IH. exact Hevs.
Qed.

Lemma commits_after_ok (t aid : str) (body tail : list Event) :
  forallb is_commit_body body = true ->
  commits_in_order (Some (Log INFO (SendOk t aid))) (body ++ tail)
  = commits_in_order (Some (Log INFO (SendOk t aid))) tail.
Proof.
  induction body as [|e body IH]; [reflexivity|].
  cbn [forallb app commits_in_order]. intros [He Hbody]%andb_prop.
  rewrite <- (IH Hbody).
  destruct e as [[] [] | | | | |]; simpl in He; try discriminate; reflexivity.
Qed.

Lemma commits_in_order_at (latest : option Event) (pre : list Event) (e : Event)
    (post : list Event) :
  commits_in_order latest (pre ++ e :: post) = true ->
  is_commit_event e = true ->
  commit_allowed (latest_outcome latest pre) e = true.
Proof.
  rewrite commits_in_order_app. intros [_ H]%andb_prop He.
  cbn [commits_in_order] in H. rewrite He in H.
  apply andb_prop in H as [H _]. exact H.
Qed.

Lemma commit_allowed_inv (latest : option Event) (e : Event) :
  commit_allowed latest e = true ->
  exists t aid,
    latest = Some (Log INFO (SendOk t aid))
    /\ forall a, e = Log INFO (SetOk a) \/ e = Log INFO (SetGiveUp a) -> a = aid.
Proof.
  destruct latest as [[[] [] | | | | |]|]; simpl; try discriminate.
  intros H. eexists _, _. split; [reflexivity|].
  intros a [->| ->]; apply bool_decide_eq_true in H; exact H.
Qed.

Lemma orderly_refl (st : State) : orderly st st.
Proof.
  exists []. split; [rewrite app_nil_r; reflexivity|]. split; reflexivity.
Qed.

Lemma orderly_trans (a b c : State) : orderly a b -> orderly b c -> orderly a c.
Proof.
  intros (e1 & Ht1 & Hc1 & Hw1) (e2 & Ht2 & Hc2 & Hw2). exists (e1 ++ e2).
  split; [rewrite Ht2, Ht1, app_assoc; reflexivity|]. split.
  - intros latest. rewrite commits_in_order_app, Hc1, Hc2. reflexivity.
  - intros k Hk. rewrite Hw2, Hw1; [reflexivity| |];
      intros v ex Hin; apply (Hk v ex); apply in_or_app; auto.
Qed.

Lemma orderly_extend (st : State) (evs : list Event) :
  forallb (fun e => negb (is_commit_event e)) evs = true ->
  orderly st (extend st evs).
Proof.
  intros H. exists evs. split; [reflexivity|]. split.
  - intros latest. apply commits_without_commit. exact H.
  - reflexivity.
Qed.

Lemma send_events_quiet (item : Item) (target : str) (params : list (str * str))
    (mid : list Event) (sent : bool) :
  forallb is_send_detail mid = true ->
  forallb (fun e => negb (is_commit_event e))
    (Log INFO (SendAlbum (title item) (album_id item))
     :: HttpPost target params :: mid ++ [send_closing item sent]) = true.
Proof.
  intros Hmid. cbn [forallb is_commit_event negb andb]. rewrite forallb_app.
  rewrite (forallb_weaken is_send_detail _ mid) by (assumption || by_kind).
  destruct sent; reflexivity.
Qed.

Lemma send_loop_orderly (items : list Item)
    (st st' : State) (r : res unit) :
  send_loop E G items st = (r, st') -> orderly st st'.
Proof.
  revert st. induction items as [|item items IH]; intros st.
  - intros [= _ <-]. apply orderly_refl.
  - cbn [send_loop]. unfold construct_params. cbn iota.
    unfold load_name, configs_get.
    destruct (rss_author G) as [name|]; run;
      [|intros [= _ <-]; apply orderly_refl].
    destruct (List.find _ (CONFIGS G)) as [p|]; run;
      [|intros [= _ <-]; apply orderly_refl].
    destruct (send_spec (snd p) (cover item)
                (cp "\#" ++ album_id item ++ [newline] ++ cp "*"
                 ++ escape (title item) ++ cp "*" ++ [newline] ++ [newline]
                 ++ escape (author item) ++ [newline] ++ [newline]
                 ++ escape (link item)) item st)
      as (sent & target & params & mid & Hsend & Hmid).
    rewrite (bind_returns _ _ _ _ _ Hsend).
    pose proof (send_events_quiet item target params mid sent Hmid) as Hquiet.
    destruct sent.
    + rewrite bind_bind. unfold redis_set.
      destruct (redis_set_loop_spec (album_id item) (seq 0 5)
                  (extend st (Log INFO (SendAlbum (title item) (album_id item))
                              :: HttpPost target params
                              :: mid ++ [send_closing item true])))
        as (done & st2 & body & Hrs & Htr & Hcls & _ & _ & _ & _ & Hw).
      rewrite (bind_returns _ _ _ _ _ Hrs). run. intros Hrest.
      apply IH in Hrest. refine (orderly_trans _ _ _ _ Hrest).
      exists ((Log INFO (SendAlbum (title item) (album_id item))
               :: HttpPost target params :: mid ++ [send_closing item true])
              ++ body ++ [commit_closing (album_id item) done; Sleep 10]).
      split; [|split].
      * cbn [trace extend]. rewrite Htr. cbn [trace extend].
        rewrite <- !app_assoc. reflexivity.
      * intros latest. rewrite commits_in_order_app.
        rewrite (commits_without_commit _ _ Hquiet). cbn [andb].
        replace (latest_outcome latest
                   (Log INFO (SendAlbum (title item) (album_id item))
                    :: HttpPost target params :: mid ++ [send_closing item true]))
          with (Some (Log INFO (SendOk (title item) (album_id item)))).
        2:{ change (Log INFO (SendAlbum (title item) (album_id item))
                    :: HttpPost target params :: mid ++ [send_closing item true])
              with ((Log INFO (SendAlbum (title item) (album_id item))
                     :: HttpPost target params :: mid) ++ [send_closing item true]).
            rewrite latest_outcome_app. reflexivity. }
        rewrite (commits_after_ok _ _ _ _ Hcls).
        destruct done; cbn; rewrite bool_decide_eq_true_2; reflexivity.
      * intros k Hk. cbn [redis extend]. rewrite Hw; [reflexivity|].
        intros v ex Hin. apply (Hk v ex). apply in_or_app. right.
        apply in_or_app. left. exact Hin.
    + run. intros Hrest. apply IH in Hrest.
      refine (orderly_trans _ _ _ _ Hrest). apply orderly_extend. exact Hquiet.
Qed.

Lemma intake_quiet (name url : str) (body evs_p : list Event) (k n : nat) :
  forallb is_download_body body = true ->
  forallb is_sift_event evs_p = true ->
  forallb (fun e => negb (is_commit_event e)) (intake name url body evs_p k n) = true.
Proof.
  intros Hb Hp. unfold intake. cbn [forallb is_commit_event negb andb].
  rewrite forallb_app. cbn [forallb is_commit_event negb andb].
  rewrite forallb_app.
  rewrite (forallb_weaken is_download_body _ body) by (assumption || by_kind).
  rewrite (forallb_weaken is_sift_event _ evs_p) by (assumption || by_kind).
  reflexivity.
Qed.

Lemma sources_loop_orderly (srcs : list (str * str))
    (st st' : State) (r : res unit) :
  sources_loop E G srcs st = (r, st') -> orderly st st'.
Proof.
  revert st. induction srcs as [|[name url] srcs IH]; intros st.
  - intros [= _ <-]. apply orderly_refl.
  - cbn [sources_loop].
    destruct (one_source_run name url st)
      as [(body & Hbody & _ & Hrun)
         |[(feed & h & evs1 & _ & Hkind & _ & _ & _ & Hrun)
          |(feed & h & body & evs_p & _ & Hbody & Hp & _ & Hrun)]].
    + rewrite (bind_raises _ _ _ _ _ Hrun). intros [= _ <-].
      apply orderly_extend. cbn [forallb is_commit_event negb andb].
      apply (forallb_weaken is_download_body); [by_kind|exact Hbody].
    + rewrite (bind_raises _ _ _ _ _ Hrun). intros [= _ <-].
      apply orderly_extend.
      apply (forallb_weaken is_intake_event); [by_kind|exact Hkind].
    + unfold bind. rewrite Hrun.
      destruct (send_loop E G _ _) as [[[]|e] st1] eqn:Hloop.
      * intros Hrest. apply IH in Hrest. apply send_loop_orderly in Hloop.
        refine (orderly_trans _ _ _ _ Hrest).
        refine (orderly_trans _ _ _ _ Hloop).
        apply orderly_extend. apply intake_quiet; assumption.
      * intros [= _ <-]. apply send_loop_orderly in Hloop.
        refine (orderly_trans _ _ _ _ Hloop).
        apply orderly_extend. apply intake_quiet; assumption.
Qed.

Lemma main_orderly (st st' : State) (r : res unit) :
  main E G st = (r, st') -> orderly st st'.
Proof.
  unfold main. run. unfold bind.
  destruct (sources_loop E G _ _) as [[[]|e] st1] eqn:Hloop;
    apply sources_loop_orderly in Hloop.
  - rewrite log_run. intros [= _ <-].
    eapply orderly_trans; [apply (orderly_extend st [Log INFO AppStart]); reflexivity|].
    eapply orderly_trans; [exact Hloop|]. apply orderly_extend. reflexivity.
  - intros [= _ <-].
    eapply orderly_trans; [apply (orderly_extend st [Log INFO AppStart]); reflexivity|].
    exact Hloop.
Qed.

Section NoKey.

(** [main.py] binds [rj_code] nowhere. *)
Hypothesis Hkey : rj_code G = None.

Lemma send_loop_store (items : list Item) (st st' : State) (r : res unit) :
  send_loop E G items st = (r, st') -> redis st' = redis st.
Proof.
  revert st. induction items as [|item items IH]; intros st.
  - intros [= _ <-]. reflexivity.
  - cbn [send_loop]. unfold construct_params. cbn iota.
    unfold load_name, configs_get.
    destruct (rss_author G) as [name|]; run; [|intros [= _ <-]; reflexivity].
    destruct (List.find _ (CONFIGS G)) as [p|]; run;
      [|intros [= _ <-]; reflexivity].
    destruct (send_spec (snd p) (cover item)
                (cp "\#" ++ album_id item ++ [newline] ++ cp "*"
                 ++ escape (title item) ++ cp "*" ++ [newline] ++ [newline]
                 ++ escape (author item) ++ [newline] ++ [newline]
                 ++ escape (link item)) item st)
      as (sent & target & params & mid & Hsend & _).
    rewrite (bind_returns _ _ _ _ _ Hsend). destruct sent.
    + rewrite bind_bind. unfold redis_set.
      destruct (redis_set_loop_spec (album_id item) (seq 0 5)
                  (extend st (Log INFO (SendAlbum (title item) (album_id item))
                              :: HttpPost target params
                              :: mid ++ [send_closing item true])))
        as (done & st2 & body & Hrs & _ & _ & _ & _ & _ & Hst & _).
      rewrite Hkey in Hst. destruct Hst as (Hredis & _ & _).
      rewrite (bind_returns _ _ _ _ _ Hrs). run. intros Hrest.
      apply IH in Hrest. rewrite Hrest. exact Hredis.
    + run. intros Hrest. apply IH in Hrest. exact Hrest.
Qed.

Lemma sources_loop_store (srcs : list (str * str)) (st st' : State) (r : res unit) :
  sources_loop E G srcs st = (r, st') -> redis st' = redis st.
Proof.
  revert st. induction srcs as [|[name url] srcs IH]; intros st.
  - intros [= _ <-]. reflexivity.
  - cbn [sources_loop].
    destruct (one_source_run name url st)
      as [(body & _ & _ & Hrun)
         |[(feed & h & evs1 & _ & _ & _ & _ & _ & Hrun)
          |(feed & h & body & evs_p & _ & _ & _ & _ & Hrun)]].
    + rewrite (bind_raises _ _ _ _ _ Hrun). intros [= _ <-]. reflexivity.
    + rewrite (bind_raises _ _ _ _ _ Hrun). intros [= _ <-]. reflexivity.
    + unfold bind. rewrite Hrun.
      destruct (send_loop E G _ _) as [[[]|e] st1] eqn:Hloop;
        apply send_loop_store in Hloop.
      * intros Hrest. apply IH in Hrest. rewrite Hrest. exact Hloop.
      * intros [= _ <-]. exact Hloop.
Qed.

Lemma main_store (st st' : State) (r : res unit) :
  main E G st = (r, st') -> redis st' = redis st.
Proof.
  unfold main. run. unfold bind.
  destruct (sources_loop E G _ _) as [[[]|e] st1] eqn:Hloop;
    apply sources_loop_store in Hloop.
  - rewrite log_run. intros [= _ <-]. exact Hloop.
  - intros [= _ <-]. exact Hloop.
Qed.

End NoKey.

(** C9. In every pass, whatever [rss_author] and [rj_code] are bound to:
    an event of the commit step (an attempt line, a call of [REDIS.set], a
    retry line, the closing line of [redis_set]) comes only when the latest
    result line of [send] in the trace is "Succeed to send album", and the
    closing line of [redis_set] names the album of that line; the event
    that follows a "Failed to send album" line is never one of the commit
    step; a key for which [REDIS.set] was not called is in the store after
    the pass exactly as before; and in the module as written, with
    [rj_code] unbound, the whole store is as before. *)
Theorem commit_only_after_successful_send (st st' : State)
    (r : res unit) (evs : list Event) :
  main E G st = (r, st') ->
  trace st' = trace st ++ evs ->
  (forall pre e post,
     evs = pre ++ e :: post ->
     is_commit_event e = true ->
     exists t aid,
       latest_outcome None pre = Some (Log INFO (SendOk t aid))
       /\ forall a, e = Log INFO (SetOk a) \/ e = Log INFO (SetGiveUp a) -> a = aid)
  /\ (forall pre t aid e post,
        evs = pre ++ Log ERROR (SendFailed t aid) :: e :: post ->
        is_commit_event e = false)
  /\ (forall k, (forall v ex, ~ In (RedisSet k v ex) evs) ->
                redis st' !! k = redis st !! k)
  /\ (rj_code G = None -> redis st' = redis st).
Proof.
  intros Hmain Htrace.
  destruct (main_orderly st st' r Hmain) as (evs0 & Htr & Hord & Hw).
  rewrite Htr in Htrace. apply app_inv_head in Htrace. subst evs0.
  assert (Hat : forall pre e post,
             evs = pre ++ e :: post ->
             is_commit_event e = true ->
             exists t aid,
               latest_outcome None pre = Some (Log INFO (SendOk t aid))
               /\ forall a, e = Log INFO (SetOk a) \/ e = Log INFO (SetGiveUp a)
                            -> a = aid).
  { intros pre e post -> He. apply commit_allowed_inv.
    eapply commits_in_order_at; [apply Hord|exact He]. }
  split; [exact Hat|]. split; [|split; [exact Hw|]].
  2:{ intros Hkey. exact (main_store Hkey st st' r Hmain). }
  intros pre t aid e post Hevs.
  destruct (is_commit_event e) eqn:He; [|reflexivity]. exfalso.
  destruct (Hat (pre ++ [Log ERROR (SendFailed t aid)]) e post) as (t' & aid' & Hl & _).
  - rewrite Hevs, <- app_assoc. reflexivity.
  - exact He.
  - rewrite latest_outcome_app in Hl. discriminate Hl.
Qed.

End Pass.

(** ** The module as written, on the sample data *)

Example sample_feed_parsed : parsed sample_feed = [sample_item].
Proof. vm_compute. reflexivity. Qed.

(** C1, at the failing input.  [redis_set('123456789')] on an empty store
    that would accept every write: the global [rj_code] is unbound, so each
    of the five attempts ends in the handler before [REDIS.set] is called;
    the function returns false and the store has no entry for the album.
    The same holds after a whole pass in which the album was delivered
    ([rss_author] bound to a key of [CONFIGS]): one post, acknowledged, and
    the store still empty. *)
Theorem redis_set_loses_the_delivered_album :
  fst (redis_set online one_artist (cp "123456789") empty_state) = Ret false
  /\ count_events is_set_call
       (trace (snd (redis_set online one_artist (cp "123456789") empty_state)))
     = 0%nat
  /\ count_events is_set_attempt
       (trace (snd (redis_set online one_artist (cp "123456789") empty_state)))
     = 5%nat
  /\ fst (REDIS_exists online (cp "123456789")
            (snd (redis_set online one_artist (cp "123456789") empty_state)))
     = Ret false
  /\ fst (main online author_bound empty_state) = Ret tt
  /\ count_events is_post (trace (snd (main online author_bound empty_state)))
     = 1%nat
  /\ latest_outcome None (trace (snd (main online author_bound empty_state)))
     = Some (Log INFO (SendOk (cp "A") (cp "123456789")))
  /\ fst (REDIS_exists online (cp "123456789")
            (snd (main online author_bound empty_state)))
     = Ret false.
Proof. vm_compute. repeat split. Qed.

(** C7, the claim as stated fails: [escape] leaves a backslash of the text
    as it is, so in the result for a backslash followed by an underscore
    the first backslash takes the second one, and the underscore stands
    unescaped. *)
Lemma escape_leaves_reserved_unescaped :
  escape (cp "\_") = cp "\\_"
  /\ bare_reserved false (escape (cp "\_")) = true.
Proof. vm_compute. repeat split. Qed.

Lemma escape_round_trip_witness :
  existsb (N.eqb backslash) (cp "a_b.c") = false
  /\ escape (cp "a_b.c") = cp "a\_b\.c"
  /\ bare_reserved false (escape (cp "a_b.c")) = false.
Proof.
  assert (H : existsb (N.eqb backslash) (cp "a_b.c") = false)
    by (vm_compute; reflexivity).
  split; [exact H|]. split; [vm_compute; reflexivity|].
  exact (proj2 (proj2 (proj2 (escape_round_trip (cp "a_b.c")))) H).
Defined.

(** C2, the claim as stated fails: with two artists configured and the
    feed of the first one down, the pass makes its three requests for the
    first feed, none for the second, and ends with the exception of
    [download] and exit status 1. *)
Lemma failed_download_is_not_skipped :
  fst (main first_down two_artists empty_state) = Raise DownloadFailed
  /\ exit_status (fst (main first_down two_artists empty_state)) = 1%Z
  /\ count_events (is_get_of (rss_url (cp "1")))
       (trace (snd (main first_down two_artists empty_state))) = 3%nat
  /\ count_events (is_get_of (rss_url (cp "2")))
       (trace (snd (main first_down two_artists empty_state))) = 0%nat.
Proof. vm_compute. repeat split. Qed.

Lemma failed_download_ends_the_pass_witness :
  CONFIGS two_artists = [(cp "first", cp "1")] ++ (cp "second", cp "2") :: []
  /\ sources_loop second_down two_artists
       (List.map (fun kv => (fst kv, rss_url (snd kv))) [(cp "first", cp "1")])
       (extend empty_state [Log INFO AppStart]) = (Ret tt, after_first_artist)
  /\ download second_down (rss_url (cp "2"))
       (extend after_first_artist
          [Log INFO (Source (cp "second") (rss_url (cp "2")))])
     = (Raise DownloadFailed, at_failed_download)
  /\ main second_down two_artists empty_state = (Raise DownloadFailed, at_failed_download)
  /\ DownloadFailed = DownloadFailed
  /\ exit_status (fst (main second_down two_artists empty_state)) = 1%Z.
Proof.
  assert (H1 : CONFIGS two_artists
               = [(cp "first", cp "1")] ++ (cp "second", cp "2") :: [])
    by reflexivity.
  assert (H2 : sources_loop second_down two_artists
                 (List.map (fun kv => (fst kv, rss_url (snd kv)))
                    [(cp "first", cp "1")])
                 (extend empty_state [Log INFO AppStart])
               = (Ret tt, after_first_artist))
    by (vm_compute; reflexivity).
  assert (H3 : download second_down (rss_url (cp "2"))
                 (extend after_first_artist
                    [Log INFO (Source (cp "second") (rss_url (cp "2")))])
               = (Raise DownloadFailed, at_failed_download))
    by (vm_compute; reflexivity).
  split; [exact H1|]. split; [exact H2|]. split; [exact H3|].
  exact (failed_download_ends_the_pass second_down two_artists empty_state
           after_first_artist at_failed_download [(cp "first", cp "1")] []
           (cp "second") (cp "2") DownloadFailed H1 H2 H3).
Defined.

(** C3, the claim as stated fails: with the feed source down no item is
    left after the filter, none was even parsed, and yet the pass does not
    return: it ends with the exception of [download]. *)
Lemma pass_without_survivors_can_fail :
  existsb is_survivors_line (trace (snd (main offline one_artist empty_state))) = false
  /\ fst (main offline one_artist empty_state) = Raise DownloadFailed
  /\ fst (main offline one_artist empty_state) <> Ret tt.
Proof. vm_compute. repeat split. discriminate. Qed.

Lemma unbound_rss_author_stops_delivery_witness :
  rss_author one_artist = None
  /\ (main online one_artist empty_state = (fst pass_as_written, snd pass_as_written)
      /\ existsb is_survivors_line (trace (snd pass_as_written)) = true
      /\ fst pass_as_written = Raise (NameError "rss_author")
      /\ existsb is_post (trace (snd pass_as_written)) = false)
  /\ (main online one_artist state_with_sample
      = (fst pass_as_written_known, snd pass_as_written_known)
      /\ existsb is_survivors_line (trace (snd pass_as_written_known)) = false
      /\ count_events is_download_ok (trace (snd pass_as_written_known))
         = length (CONFIGS one_artist)
      /\ lookups_answered online (trace state_with_sample)
           (trace (snd pass_as_written_known)) = true
      /\ fst pass_as_written_known = Ret tt)
  /\ (main store_down one_artist empty_state
      = (fst pass_store_down, snd pass_store_down)
      /\ existsb is_survivors_line (trace (snd pass_store_down)) = false
      /\ count_events is_download_ok (trace (snd pass_store_down))
         = length (CONFIGS one_artist)
      /\ lookups_answered store_down (trace empty_state) (trace (snd pass_store_down))
         = false
      /\ fst pass_store_down = Raise TransportError).
Proof.
  assert (H0 : rss_author one_artist = None) by reflexivity.
  split; [exact H0|]. split; [|split].
  - assert (H1 : main online one_artist empty_state
                 = (fst pass_as_written, snd pass_as_written))
      by (vm_compute; reflexivity).
    assert (H2 : trace (snd pass_as_written)
                 = trace empty_state ++ trace (snd pass_as_written)) by reflexivity.
    assert (H3 : existsb is_survivors_line (trace (snd pass_as_written)) = true)
      by (vm_compute; reflexivity).
    split; [exact H1|]. split; [exact H3|].
    exact (proj1 (unbound_rss_author_stops_delivery online one_artist H0 empty_state
                    (snd pass_as_written) (fst pass_as_written)
                    (trace (snd pass_as_written)) H1 H2) H3).
  - assert (H1 : main online one_artist state_with_sample
                 = (fst pass_as_written_known, snd pass_as_written_known))
      by (vm_compute; reflexivity).
    assert (H2 : trace (snd pass_as_written_known)
                 = trace state_with_sample ++ trace (snd pass_as_written_known))
      by reflexivity.
    assert (H3 : existsb is_survivors_line (trace (snd pass_as_written_known)) = false)
      by (vm_compute; reflexivity).
    assert (H4 : count_events is_download_ok (trace (snd pass_as_written_known))
                 = length (CONFIGS one_artist)) by (vm_compute; reflexivity).
    assert (H5 : lookups_answered online (trace state_with_sample)
                   (trace (snd pass_as_written_known)) = true)
      by (vm_compute; reflexivity).
    split; [exact H1|]. split; [exact H3|]. split; [exact H4|]. split; [exact H5|].
    pose proof (proj2 (unbound_rss_author_stops_delivery online one_artist H0
                         state_with_sample (snd pass_as_written_known)
                         (fst pass_as_written_known)
                         (trace (snd pass_as_written_known)) H1 H2) H3 H4) as H.
    rewrite H5 in H. exact H.
  - assert (H1 : main store_down one_artist empty_state
                 = (fst pass_store_down, snd pass_store_down))
      by (vm_compute; reflexivity).
    assert (H2 : trace (snd pass_store_down)
                 = trace empty_state ++ trace (snd pass_store_down)) by reflexivity.
    assert (H3 : existsb is_survivors_line (trace (snd pass_store_down)) = false)
      by (vm_compute; reflexivity).
    assert (H4 : count_events is_download_ok (trace (snd pass_store_down))
                 = length (CONFIGS one_artist)) by (vm_compute; reflexivity).
    assert (H5 : lookups_answered store_down (trace empty_state)
                   (trace (snd pass_store_down)) = false)
      by (vm_compute; reflexivity).
    split; [exact H1|]. split; [exact H3|]. split; [exact H4|]. split; [exact H5|].
    pose proof (proj2 (unbound_rss_author_stops_delivery store_down one_artist H0
                         empty_state (snd pass_store_down) (fst pass_store_down)
                         (trace (snd pass_store_down)) H1 H2) H3 H4) as H.
    rewrite H5 in H. exact H.
Defined.


Lemma commit_only_after_successful_send_witness :
  main online names_bound empty_state = (fst pass_names_bound, snd pass_names_bound)
  /\ trace (snd pass_names_bound) = trace empty_state ++ trace (snd pass_names_bound)
  /\ count_events is_set_call (trace (snd pass_names_bound)) = 1%nat
  /\ (forall pre e post,
        trace (snd pass_names_bound) = pre ++ e :: post ->
        is_commit_event e = true ->
        exists t aid,
          latest_outcome None pre = Some (Log INFO (SendOk t aid))
          /\ forall a, e = Log INFO (SetOk a) \/ e = Log INFO (SetGiveUp a) -> a = aid)
  /\ (forall pre t aid e post,
        trace (snd pass_names_bound)
        = pre ++ Log ERROR (SendFailed t aid) :: e :: post ->
        is_commit_event e = false)
  /\ (forall k, (forall v ex, ~ In (RedisSet k v ex) (trace (snd pass_names_bound))) ->
                redis (snd pass_names_bound) !! k = redis empty_state !! k)
  /\ (rj_code names_bound = None -> redis (snd pass_names_bound) = redis empty_state).
Proof.
  assert (H1 : main online names_bound empty_state
               = (fst pass_names_bound, snd pass_names_bound))
    by (vm_compute; reflexivity).
  assert (H2 : trace (snd pass_names_bound)
               = trace empty_state ++ trace (snd pass_names_bound))
    by reflexivity.
  split; [exact H1|]. split; [exact H2|]. split; [vm_compute; reflexivity|].
  exact (commit_only_after_successful_send online names_bound empty_state
           (snd pass_names_bound) (fst pass_names_bound)
           (trace (snd pass_names_bound)) H1 H2).
Defined.

Lemma parsed_items_take_photo_branch_witness :
  parse sample_feed empty_state = (Ret [sample_item], snd (parse sample_feed empty_state))
  /\ In sample_item [sample_item]
  /\ (25 <= length (cover sample_item))%nat
  /\ starts_with (cp "https://p1") (cover sample_item) = true
  /\ fst (fst (construct_params sample_item)) = cover sample_item
  /\ send_photo_url one_artist <> send_message_url one_artist
  /\ forall chat caption st1,
       exists sent logs,
         send online one_artist chat (cover sample_item) caption sample_item st1
         = (Ret sent,
            extend st1
              (Log INFO (SendAlbum (title sample_item) (album_id sample_item))
               :: HttpPost (send_photo_url one_artist)
                    [(cp "chat_id", chat); (cp "photo", cover sample_item);
                     (cp "caption", caption)]
               :: logs))
         /\ forallb is_log logs = true.
Proof.
  assert (H1 : parse sample_feed empty_state
               = (Ret [sample_item], snd (parse sample_feed empty_state)))
    by (vm_compute; reflexivity).
  assert (H2 : In sample_item [sample_item]) by (left; reflexivity).
  split; [exact H1|]. split; [exact H2|].
  exact (parsed_items_take_photo_branch online one_artist sample_feed empty_state
           (snd (parse sample_feed empty_state)) [sample_item] sample_item H1 H2).
Defined.

(** * Further properties *)

(** ** [escape] *)

(** X1. Escaping a text in pieces and joining the results is escaping the
    whole text. *)
Theorem escape_app (a b : str) : escape (a ++ b) = escape a ++ escape b.
Proof. rewrite !escape_one_pass. apply flat_map_app. Qed.

Lemma escaped_length (text : str) :
  length (flat_map escape_char text)
  = (length text + length (List.filter reserved text))%nat.
Proof.
  induction text as [|x t IH]; [reflexivity|].
  cbn [flat_map List.filter]. rewrite length_app, IH. unfold escape_char.
  destruct (reserved x); cbn [length]; lia.
Qed.

(** X2. [escape] lengthens a text by exactly the number of its reserved
    characters, so never to more than twice its length. *)
Theorem escape_length (text : str) :
  length (escape text) = (length text + length (List.filter reserved text))%nat
  /\ (length (escape text) <= 2 * length text)%nat.
Proof.
  rewrite escape_one_pass, escaped_length. split; [reflexivity|].
  pose proof (List.filter_length_le reserved text). lia.
Qed.

Lemma filter_nil_existsb {A} (f : A -> bool) (l : list A) :
  List.filter f l = [] <-> existsb f l = false.
Proof.
  induction l as [|x l IH]; [split; reflexivity|]. cbn [List.filter existsb].
  destruct (f x); cbn [orb]; [split; discriminate|exact IH].
Qed.

Lemma escaped_plain (text : str) :
  existsb reserved text = false -> flat_map escape_char text = text.
Proof.
  induction text as [|x t IH]; [reflexivity|].
  cbn [existsb flat_map]. intros [Hx Ht]%orb_false_elim.
  unfold escape_char at 1. rewrite Hx, (IH Ht). reflexivity.
Qed.

(** X3. [escape] returns a text unchanged exactly when the text has no
    reserved character. *)
Theorem escape_fixes_plain_text (text : str) :
  escape text = text <-> existsb reserved text = false.
Proof.
  split.
  - intros H. apply filter_nil_existsb.
    pose proof (escaped_length text) as Hlen.
    rewrite <- escape_one_pass, H in Hlen.
    destruct (List.filter reserved text); [reflexivity|simpl in Hlen; lia].
  - rewrite escape_one_pass. apply escaped_plain.
Qed.

(** ** The patterns of [parse] *)

Lemma take_upto_spec (f : N -> bool) (n : nat) (s : str) :
  exists rest,
    s = take_upto f n s ++ rest
    /\ forallb f (take_upto f n s) = true
    /\ (length (take_upto f n s) <= n)%nat.
Proof.
  revert s. induction n as [|n IH]; intros s.
  - exists s. destruct s; repeat split; simpl; lia.
  - destruct s as [|c s]; [exists []; repeat split; simpl; lia|].
    cbn [take_upto]. destruct (f c) eqn:Hc.
    + destruct (IH s) as (rest & Hs & Hall & Hlen). exists rest.
      cbn [app forallb length]. rewrite Hc, Hall, <- Hs.
      repeat split. lia.
    + exists (c :: s). repeat split. simpl. lia.
Qed.

Lemma take_while_spec (f : N -> bool) (s : str) :
  exists rest,
    s = take_while f s ++ rest
    /\ forallb f (take_while f s) = true
    /\ match rest with
       | [] => True
       | q :: _ => f q = false
       end.
Proof.
  induction s as [|c s IH]; [exists []; repeat split|].
  cbn [take_while]. destruct (f c) eqn:Hc.
  - destruct IH as (rest & Hs & Hall & Hrest). exists rest.
    cbn [app forallb]. rewrite Hc, Hall, <- Hs. repeat split. exact Hrest.
  - exists (c :: s). repeat split. exact Hc.
Qed.

Lemma match_atoms_split (p : list atom) (s m r : str) :
  match_atoms p s = Some (m, r) -> s = m ++ r.
Proof.
  revert s m r. induction p as [|a p IH]; intros s m r H; simpl in H.
  - injection H as <- <-. reflexivity.
  - destruct s as [|c s]; [discriminate|].
    destruct (atom_matches a c); [|discriminate].
    destruct (match_atoms p s) as [[m' r']|] eqn:Hm; [|discriminate].
    injection H as <- <-. cbn [app]. f_equal. eapply IH. exact Hm.
Qed.

(** [re.search] returns the match at some position of the text. *)
Lemma search_position (f : str -> option str) (s m : str) :
  search f s = Some m -> exists pre s', s = pre ++ s' /\ f s' = Some m.
Proof.
  induction s as [|c s IH]; cbn [search]; destruct (f _) eqn:Hf; intros H.
  - injection H as <-. exists [], []. auto.
  - discriminate.
  - injection H as <-. exists [], (c :: s). auto.
  - destruct (IH H) as (pre & s' & -> & Hs'). exists (c :: pre), s'. auto.
Qed.

(** [re.search] returns [None] exactly when no position matches. *)
Lemma search_none (f : str -> option str) (s : str) :
  search f s = None <-> forall pre s', s = pre ++ s' -> f s' = None.
Proof.
  induction s as [|c s IH]; cbn [search].
  - destruct (f []) eqn:Hf; split.
    + discriminate.
    + intros H. rewrite (H [] [] eq_refl) in Hf. discriminate.
    + intros _ pre s' Heq. symmetry in Heq. apply app_eq_nil in Heq as [_ ->].
      exact Hf.
    + reflexivity.
  - destruct (f (c :: s)) eqn:Hf; split.
    + discriminate.
    + intros H. rewrite (H [] (c :: s) eq_refl) in Hf. discriminate.
    + intros Hs pre s' Heq. destruct pre as [|p pre].
      * cbn [app] in Heq. subst s'. exact Hf.
      * cbn [app] in Heq. injection Heq as _ ->.
        apply (proj1 IH Hs pre s' eq_refl).
    + intros H. apply IH. intros pre s' ->. apply (H (c :: pre) s' eq_refl).
Qed.

Lemma album_id_shape (link aid : str) :
  search_album_id link = Some aid ->
  (4 <= length aid <= 15)%nat
  /\ forallb is_decimal aid = true
  /\ exists pre post, link = pre ++ aid ++ post.
Proof.
  intros H. apply search_position in H as (pre & s' & -> & H).
  unfold match_album_id in H.
  destruct (take_upto_spec is_decimal 15 s') as (rest & Hs & Hall & Hlen).
  remember (take_upto is_decimal 15 s') as t eqn:Ht. cbv zeta in H.
  destruct (4 <=? length t)%nat eqn:H4; [|discriminate].
  assert (aid = t) as -> by congruence. apply Nat.leb_le in H4.
  split; [lia|]. split; [exact Hall|]. exists pre, rest. rewrite <- Hs. reflexivity.
Qed.

(** X4. The album id [parse] takes from a link is a run of 4 to 15 decimal
    digits that stands in the link. *)
Theorem album_id_is_a_digit_run (link aid : str) :
  search_album_id link = Some aid ->
  (4 <= length aid <= 15)%nat
  /\ forallb is_decimal aid = true
  /\ exists pre post, link = pre ++ aid ++ post.
Proof. apply album_id_shape. Qed.

Lemma digit_window (f : N -> bool) (s : str) :
  (4 <= length (take_upto f 15 s))%nat
  <-> exists w post, s = w ++ post /\ length w = 4%nat /\ forallb f w = true.
Proof.
  split.
  - intros H4.
    destruct (take_upto_spec f 15 s) as (rest & Hs & Hall & _).
    exists (firstn 4 (take_upto f 15 s)), (skipn 4 (take_upto f 15 s) ++ rest).
    split; [|split].
    + rewrite app_assoc, firstn_skipn. exact Hs.
    + apply firstn_length_le. exact H4.
    + rewrite <- (firstn_skipn 4 (take_upto f 15 s)), forallb_app in Hall.
      apply andb_prop in Hall as [Hall _]. exact Hall.
  - intros (w & post & -> & Hlen & Hall).
    destruct w as [|a [|b [|c [|d [|? ?]]]]]; try discriminate Hlen.
    cbn [forallb] in Hall.
    apply andb_prop in Hall as [Ha Hall]. apply andb_prop in Hall as [Hb Hall].
    apply andb_prop in Hall as [Hc Hall]. apply andb_prop in Hall as [Hd _].
    cbn [app take_upto]. rewrite Ha, Hb, Hc, Hd. cbn [length]. lia.
Qed.

(** X5. An entry is dropped for its link (the search gives [None], on
    which [.group()] raises) exactly when the link has no four consecutive
    decimal digits. *)
Theorem album_id_missing_iff (link : str) :
  search_album_id link = None
  <-> forall pre w post,
        link = pre ++ w ++ post -> length w = 4%nat -> forallb is_decimal w = false.
Proof.
  unfold search_album_id. rewrite search_none. split.
  - intros H pre w post Hlink Hlen.
    specialize (H pre (w ++ post) Hlink). unfold match_album_id in H.
    destruct (4 <=? length (take_upto is_decimal 15 (w ++ post)))%nat eqn:H4;
      [discriminate|].
    apply Nat.leb_gt in H4. destruct (forallb is_decimal w) eqn:Hw; [|reflexivity].
    exfalso. assert (4 <= length (take_upto is_decimal 15 (w ++ post)))%nat; [|lia].
    apply digit_window. exists w, post. auto.
  - intros H pre s' Hlink. unfold match_album_id.
    destruct (4 <=? length (take_upto is_decimal 15 s'))%nat eqn:H4; [|reflexivity].
    apply Nat.leb_le in H4. apply digit_window in H4 as (w & post & -> & Hlen & Hw).
    rewrite (H pre w post Hlink Hlen) in Hw. discriminate.
Qed.

Lemma take_upto_run (f : N -> bool) (n : nat) (ds rest : str) :
  forallb f ds = true ->
  match rest with
  | [] => True
  | c :: _ => f c = false
  end ->
  take_upto f n (ds ++ rest) = firstn n ds.
Proof.
  intros Hds Hrest. revert ds Hds. induction n as [|n IH]; intros ds Hds.
  - destruct (ds ++ rest); reflexivity.
  - destruct ds as [|d ds].
    + cbn [app firstn]. destruct rest as [|c rest]; [reflexivity|].
      cbn [take_upto]. rewrite Hrest. reflexivity.
    + cbn [forallb] in Hds. apply andb_prop in Hds as [Hd Hds].
      cbn [app take_upto firstn]. rewrite Hd, (IH ds Hds). reflexivity.
Qed.

Lemma take_upto_stops (f : N -> bool) (n : nat) (s t : str) :
  existsb (fun c => negb (f c)) s = true ->
  take_upto f n (s ++ t) = take_upto f n s.
Proof.
  revert s. induction n as [|n IH]; intros s Hs.
  - destruct s; [discriminate|reflexivity].
  - destruct s as [|c s]; [discriminate|].
    cbn [app take_upto]. destruct (f c) eqn:Hc; [|reflexivity].
    cbn [existsb] in Hs. rewrite Hc in Hs. cbn [negb orb] in Hs.
    rewrite (IH s Hs). reflexivity.
Qed.

Lemma search_skips (pre tail : str) :
  search match_album_id pre = None ->
  (forall p c, pre = p ++ [c] -> is_decimal c = false) ->
  pre <> [] ->
  search match_album_id (pre ++ tail) = search match_album_id tail.
Proof.
  induction pre as [|c pre IH]; intros Hnone Hlast Hne; [congruence|].
  assert (Hstop : existsb (fun c => negb (is_decimal c)) (c :: pre) = true).
  { destruct (exists_last Hne) as (p & q & Hpq). rewrite Hpq, existsb_app.
    cbn [existsb]. rewrite (Hlast p q Hpq). cbn [negb orb].
    apply orb_true_r. }
  cbn [search] in Hnone.
  destruct (match_album_id (c :: pre)) eqn:Hm; [discriminate|].
  assert (Hm' : match_album_id ((c :: pre) ++ tail) = None).
  { unfold match_album_id in *. rewrite (take_upto_stops _ _ _ _ Hstop). exact Hm. }
  cbn [app] in Hm'. cbn [app search]. rewrite Hm'.
  destruct pre as [|c' pre]; [reflexivity|].
  apply IH; [exact Hnone| |discriminate].
  intros p q Hpq. apply (Hlast (c :: p) q). rewrite Hpq. reflexivity.
Qed.

(** X6. The id is the first run of at least four digits, cut after 15:
    when the part of a link before such a run has no four digits in a row
    and does not end in a digit, the album id is the first 15 digits of the
    run, whatever follows it.  Shorter runs before it, like the 163 of the
    host name, are passed over. *)
Theorem album_id_is_first_run (pre ds rest : str) :
  search_album_id pre = None ->
  match rev pre with
  | [] => True
  | c :: _ => is_decimal c = false
  end ->
  forallb is_decimal ds = true ->
  (4 <= length ds)%nat ->
  match rest with
  | [] => True
  | c :: _ => is_decimal c = false
  end ->
  search_album_id (pre ++ ds ++ rest) = Some (firstn 15 ds).
Proof.
  intros Hpre Hlast Hds Hlen Hrest. unfold search_album_id in *.
  assert (Hrun : search match_album_id (ds ++ rest) = Some (firstn 15 ds)).
  { destruct ds as [|d ds]; [simpl in Hlen; lia|].
    cbn [app search]. unfold match_album_id.
    change (d :: ds ++ rest) with ((d :: ds) ++ rest).
    rewrite (take_upto_run is_decimal 15 (d :: ds) rest Hds Hrest).
    rewrite length_firstn.
    destruct (4 <=? Nat.min 15 (length (d :: ds)))%nat eqn:H4; [reflexivity|].
    apply Nat.leb_gt in H4. lia. }
  destruct pre as [|c pre]; [exact Hrun|].
  rewrite search_skips; [exact Hrun|exact Hpre| |discriminate].
  intros p q Hpq. rewrite Hpq, rev_app_distr in Hlast. exact Hlast.
Qed.

Lemma match_atoms_each (p : list atom) (s m r : str) :
  match_atoms p s = Some (m, r) ->
  Forall2 (fun a c => atom_matches a c = true) p m.
Proof.
  revert s m r. induction p as [|a p IH]; intros s m r H; cbn [match_atoms] in H.
  - injection H as <- _. constructor.
  - destruct s as [|c s]; [discriminate|].
    destruct (atom_matches a c) eqn:Hc; [|discriminate].
    destruct (match_atoms p s) as [[m' r']|] eqn:Hm; [|discriminate].
    injection H as <- _. constructor; [exact Hc|]. eapply IH. exact Hm.
Qed.

(** What the fixed part of the cover pattern matches: the scheme and the
    host of the image server, with any character but a newline where the
    pattern has a dot. *)
Lemma cover_head_match (s m r : str) :
  match_atoms cover_head s = Some (m, r) ->
  exists d1 d2 d3,
    m = cp "https://p1" ++ d1 :: cp "music" ++ d2 :: cp "126" ++ d3 :: cp "net/"
    /\ d1 <> newline /\ d2 <> newline /\ d3 <> newline.
Proof.
  intros H. apply match_atoms_each in H.
  let atoms := eval vm_compute in cover_head in change cover_head with atoms in H.
  repeat match type of H with
         | Forall2 _ (_ :: _) _ =>
             let c := fresh "c" in
             let Hc := fresh "Hc" in
             apply Forall2_cons_inv_l in H as (c & ? & Hc & H & ->);
             cbn [atom_matches] in Hc;
             first [ apply N.eqb_eq in Hc; subst c
                   | apply negb_true_iff, N.eqb_neq in Hc ]
         end.
  apply Forall2_nil_inv_l in H. subst.
  eexists _, _, _. split; [reflexivity|]. auto.
Qed.

(** X7. The cover [parse] takes from a summary stands in the summary.  It
    begins with what the fixed part of the pattern matches, the text
    https://p1.music.126.net/ with any character but a newline in the
    place of each of its three dots, and goes on up to, and not including,
    the next double quote or white space, or up to the end of the
    summary. *)
Theorem cover_is_cut_at_quote_or_space (summary c : str) :
  search_cover summary = Some c ->
  exists pre d1 d2 d3 tail post,
    summary = pre ++ c ++ post
    /\ c = (cp "https://p1" ++ d1 :: cp "music" ++ d2 :: cp "126" ++ d3 :: cp "net/")
           ++ tail
    /\ d1 <> newline /\ d2 <> newline /\ d3 <> newline
    /\ forallb cover_tail tail = true
    /\ match post with
       | [] => True
       | q :: _ => q = dquote \/ is_space q = true
       end.
Proof.
  intros H. apply search_position in H as (pre & s' & -> & H).
  unfold match_cover in H.
  destruct (match_atoms cover_head s') as [[m r]|] eqn:Hm; [|discriminate].
  injection H as <-.
  destruct (take_while_spec cover_tail r) as (post & Hr & Hall & Hpost).
  destruct (cover_head_match _ _ _ Hm) as (d1 & d2 & d3 & Hhead & H1 & H2 & H3).
  exists pre, d1, d2, d3, (take_while cover_tail r), post.
  split; [|split; [rewrite Hhead; reflexivity|]].
  - rewrite (match_atoms_split _ _ _ _ Hm), <- app_assoc, <- Hr. reflexivity.
  - split; [exact H1|]. split; [exact H2|]. split; [exact H3|].
    split; [exact Hall|].
    destruct post as [|q post]; [exact I|]. unfold cover_tail in Hpost.
    apply negb_false_iff, orb_true_iff in Hpost as [Hq|Hq]; [left|right; exact Hq].
    apply N.eqb_eq. exact Hq.
Qed.

(** ** More on [parse] *)

Lemma parse_entry_fields (entry : Entry) (item : Item) (st st' : State) :
  parse_entry entry st = (Ret item, st') ->
  entry !! cp "title" = Some (title item)
  /\ entry !! cp "author" = Some (author item)
  /\ entry !! cp "published" = Some (published item)
  /\ entry !! cp "link" = Some (link item)
  /\ search_album_id (link item) = Some (album_id item)
  /\ exists summary,
       entry !! cp "summary" = Some summary
       /\ search_cover summary = Some (cover item).
Proof.
  unfold parse_entry, bind, getitem, group, log, emit, ret, raise.
  destruct (entry !! cp "title") as [t|]; [|discriminate].
  destruct (entry !! cp "author") as [a|]; [|discriminate].
  destruct (entry !! cp "published") as [p|]; [|discriminate].
  destruct (entry !! cp "link") as [l|]; [|discriminate].
  destruct (search_album_id l) as [aid|] eqn:Hid; [|discriminate].
  destruct (entry !! cp "summary") as [s|]; [|discriminate].
  destruct (search_cover s) as [c|] eqn:Hc; [|discriminate].
  intros [= <- _]. cbn. repeat split; try assumption. exists s. auto.
Qed.

Lemma parse_loop_from_entries (es : list Entry) (acc items : list Item)
    (st st' : State) :
  parse_loop es acc st = (Ret items, st') ->
  forall item,
    In item items ->
    In item acc
    \/ exists entry st0 st1, In entry es /\ parse_entry entry st0 = (Ret item, st1).
Proof.
  revert acc st. induction es as [|entry es IH]; intros acc st.
  - intros [= <- _] item Hin. left. exact Hin.
  - cbn [parse_loop]. rewrite bind_attempt.
    destruct (parse_entry entry st) as [[item0|e] st1] eqn:Hentry.
    + intros Hloop item Hin.
      destruct (IH _ _ Hloop item Hin) as [Hacc|(en & s0 & s1 & Hen & Hp)].
      * apply in_app_or in Hacc as [Hacc|[<-|[]]]; [left; exact Hacc|].
        right. exists entry, st, st1. split; [left; reflexivity|exact Hentry].
      * right. exists en, s0, s1. split; [right; exact Hen|exact Hp].
    + run. intros Hloop item Hin.
      destruct (IH _ _ Hloop item Hin) as [Hacc|(en & s0 & s1 & Hen & Hp)].
      * left. exact Hacc.
      * right. exists en, s0, s1. split; [right; exact Hen|exact Hp].
Qed.

Lemma parsed_of_loop (es : list Entry) (acc : list Item) (st : State) :
  exists evs,
    parse_loop es acc st = (Ret (acc ++ parsed {| entries := es |}), extend st evs).
Proof.
  destruct (parse_loop_spec es) as (items & evs & Hrun & _).
  destruct (parse_spec {| entries := es |}) as (evs' & Hparse & _).
  specialize (Hparse st). unfold parse in Hparse. revert Hparse. run.
  cbn [entries]. rewrite (bind_returns _ _ _ _ _ (Hrun _ _)). run.
  intros [= <- _]. exists evs. apply Hrun.
Qed.

(** X8. Every item [parse] returns was built from an entry of the feed:
    its title, author, published and link are the entry's, its album id is
    what the id pattern finds in that link and its cover what the cover
    pattern finds in the entry's summary. *)
Theorem parsed_item_comes_from_an_entry (rss_json : Feed) (item : Item) :
  In item (parsed rss_json) ->
  exists entry,
    In entry (entries rss_json)
    /\ entry !! cp "title" = Some (title item)
    /\ entry !! cp "author" = Some (author item)
    /\ entry !! cp "published" = Some (published item)
    /\ entry !! cp "link" = Some (link item)
    /\ search_album_id (link item) = Some (album_id item)
    /\ exists summary,
         entry !! cp "summary" = Some summary
         /\ search_cover summary = Some (cover item).
Proof.
  intros Hin.
  destruct (parsed_of_loop (entries rss_json) [] empty_state) as (evs & Hloop).
  replace {| entries := entries rss_json |} with rss_json in Hloop
    by (destruct rss_json; reflexivity).
  destruct (parse_loop_from_entries _ _ _ _ _ Hloop item Hin)
    as [[]|(entry & st0 & st1 & Hentry & Hp)].
  exists entry. split; [exact Hentry|]. eapply parse_entry_fields. exact Hp.
Qed.

Lemma parse_loop_app (a b : list Entry) (acc : list Item) (st : State) :
  parse_loop (a ++ b) acc st
  = match parse_loop a acc st with
    | (Ret items, st1) => parse_loop b items st1
    | (Raise e, st1) => (Raise e, st1)
    end.
Proof.
  revert acc st. induction a as [|entry a IH]; intros acc st; [reflexivity|].
  cbn [app parse_loop]. rewrite !bind_attempt.
  destruct (parse_entry entry st) as [[item|e] st1]; [apply IH|].
  run. apply IH.
Qed.

(** X9. [parse] treats the entries one by one and keeps their order: the
    items of a feed whose entries are [a] followed by [b] are the items of
    [a] followed by the items of [b]. *)
Theorem parse_of_joined_entries (a b : list Entry) :
  parsed {| entries := a ++ b |} = parsed {| entries := a |} ++ parsed {| entries := b |}.
Proof.
  destruct (parsed_of_loop (a ++ b) [] empty_state) as (evs & Hab).
  destruct (parsed_of_loop a [] empty_state) as (evs_a & Ha).
  destruct (parsed_of_loop b (parsed {| entries := a |}) (extend empty_state evs_a))
    as (evs_b & Hb).
  rewrite parse_loop_app, Ha in Hab. cbn [app] in Hab. rewrite Hb in Hab.
  injection Hab as Heq _. symmetry. exact Heq.
Qed.

Lemma decimal_not_reserved (c : N) : is_decimal c = true -> reserved c = false.
Proof.
  intros Hc. destruct (reserved c) eqn:Hr; [|reflexivity].
  unfold reserved in Hr. apply existsb_exists in Hr as (x & Hx & Hcx).
  apply N.eqb_eq in Hcx. subst x.
  assert (Hall : forallb (fun x => negb (is_decimal x)) (concat escape_chars) = true)
    by (vm_compute; reflexivity).
  rewrite forallb_forall in Hall. specialize (Hall c Hx).
  rewrite Hc in Hall. discriminate.
Qed.

(** X10. The album id of a parsed item has no reserved character, so
    [escape] would leave it as it is: the caption of [construct_params],
    which inserts the id unescaped, inserts what escaping would give. *)
Theorem parsed_album_id_needs_no_escape (rss_json : Feed) (item : Item) :
  In item (parsed rss_json) ->
  existsb reserved (album_id item) = false
  /\ escape (album_id item) = album_id item.
Proof.
  intros Hin.
  destruct (parsed_of_loop (entries rss_json) [] empty_state) as (evs & Hloop).
  replace {| entries := entries rss_json |} with rss_json in Hloop
    by (destruct rss_json; reflexivity).
  destruct (parse_loop_from_entries _ _ _ _ _ Hloop item Hin)
    as [[]|(entry & st0 & st1 & _ & Hp)].
  apply parse_entry_fields in Hp as (_ & _ & _ & _ & Hid & _).
  apply album_id_shape in Hid as (_ & Hdigits & _).
  assert (Hplain : existsb reserved (album_id item) = false).
  { destruct (existsb reserved (album_id item)) eqn:Hex; [|reflexivity].
    apply existsb_exists in Hex as (c & Hc & Hr).
    rewrite forallb_forall in Hdigits.
    rewrite (decimal_not_reserved c (Hdigits c Hc)) in Hr. discriminate. }
  split; [exact Hplain|].
  rewrite escape_one_pass. apply escaped_plain. exact Hplain.
Qed.

(** ** More on [download] *)

Section Download.

Context (E : Env).

Lemma download_loop_success (url : str) (retries : list nat) (st st' : State)
    (feed : Feed) :
  download_loop E url retries None st = (Ret (Some feed), st') ->
  exists pre,
    st' = extend st (pre ++ [HttpGet url])
    /\ http_get E (trace st ++ pre) url = GetParsed (Some feed)
    /\ gets_failed E (trace st) pre = true.
Proof.
  revert st. induction retries as [|retry rest IH]; intros st; [discriminate|].
  cbn [download_loop]. run. unfold fetch. cbn [trace extend].
  destruct (http_get E (trace st ++ [Log INFO (AttemptOf (retry + 1) 3)]) url)
    as [|[feed0|]] eqn:Hans; run.
  - intros Hrest. apply IH in Hrest as (pre & -> & Hget & Hfail).
    cbn [trace extend] in Hget, Hfail.
    exists ([Log INFO (AttemptOf (retry + 1) 3); HttpGet url;
             Log INFO (FailedNext TransportError); Sleep 6] ++ pre).
    rewrite extend_extend, <- !app_assoc. split; [reflexivity|].
    rewrite <- app_assoc in Hget. split; [exact Hget|].
    rewrite gets_failed_app, Hfail, andb_true_r.
    cbn [gets_failed]. rewrite Hans. reflexivity.
  - unfold ret. intros [= -> <-]. exists [Log INFO (AttemptOf (retry + 1) 3)].
    split; [reflexivity|]. split; [exact Hans|reflexivity].
  - intros Hrest. apply IH in Hrest as (pre & -> & Hget & Hfail).
    cbn [trace extend] in Hget, Hfail.
    exists ([Log INFO (AttemptOf (retry + 1) 3); HttpGet url] ++ pre).
    rewrite extend_extend, <- !app_assoc. split; [reflexivity|].
    rewrite <- app_assoc in Hget. split; [exact Hget|].
    rewrite gets_failed_app, Hfail, andb_true_r.
    cbn [gets_failed]. rewrite Hans. reflexivity.
Qed.

(** X11. When [download] returns a feed, it is the answer to the last
    request it made: every request before it in this call had failed, and
    after it nothing happens but the line "Succeed to download RSS". *)
Theorem download_returns_the_first_good_answer (url : str) (st st' : State)
    (feed : Feed) :
  download E url st = (Ret feed, st') ->
  exists pre,
    st' = extend st (pre ++ [HttpGet url; Log INFO DownloadOk])
    /\ http_get E (trace st ++ pre) url = GetParsed (Some feed)
    /\ gets_failed E (trace st) pre = true.
Proof.
  unfold download. run. unfold bind at 1.
  destruct (download_loop E url (seq 0 3) None (extend st [Log INFO Downloading]))
    as [[[feed0|]|e] st1] eqn:Hloop; run; try discriminate.
  unfold ret. intros [= -> <-].
  apply download_loop_success in Hloop as (pre & -> & Hget & Hfail).
  cbn [trace extend] in Hget, Hfail.
  exists (Log INFO Downloading :: pre). rewrite !extend_extend.
  cbn [app]. rewrite <- !app_assoc. split; [reflexivity|].
  rewrite <- app_assoc in Hget. split; [exact Hget|].
  cbn [gets_failed]. exact Hfail.
Qed.

Lemma backs_off_nil (url : str) (h : list Event) : backs_off E url h [].
Proof. split; intros [|? ?]; intros; discriminate. Qed.

Lemma backs_off_quiet (url : str) (h : list Event) (d : Event) (rest : list Event) :
  is_quiet d = true ->
  backs_off E url (h ++ [d]) rest -> backs_off E url h (d :: rest).
Proof.
  intros Hd [Hget Hsleep]. split.
  - intros [|p pre] post Heq Hraise; cbn [app] in Heq.
    + injection Heq as -> _. discriminate.
    + injection Heq as <- Heq. apply (Hget pre post Heq).
      rewrite <- app_assoc. exact Hraise.
  - intros [|p pre] secs post Heq; cbn [app] in Heq.
    + injection Heq as -> _. discriminate.
    + injection Heq as <- Heq.
      destruct (Hsleep pre secs post Heq) as (Hsecs & pre' & -> & Hraise).
      split; [exact Hsecs|]. exists (d :: pre'). split; [reflexivity|].
      rewrite <- app_assoc in Hraise. exact Hraise.
Qed.

Lemma backs_off_answered (url : str) (h rest : list Event) :
  http_get E h url <> GetRaises ->
  backs_off E url (h ++ [HttpGet url]) rest ->
  backs_off E url h (HttpGet url :: rest).
Proof.
  intros Hans [Hget Hsleep]. split.
  - intros [|p pre] post Heq Hraise; cbn [app] in Heq.
    + rewrite app_nil_r in Hraise. contradiction.
    + injection Heq as <- Heq. apply (Hget pre post Heq).
      rewrite <- app_assoc. exact Hraise.
  - intros [|p pre] secs post Heq; cbn [app] in Heq; [discriminate|].
    injection Heq as <- Heq.
    destruct (Hsleep pre secs post Heq) as (Hsecs & pre' & -> & Hraise).
    split; [exact Hsecs|]. exists (HttpGet url :: pre'). split; [reflexivity|].
    rewrite <- app_assoc in Hraise. exact Hraise.
Qed.

Lemma backs_off_raised (url : str) (h rest : list Event) :
  http_get E h url = GetRaises ->
  backs_off E url
    (h ++ [HttpGet url; Log INFO (FailedNext TransportError); Sleep 6]) rest ->
  backs_off E url h
    (HttpGet url :: Log INFO (FailedNext TransportError) :: Sleep 6 :: rest).
Proof.
  intros Hans [Hget Hsleep]. split.
  - intros [|p1 [|p2 [|p3 pre]]] post Heq Hraise; cbn [app] in Heq;
      try discriminate.
    + injection Heq as <-. eauto.
    + injection Heq as <- <- <- Heq. apply (Hget pre post Heq).
      rewrite <- app_assoc. exact Hraise.
  - intros [|p1 [|p2 [|p3 pre]]] secs post Heq; cbn [app] in Heq;
      try discriminate.
    + injection Heq as <- <- <- _. split; [reflexivity|].
      exists []. rewrite app_nil_r. split; [reflexivity|exact Hans].
    + injection Heq as <- <- <- Heq.
      destruct (Hsleep pre secs post Heq) as (Hsecs & pre' & -> & Hraise).
      split; [exact Hsecs|].
      exists (HttpGet url :: Log INFO (FailedNext TransportError) :: Sleep 6 :: pre').
      split; [reflexivity|]. rewrite <- app_assoc in Hraise. exact Hraise.
Qed.

Lemma backs_off_closing (url : str) (h evs : list Event) (d : Event) :
  is_quiet d = true ->
  backs_off E url h evs -> backs_off E url h (evs ++ [d]).
Proof.
  intros Hd [Hget Hsleep]. split.
  - intros pre post Heq Hraise.
    destruct (list_eq_nil_dec post) as [->|Hne].
    + apply app_inj_tail in Heq as [_ ->]. discriminate Hd.
    + destruct (exists_last Hne) as (post0 & d0 & ->).
      rewrite app_comm_cons, app_assoc in Heq.
      apply app_inj_tail in Heq as [Heq <-].
      destruct (Hget pre post0 Heq Hraise) as [post' ->].
      exists (post' ++ [d]). reflexivity.
  - intros pre secs post Heq.
    destruct (list_eq_nil_dec post) as [->|Hne].
    + apply app_inj_tail in Heq as [_ ->]. discriminate Hd.
    + destruct (exists_last Hne) as (post0 & d0 & ->).
      rewrite app_comm_cons, app_assoc in Heq.
      apply app_inj_tail in Heq as [Heq <-].
      apply (Hsleep pre secs post0 Heq).
Qed.

Lemma download_loop_backs_off (url : str) (retries : list nat) (st : State) :
  exists r evs,
    download_loop E url retries None st = (Ret r, extend st evs)
    /\ backs_off E url (trace st) evs.
Proof.
  revert st. induction retries as [|retry rest IH]; intros st.
  - exists None, []. rewrite extend_nil. split; [reflexivity|apply backs_off_nil].
  - cbn [download_loop]. run. unfold fetch. cbn [trace extend].
    destruct (http_get E (trace st ++ [Log INFO (AttemptOf (retry + 1) 3)]) url)
      as [|[feed|]] eqn:Hans; run.
    + destruct (IH (extend st [Log INFO (AttemptOf (retry + 1) 3); HttpGet url;
                               Log INFO (FailedNext TransportError); Sleep 6]))
        as (r & evs & -> & Hback).
      rewrite extend_extend. eexists r, _. split; [reflexivity|].
      cbn [app]. apply backs_off_quiet; [reflexivity|].
      apply backs_off_raised; [exact Hans|].
      cbn [trace extend] in Hback. rewrite <- app_assoc. exact Hback.
    + unfold ret. eexists (Some feed), _. split; [reflexivity|].
      apply backs_off_quiet; [reflexivity|].
      apply backs_off_answered; [rewrite Hans; discriminate|apply backs_off_nil].
    + destruct (IH (extend st [Log INFO (AttemptOf (retry + 1) 3); HttpGet url]))
        as (r & evs & -> & Hback).
      rewrite extend_extend. eexists r, _. split; [reflexivity|].
      cbn [app]. apply backs_off_quiet; [reflexivity|].
      apply backs_off_answered; [rewrite Hans; discriminate|].
      cbn [trace extend] in Hback. rewrite <- app_assoc. exact Hback.
Qed.

(** X12. In every call of [download], whatever the source answers: a
    request that raised is followed by the line about the next attempt
    and the pause of 6 seconds, and there is no other pause: each pause is
    of 6 seconds and stands directly behind that line of a request that
    raised.  A false parse result is followed by no pause. *)
Theorem download_backs_off_only_after_an_exception (url : str) (st : State) :
  exists r evs,
    download E url st = (r, extend st evs)
    /\ (forall pre post,
          evs = pre ++ HttpGet url :: post ->
          http_get E (trace st ++ pre) url = GetRaises ->
          exists post',
            post = Log INFO (FailedNext TransportError) :: Sleep 6 :: post')
    /\ (forall pre secs post,
          evs = pre ++ Sleep secs :: post ->
          secs = 6%Z
          /\ exists pre',
               pre = pre' ++ [HttpGet url; Log INFO (FailedNext TransportError)]
               /\ http_get E (trace st ++ pre') url = GetRaises).
Proof.
  unfold download. run. unfold bind at 1.
  destruct (download_loop_backs_off url (seq 0 3) (extend st [Log INFO Downloading]))
    as (r & evs & -> & Hback).
  cbn [trace extend] in Hback.
  destruct r as [feed|]; run.
  - unfold ret. eexists (Ret feed), _. split; [reflexivity|].
    apply (backs_off_quiet url (trace st) (Log INFO Downloading)); [reflexivity|].
    apply backs_off_closing; [reflexivity|exact Hback].
  - unfold raise. eexists (Raise DownloadFailed), _. split; [reflexivity|].
    apply (backs_off_quiet url (trace st) (Log INFO Downloading)); [reflexivity|].
    exact Hback.
Qed.

End Download.

(** ** More on [send], [redis_set] and [main] *)

Section Delivery.

Context (E : Env) (G : Globals).

Lemma send_run (chat photo caption : str) (item : Item)
    (st : State) :
  let answer :=
    http_post E (trace st ++ [send_line item]) (send_target G photo)
      (send_params chat photo caption) in
  exists mid,
    send E G chat photo caption item st
    = (Ret (acknowledged answer),
       extend st
         (send_line item
          :: HttpPost (send_target G photo) (send_params chat photo caption)
          :: mid ++ [send_closing item (acknowledged answer)]))
    /\ forallb is_send_detail mid = true.
Proof.
  unfold send, send_target, send_params, send_line. run.
  destruct (truthy photo); run; unfold post; cbn [trace extend];
    destruct (http_post E _ _ _) as [|[|]]; run; unfold ret; cbn [acknowledged].
  - exists [Log ERROR (ExceptionMsg TransportError)]. split; reflexivity.
  - exists []. split; reflexivity.
  - exists [Log WARN ApiReturns; Log WARN (SendPhotoFailed photo caption)].
    split; reflexivity.
  - exists [Log ERROR (ExceptionMsg TransportError)]. split; reflexivity.
  - exists []. split; reflexivity.
  - exists [Log WARN ApiReturns; Log WARN (SendMessageFailed caption)].
    split; reflexivity.
Qed.

(** X13. [send] never raises and makes exactly one request: to sendPhoto
    with the photo and the caption when the photo is not empty, to
    sendMessage with parse mode MarkdownV2 and the caption as text when it
    is.  It returns true exactly when that request was acknowledged with a
    true [ok]; an exception of the request or any other acknowledgement
    gives false.  Its last line tells the result, and the store is left as
    it was. *)
Theorem send_reports_the_acknowledgement (chat photo caption : str) (item : Item)
    (st : State) :
  let answer :=
    http_post E (trace st ++ [send_line item]) (send_target G photo)
      (send_params chat photo caption) in
  exists mid,
    send E G chat photo caption item st
    = (Ret (acknowledged answer),
       extend st
         (send_line item
          :: HttpPost (send_target G photo) (send_params chat photo caption)
          :: mid ++ [send_closing item (acknowledged answer)]))
    /\ forallb is_send_detail mid = true.
Proof. apply send_run. Qed.

Lemma redis_set_loop_twice (aid aid' : str) (retries : list nat) (st : State) :
  exists done st1 st2 body,
    redis_set_loop E G aid retries st = (Ret done, st1)
    /\ redis_set_loop E G aid' retries st = (Ret done, st2)
    /\ redis st1 = redis st2
    /\ trace st1 = trace st ++ body ++ [commit_closing aid done]
    /\ trace st2 = trace st ++ body ++ [commit_closing aid' done].
Proof.
  revert st. induction retries as [|retry rest IH]; intros st.
  - cbn [redis_set_loop]. run. unfold ret. eexists false, _, _, [].
    repeat split.
  - cbn [redis_set_loop]. run. unfold load_name.
    destruct (rj_code G) as [key|]; run.
    + unfold REDIS_set. cbn [trace extend].
      destruct (redis_answer E _ key); run.
      * destruct (IH (extend st [Log INFO (SetAttempt (retry + 1) 5);
                                 RedisSet key (cp "sent") 64281600;
                                 Log INFO SetRetry; Sleep 6]))
          as (done & st1 & st2 & body & -> & -> & Hr & Ht1 & Ht2).
        exists done, st1, st2,
          ([Log INFO (SetAttempt (retry + 1) 5); RedisSet key (cp "sent") 64281600;
            Log INFO SetRetry; Sleep 6] ++ body).
        rewrite Ht1, Ht2. cbn [trace extend]. rewrite <- !app_assoc. auto.
      * destruct (IH (extend st [Log INFO (SetAttempt (retry + 1) 5);
                                 RedisSet key (cp "sent") 64281600]))
          as (done & st1 & st2 & body & -> & -> & Hr & Ht1 & Ht2).
        exists done, st1, st2,
          ([Log INFO (SetAttempt (retry + 1) 5);
            RedisSet key (cp "sent") 64281600] ++ body).
        rewrite Ht1, Ht2. cbn [trace extend]. rewrite <- !app_assoc. auto.
      * unfold ret.
        eexists true, _, _, [Log INFO (SetAttempt (retry + 1) 5);
                             RedisSet key (cp "sent") 64281600].
        split; [reflexivity|]. split; [reflexivity|]. split; [reflexivity|].
        cbn [trace extend]. rewrite <- !app_assoc. auto.
    + destruct (IH (extend st [Log INFO (SetAttempt (retry + 1) 5);
                               Log INFO SetRetry; Sleep 6]))
        as (done & st1 & st2 & body & -> & -> & Hr & Ht1 & Ht2).
      exists done, st1, st2,
        ([Log INFO (SetAttempt (retry + 1) 5); Log INFO SetRetry; Sleep 6] ++ body).
      rewrite Ht1, Ht2. cbn [trace extend]. rewrite <- !app_assoc. auto.
Qed.

(** X14. The album id handed to [redis_set] reaches nothing but its last
    log line: called in the same state with two different ids, it returns
    the same result, leaves the same store and makes the same calls. *)
Theorem redis_set_ignores_its_argument (aid aid' : str) (st : State) :
  exists done st1 st2 body,
    redis_set E G aid st = (Ret done, st1)
    /\ redis_set E G aid' st = (Ret done, st2)
    /\ redis st1 = redis st2
    /\ trace st1 = trace st ++ body ++ [commit_closing aid done]
    /\ trace st2 = trace st ++ body ++ [commit_closing aid' done].
Proof. apply redis_set_loop_twice. Qed.

(** X15. When [redis_set] returns true, [rj_code] is bound and the store
    has gained exactly the key it is bound to, with the value "sent" and
    the expiry 64281600: from then on [filter], whenever its lookup is
    answered, returns true for the items with that album id, and for any
    other item what the store had for it before. *)
Theorem redis_set_success_stores_rj_code (aid : str) (st st' : State) :
  redis_set E G aid st = (Ret true, st') ->
  exists key,
    rj_code G = Some key
    /\ redis st' = <[key := (cp "sent", 64281600%Z)]> (redis st)
    /\ (forall item known st2,
          album_id item = key ->
          filter E item st' = (Ret known, st2) -> known = true)
    /\ (forall item known st2,
          album_id item <> key ->
          filter E item st' = (Ret known, st2) ->
          (known = true <-> is_Some (redis st !! album_id item))).
Proof.
  intros Hrun. unfold redis_set in Hrun.
  destruct (redis_set_loop_spec E G aid (seq 0 5) st)
    as (done & st1 & body & Hspec & _ & _ & _ & _ & _ & Hst & _).
  rewrite Hspec in Hrun. injection Hrun as -> ->.
  destruct (rj_code G) as [key|]; [|destruct Hst as (_ & Hd & _); discriminate].
  exists key. split; [reflexivity|]. split; [exact Hst|]. split.
  - intros item known st2 <-. rewrite filter_spec.
    destruct (redis_exists E _ _); [discriminate|].
    rewrite Hst, lookup_insert_eq. intros [= <- _]. reflexivity.
  - intros item known st2 Hne. rewrite filter_spec.
    destruct (redis_exists E _ _); [discriminate|].
    rewrite Hst, lookup_insert_ne by congruence. intros [= <- _].
    rewrite <- decide_present. apply bool_decide_eq_true.
Qed.

Lemma send_loop_raises (items : list Item) (st st' : State) (e : Exc) :
  send_loop E G items st = (Raise e, st') ->
  (e = NameError "rss_author" /\ rss_author G = None)
  \/ (exists name,
        e = KeyError name /\ rss_author G = Some name
        /\ List.find (fun p => bool_decide (fst p = name)) (CONFIGS G) = None).
Proof.
  revert st. induction items as [|item items IH]; intros st; [discriminate|].
  cbn [send_loop]. unfold construct_params. cbn iota.
  unfold load_name, configs_get.
  destruct (rss_author G) as [name|]; run; [|intros [= <- _]; left; auto].
  destruct (List.find _ (CONFIGS G)) as [p|] eqn:Hfind; run;
    [|intros [= <- _]; right; exists name; auto].
  destruct (send_spec E G (snd p) (cover item)
              (cp "\#" ++ album_id item ++ [newline] ++ cp "*"
               ++ escape (title item) ++ cp "*" ++ [newline] ++ [newline]
               ++ escape (author item) ++ [newline] ++ [newline]
               ++ escape (link item)) item st)
    as (sent & target & params & mid & Hsend & _).
  rewrite (bind_returns _ _ _ _ _ Hsend). destruct sent.
  - rewrite bind_bind. unfold redis_set.
    destruct (redis_set_loop_spec E G (album_id item) (seq 0 5)
                (extend st (Log INFO (SendAlbum (title item) (album_id item))
                            :: HttpPost target params
                            :: mid ++ [send_closing item true])))
      as (done & st2 & body & Hrs & _).
    rewrite (bind_returns _ _ _ _ _ Hrs). run. intros Hrest.
    destruct (IH _ Hrest) as [H|(n & H1 & H2 & H3)]; [left; exact H|].
    right. exists n. injection H2 as <-. auto.
  - run. intros Hrest.
    destruct (IH _ Hrest) as [H|(n & H1 & H2 & H3)]; [left; exact H|].
    right. exists n. injection H2 as <-. auto.
Qed.

Lemma sources_loop_raises (srcs : list (str * str)) (st st' : State) (e : Exc) :
  sources_loop E G srcs st = (Raise e, st') ->
  e = DownloadFailed
  \/ (e = TransportError /\ exists h key, redis_exists E h key = ExistsRaises)
  \/ (e = NameError "rss_author" /\ rss_author G = None)
  \/ (exists name,
        e = KeyError name /\ rss_author G = Some name
        /\ List.find (fun p => bool_decide (fst p = name)) (CONFIGS G) = None).
Proof.
  revert st. induction srcs as [|[name url] srcs IH]; intros st; [discriminate|].
  cbn [sources_loop].
  destruct (one_source_run E G name url st)
    as [(body & _ & _ & Hrun)
       |[(feed & h & evs1 & _ & _ & _ & _ & Hraise & Hrun)
        |(feed & h & body & evs_p & _ & _ & _ & _ & Hrun)]].
  - rewrite (bind_raises _ _ _ _ _ Hrun). intros [= <- _]. left. reflexivity.
  - rewrite (bind_raises _ _ _ _ _ Hrun). intros [= <- _]. right. left.
    split; [reflexivity|exact Hraise].
  - unfold bind. rewrite Hrun.
    destruct (send_loop E G _ _) as [[[]|e0] st1] eqn:Hloop.
    + apply IH.
    + intros [= <- _]. right. right. eapply send_loop_raises. exact Hloop.
Qed.

(** X16. Only four exceptions can leave [main]: the one [download] raises
    after its retries; the one a call of [REDIS.exists] raises in
    [filter], which stands in no [try]; the [NameError] for [rss_author]
    when that name is unbound; and the [KeyError] of [CONFIGS[rss_author]]
    when it is bound to something that is no key of [CONFIGS].  What an
    entry, Telegram or [REDIS.set] raise never leaves it. *)
Theorem main_raises_only (st st' : State) (e : Exc) :
  main E G st = (Raise e, st') ->
  e = DownloadFailed
  \/ (e = TransportError /\ exists h key, redis_exists E h key = ExistsRaises)
  \/ (e = NameError "rss_author" /\ rss_author G = None)
  \/ (exists name,
        e = KeyError name /\ rss_author G = Some name
        /\ List.find (fun p => bool_decide (fst p = name)) (CONFIGS G) = None).
Proof.
  unfold main. run. unfold bind.
  destruct (sources_loop E G _ _) as [[[]|e0] st1] eqn:Hloop.
  - rewrite log_run. discriminate.
  - intros [= <- _]. eapply sources_loop_raises. exact Hloop.
Qed.

End Delivery.

(** ** The inner loop of [main] *)

Ltac kinds :=
  let e := fresh "e" in
  intros e; destruct e as [[] [] | | | | |]; unfold is_delivery_event; simpl;
  try congruence;
  match goal with
  | |- context [Z.eqb ?secs 6] =>
      destruct (Z.eqb_spec secs 6); subst; simpl; congruence
  end.

Lemma filter_none {A} (p q : A -> bool) (l : list A) :
  (forall x, p x = true -> q x = false) ->
  forallb p l = true -> List.filter q l = [].
Proof.
  intros Hpq. induction l as [|x l IH]; [reflexivity|]. cbn [forallb List.filter].
  intros [Hx Hl]%andb_prop. rewrite (Hpq x Hx). apply IH. exact Hl.
Qed.

Lemma count_none (p q : Event -> bool) (l : list Event) :
  (forall x, p x = true -> q x = false) ->
  forallb p l = true -> count_events q l = 0%nat.
Proof.
  intros Hpq Hl. unfold count_events. rewrite (filter_none p q l Hpq Hl).
  reflexivity.
Qed.

Lemma count_events_cons (kind : Event -> bool) (e : Event) (l : list Event) :
  count_events kind (e :: l)
  = ((if kind e then 1 else 0) + count_events kind l)%nat.
Proof. unfold count_events. cbn [List.filter]. destruct (kind e); reflexivity. Qed.

Lemma find_key (d : list (str * str)) (name : str) :
  In name (List.map fst d) ->
  exists p, List.find (fun p => bool_decide (fst p = name)) d = Some p.
Proof.
  induction d as [|kv d IH]; [intros []|]. cbn [List.map List.find In].
  destruct (bool_decide (fst kv = name)) eqn:Hkv; [eauto|].
  intros [Heq|Hin]; [|apply IH; exact Hin].
  apply bool_decide_eq_false in Hkv. contradiction.
Qed.

Section Loop.

Context (E : Env) (G : Globals).

Lemma redis_set_loop_steps (aid : str) (retries : list nat) (st : State) :
  exists done st' evs,
    redis_set_loop E G aid retries st = (Ret done, st')
    /\ trace st' = trace st ++ evs
    /\ forallb is_commit_step evs = true.
Proof.
  revert st. induction retries as [|retry rest IH]; intros st.
  - cbn [redis_set_loop]. run. unfold ret.
    eexists false, _, [Log INFO (SetGiveUp aid)]. repeat split.
  - cbn [redis_set_loop]. run. unfold load_name.
    destruct (rj_code G) as [key|]; run.
    + unfold REDIS_set. cbn [trace extend].
      destruct (redis_answer E _ key); run.
      * destruct (IH (extend st [Log INFO (SetAttempt (retry + 1) 5);
                                 RedisSet key (cp "sent") 64281600;
                                 Log INFO SetRetry; Sleep 6]))
          as (done & st' & evs & -> & Htr & Hcls).
        exists done, st',
          ([Log INFO (SetAttempt (retry + 1) 5); RedisSet key (cp "sent") 64281600;
            Log INFO SetRetry; Sleep 6] ++ evs).
        split; [reflexivity|]. rewrite Htr. cbn [trace extend].
        rewrite <- app_assoc. split; [reflexivity|].
        rewrite forallb_app, Hcls. reflexivity.
      * destruct (IH (extend st [Log INFO (SetAttempt (retry + 1) 5);
                                 RedisSet key (cp "sent") 64281600]))
          as (done & st' & evs & -> & Htr & Hcls).
        exists done, st',
          ([Log INFO (SetAttempt (retry + 1) 5);
            RedisSet key (cp "sent") 64281600] ++ evs).
        split; [reflexivity|]. rewrite Htr. cbn [trace extend].
        rewrite <- app_assoc. split; [reflexivity|].
        rewrite forallb_app, Hcls. reflexivity.
      * unfold ret.
        eexists true, _, [Log INFO (SetAttempt (retry + 1) 5);
                          RedisSet key (cp "sent") 64281600;
                          Log INFO (SetOk aid)].
        split; [reflexivity|]. cbn [trace extend]. rewrite <- !app_assoc.
        split; reflexivity.
    + destruct (IH (extend st [Log INFO (SetAttempt (retry + 1) 5);
                               Log INFO SetRetry; Sleep 6]))
        as (done & st' & evs & -> & Htr & Hcls).
      exists done, st',
        ([Log INFO (SetAttempt (retry + 1) 5); Log INFO SetRetry; Sleep 6] ++ evs).
      split; [reflexivity|]. rewrite Htr. cbn [trace extend].
      rewrite <- app_assoc. split; [reflexivity|].
      rewrite forallb_app, Hcls. reflexivity.
Qed.

(** The events of one turn of the loop, for an item that [send] was
    called for. *)
Lemma send_turn (chat photo caption : str) (item : Item) (st : State) :
  exists (sent : bool) st' evs,
    bind (send E G chat photo caption item)
      (fun ok : bool =>
         if ok then bind (redis_set E G (album_id item)) (fun _ => sleep 10)
         else ret tt) st
    = (Ret tt, st')
    /\ trace st' = trace st ++ evs
    /\ forallb is_delivery_event evs = true
    /\ List.filter is_send_line evs = [send_line item]
    /\ count_events is_post evs = 1%nat
    /\ count_events is_pause evs = (if sent then 1 else 0)%nat
    /\ count_events is_send_ok evs = (if sent then 1 else 0)%nat.
Proof.
  destruct (send_spec E G chat photo caption item st)
    as (sent & target & params & mid & Hsend & Hmid).
  rewrite (bind_returns _ _ _ _ _ Hsend).
  assert (Hmid_line : List.filter is_send_line mid = [])
    by (apply (filter_none is_send_detail); [kinds|exact Hmid]).
  assert (Hmid_post : count_events is_post mid = 0%nat)
    by (apply (count_none is_send_detail); [kinds|exact Hmid]).
  assert (Hmid_pause : count_events is_pause mid = 0%nat)
    by (apply (count_none is_send_detail); [kinds|exact Hmid]).
  assert (Hmid_ok : count_events is_send_ok mid = 0%nat)
    by (apply (count_none is_send_detail); [kinds|exact Hmid]).
  assert (Hmid_cls : forallb is_delivery_event mid = true)
    by (apply (forallb_weaken is_send_detail); [kinds|exact Hmid]).
  exists sent. destruct sent.
  - unfold redis_set.
    destruct (redis_set_loop_steps (album_id item) (seq 0 5)
                (extend st (Log INFO (SendAlbum (title item) (album_id item))
                            :: HttpPost target params
                            :: mid ++ [send_closing item true])))
      as (done & st2 & evs & Hrs & Htr & Hcls).
    rewrite (bind_returns _ _ _ _ _ Hrs). run.
    exists (extend st2 [Sleep 10]),
      (([send_line item; HttpPost target params] ++ mid ++ [send_closing item true])
       ++ evs ++ [Sleep 10]).
    split; [reflexivity|]. split.
    { unfold send_line. cbn [trace extend]. rewrite Htr. cbn [trace extend].
      repeat first [rewrite <- app_assoc | progress cbn [app]]. reflexivity. }
    split.
    { rewrite !forallb_app, Hmid_cls.
      rewrite (forallb_weaken is_commit_step is_delivery_event evs)
        by (kinds || exact Hcls).
      reflexivity. }
    rewrite !List.filter_app, !count_events_app, Hmid_line, Hmid_post, Hmid_pause,
      Hmid_ok.
    rewrite (filter_none is_commit_step is_send_line evs) by (kinds || exact Hcls).
    rewrite (count_none is_commit_step is_post evs) by (kinds || exact Hcls).
    rewrite (count_none is_commit_step is_pause evs) by (kinds || exact Hcls).
    rewrite (count_none is_commit_step is_send_ok evs) by (kinds || exact Hcls).
    repeat split.
  - run. unfold ret.
    exists (extend st (Log INFO (SendAlbum (title item) (album_id item))
                       :: HttpPost target params
                       :: mid ++ [send_closing item false])),
      ([send_line item; HttpPost target params] ++ mid ++ [send_closing item false]).
    split; [reflexivity|]. split; [reflexivity|]. split.
    { rewrite !forallb_app, Hmid_cls. reflexivity. }
    rewrite !List.filter_app, !count_events_app, Hmid_line, Hmid_post, Hmid_pause,
      Hmid_ok.
    repeat split.
Qed.

Lemma send_loop_with_chat (name : str) (items : list Item) (st : State) :
  rss_author G = Some name ->
  In name (List.map fst (CONFIGS G)) ->
  exists st' evs,
    send_loop E G items st = (Ret tt, st')
    /\ trace st' = trace st ++ evs
    /\ List.filter is_send_line evs = List.map send_line items
    /\ count_events is_post evs = length items
    /\ count_events is_pause evs = count_events is_send_ok evs.
Proof.
  intros Hname Hkey. destruct (find_key _ _ Hkey) as [p Hfind].
  revert st. induction items as [|item items IH]; intros st.
  - exists st, []. rewrite app_nil_r. repeat split.
  - cbn [send_loop]. unfold construct_params. cbn iota.
    unfold load_name, configs_get. rewrite Hname. run. rewrite Hfind. run.
    rewrite <- bind_bind.
    destruct (send_turn (snd p) (cover item)
                (cp "\#" ++ album_id item ++ [newline] ++ cp "*"
                 ++ escape (title item) ++ cp "*" ++ [newline] ++ [newline]
                 ++ escape (author item) ++ [newline] ++ [newline]
                 ++ escape (link item)) item st)
      as (sent & st1 & evs1 & Hturn & Htr1 & _ & Hline & Hpost & Hpause & Hok).
    rewrite (bind_returns _ _ _ _ _ Hturn).
    destruct (IH st1) as (st' & evs & Hrest & Htr & Hlines & Hposts & Hpauses).
    exists st', (evs1 ++ evs). split; [exact Hrest|].
    split; [rewrite Htr, Htr1, app_assoc; reflexivity|].
    rewrite List.filter_app, !count_events_app, Hline, Hlines, Hpost, Hposts,
      Hpause, Hok, Hpauses.
    repeat split.
Qed.

(** X17. With [rss_author] bound to a key of [CONFIGS], the inner loop of
    [main] returns normally whatever Telegram and Redis answer: [send] is
    called once for every item, in the order of the list, each call makes
    one request, a failed delivery does not stop the loop, and the pause of
    10 seconds is made once after each successful delivery and never
    otherwise. *)
Theorem send_loop_attempts_every_item (name : str) (items : list Item) (st : State) :
  rss_author G = Some name ->
  In name (List.map fst (CONFIGS G)) ->
  exists st' evs,
    send_loop E G items st = (Ret tt, st')
    /\ trace st' = trace st ++ evs
    /\ List.filter is_send_line evs = List.map send_line items
    /\ count_events is_post evs = length items
    /\ count_events is_pause evs = count_events is_send_ok evs.
Proof. apply send_loop_with_chat. Qed.

Lemma send_loop_events (items : list Item) (st st' : State) (r : res unit) :
  send_loop E G items st = (r, st') ->
  exists evs, trace st' = trace st ++ evs /\ forallb is_delivery_event evs = true.
Proof.
  revert st. induction items as [|item items IH]; intros st.
  - intros [= _ <-]. exists []. rewrite app_nil_r. auto.
  - cbn [send_loop]. unfold construct_params. cbn iota.
    unfold load_name, configs_get.
    destruct (rss_author G) as [name|]; run;
      [|intros [= _ <-]; exists []; rewrite app_nil_r; auto].
    destruct (List.find _ (CONFIGS G)) as [p|]; run;
      [|intros [= _ <-]; exists []; rewrite app_nil_r; auto].
    rewrite <- bind_bind.
    destruct (send_turn (snd p) (cover item)
                (cp "\#" ++ album_id item ++ [newline] ++ cp "*"
                 ++ escape (title item) ++ cp "*" ++ [newline] ++ [newline]
                 ++ escape (author item) ++ [newline] ++ [newline]
                 ++ escape (link item)) item st)
      as (sent & st1 & evs1 & Hturn & Htr1 & Hcls1 & _).
    rewrite (bind_returns _ _ _ _ _ Hturn). intros Hrest.
    destruct (IH _ Hrest) as (evs & Htr & Hcls). exists (evs1 ++ evs).
    split; [rewrite Htr, Htr1, app_assoc; reflexivity|].
    rewrite forallb_app, Hcls1, Hcls. reflexivity.
Qed.






(** X19. For one artist, with [rss_author] bound to a key of [CONFIGS],
    there are three outcomes.  The download gives up and nothing is posted.
    Or the source served a feed and a lookup of the store raised: the
    exception ends the work before [send] is called at all.  Or every
    lookup was answered and [send] is called, with one request each, for
    exactly the parsed items whose album id was not in the store when the
    artist was reached, in the order of the feed.  The store is consulted
    for all items before the first is sent, so an album that stands twice
    in the feed is sent twice. *)
Theorem one_source_posts_every_new_item (name artist_name url : str) (st : State) :
  rss_author G = Some name ->
  In name (List.map fst (CONFIGS G)) ->
  exists r st' evs,
    one_source E G artist_name url st = (r, st')
    /\ trace st' = trace st ++ evs
    /\ ((r = Raise DownloadFailed /\ count_events is_post evs = 0%nat)
        \/ (exists feed h,
              http_get E h url = GetParsed (Some feed)
              /\ ((r = Raise TransportError
                   /\ lookups_answered E (trace st) evs = false
                   /\ count_events is_post evs = 0%nat
                   /\ List.filter is_send_line evs = [])
                  \/ (r = Ret tt
                      /\ lookups_answered E (trace st) evs = true
                      /\ count_events is_post evs
                         = length (new_items st (parsed feed))
                      /\ List.filter is_send_line evs
                         = List.map send_line (new_items st (parsed feed)))))).
Proof.
  intros Hname Hkey.
  destruct (one_source_run E G artist_name url st)
    as [(body & Hbody & _ & Hrun)
       |[(feed & h & evs1 & Hfeed & Hkind & _ & Hall & _ & Hrun)
        |(feed & h & body & evs_p & Hfeed & Hbody & Hp & Hall & Hrun)]].
  - eexists _, _, _. split; [exact Hrun|]. split; [reflexivity|]. left.
    split; [reflexivity|]. rewrite count_events_cons.
    rewrite (count_none is_download_body is_post body) by (kinds || exact Hbody).
    reflexivity.
  - eexists _, _, _. split; [exact Hrun|]. split; [reflexivity|]. right.
    exists feed, h. split; [exact Hfeed|]. left.
    split; [reflexivity|]. split; [exact Hall|].
    rewrite (count_none is_intake_event is_post evs1) by (by_kind || exact Hkind).
    rewrite (filter_none is_intake_event is_send_line evs1)
      by (by_kind || exact Hkind).
    split; reflexivity.
  - destruct (send_loop_with_chat name (new_items st (parsed feed))
                (extend st (intake artist_name url body evs_p
                              (length (new_items st (parsed feed)))
                              (length (parsed feed)))) Hname Hkey)
      as (st' & evs & Hloop & Htr & Hlines & Hposts & _).
    destruct (send_loop_events _ _ _ _ Hloop) as (evs' & Htr' & Hcls).
    rewrite Htr in Htr'. apply app_inv_head in Htr'. subst evs'.
    rewrite Hloop in Hrun.
    destruct (intake_no_post artist_name url body evs_p
                (length (new_items st (parsed feed))) (length (parsed feed))
                Hbody Hp) as [Hpost Hline].
    apply filter_nil_existsb in Hpost, Hline.
    eexists _, _, _. split; [exact Hrun|].
    split; [rewrite Htr; cbn [trace extend]; rewrite <- app_assoc; reflexivity|].
    right. exists feed, h. split; [exact Hfeed|]. right. split; [reflexivity|].
    rewrite lookups_answered_app, Hall.
    rewrite (lookups_answered_none E _ evs)
      by (apply (forallb_weaken is_delivery_event); [kinds|exact Hcls]).
    split; [reflexivity|].
    rewrite count_events_app, List.filter_app, Hline, Hlines, Hposts.
    unfold count_events at 1. rewrite Hpost. split; reflexivity.
Qed.

Section Chat.

Variable c : str.

Lemma redis_set_loop_chat (aid : str) (retries : list nat) (st : State) :
  redis_set_loop E (with_chat_id c G) aid retries st
  = redis_set_loop E G aid retries st.
Proof.
  revert st. induction retries as [|retry rest IH]; intros st; [reflexivity|].
  cbn [redis_set_loop]. run. cbn [rj_code with_chat_id]. unfold load_name.
  destruct (rj_code G) as [key|]; run; [|apply IH].
  unfold REDIS_set. cbn [trace extend].
  destruct (redis_answer E _ key); run; [apply IH|apply IH|reflexivity].
Qed.

Lemma send_loop_chat (items : list Item) (st : State) :
  send_loop E (with_chat_id c G) items st = send_loop E G items st.
Proof.
  revert st. induction items as [|item items IH]; intros st; [reflexivity|].
  cbn [send_loop]. unfold construct_params. cbn iota.
  cbn [rss_author CONFIGS with_chat_id]. unfold load_name, configs_get.
  destruct (rss_author G) as [name|]; run; [|reflexivity].
  destruct (List.find _ (CONFIGS G)) as [p|]; run; [|reflexivity].
  change (send E (with_chat_id c G)) with (send E G).
  destruct (send_spec E G (snd p) (cover item)
              (cp "\#" ++ album_id item ++ [newline] ++ cp "*"
               ++ escape (title item) ++ cp "*" ++ [newline] ++ [newline]
               ++ escape (author item) ++ [newline] ++ [newline]
               ++ escape (link item)) item st)
    as (sent & target & params & mid & Hsend & _).
  rewrite !(bind_returns _ _ _ _ _ Hsend). destruct sent.
  - rewrite !bind_bind. unfold redis_set.
    destruct (redis_set_loop_spec E G (album_id item) (seq 0 5)
                (extend st (Log INFO (SendAlbum (title item) (album_id item))
                            :: HttpPost target params
                            :: mid ++ [send_closing item true])))
      as (done & st2 & body & Hrs & _).
    rewrite (bind_returns _ _ _ _ _ Hrs).
    rewrite <- redis_set_loop_chat in Hrs.
    rewrite (bind_returns _ _ _ _ _ Hrs). run. apply IH.
  - run. apply IH.
Qed.

Lemma sources_loop_chat (srcs : list (str * str)) (st : State) :
  sources_loop E (with_chat_id c G) srcs st = sources_loop E G srcs st.
Proof.
  revert st. induction srcs as [|[name url] srcs IH]; intros st; [reflexivity|].
  cbn [sources_loop].
  assert (Hone : one_source E (with_chat_id c G) name url st
                 = one_source E G name url st).
  { unfold one_source. run.
    destruct (download_spec E url (extend st [Log INFO (Source name url)]))
      as (rd & evs & Hd & _).
    destruct rd as [feed|e].
    - rewrite !(bind_returns _ _ _ _ _ Hd).
      destruct (parse_spec feed) as (evs_p & Hp & _).
      rewrite !(bind_returns _ _ _ _ _ (Hp _)).
      destruct (not_yet_sent E (parsed feed)
                  (extend (extend (extend st [Log INFO (Source name url)]) evs)
                     evs_p))
        as [[kept|e] st1] eqn:Hf.
      + rewrite !(bind_returns _ _ _ _ _ Hf). run. apply send_loop_chat.
      + rewrite !(bind_raises _ _ _ _ _ Hf). reflexivity.
    - rewrite !(bind_raises _ _ _ _ _ Hd). reflexivity. }
  unfold bind. rewrite Hone.
  destruct (one_source E G name url st) as [[[]|e] st1]; [apply IH|reflexivity].
Qed.

(** X20. [main] never reads [CHAT_ID]: a pass with any other value of
    [CHAT_ID] returns the same result in the same state, event for event. *)
Theorem main_never_reads_CHAT_ID (st : State) :
  main E (with_chat_id c G) st = main E G st.
Proof.
  unfold main. run. change (rss_url_generator (with_chat_id c G))
    with (rss_url_generator G).
  unfold bind. rewrite sources_loop_chat. reflexivity.
Qed.

End Chat.

Lemma send_loop_posts (items : list Item) (st st' : State) (r : res unit) :
  send_loop E G items st = (r, st') ->
  exists evs,
    trace st' = trace st ++ evs
    /\ forall target params,
         In (HttpPost target params) evs ->
         exists name p item,
           rss_author G = Some name
           /\ List.find (fun p => bool_decide (fst p = name)) (CONFIGS G) = Some p
           /\ In item items
           /\ target = send_target G (cover item)
           /\ params = send_params (snd p) (cover item) (caption_of item).
Proof.
  revert st. induction items as [|item items IH]; intros st.
  - intros [= _ <-]. exists []. rewrite app_nil_r. split; [reflexivity|].
    intros ? ? [].
  - cbn [send_loop]. unfold construct_params. cbn iota.
    unfold load_name, configs_get.
    destruct (rss_author G) as [name|] eqn:Hname; run;
      [|intros [= _ <-]; exists []; rewrite app_nil_r;
        split; [reflexivity|intros ? ? []]].
    destruct (List.find _ (CONFIGS G)) as [p|] eqn:Hfind; run;
      [|intros [= _ <-]; exists []; rewrite app_nil_r;
        split; [reflexivity|intros ? ? []]].
    destruct (send_run E G (snd p) (cover item) (caption_of item) item st)
      as (mid & Hsend & Hmid).
    unfold caption_of, construct_params in Hsend. cbn [fst snd] in Hsend.
    rewrite (bind_returns _ _ _ _ _ Hsend).
    assert (Hhere :
              forall tail target params,
                forallb (fun e => negb (is_post e)) tail = true ->
                In (HttpPost target params)
                  ((send_line item
                    :: HttpPost (send_target G (cover item))
                         (send_params (snd p) (cover item) (caption_of item))
                    :: mid) ++ tail) ->
                target = send_target G (cover item)
                /\ params = send_params (snd p) (cover item) (caption_of item)).
    { intros tail target params Htail [Hin|Hin]%in_app_or.
      - destruct Hin as [Hin|[Hin|Hin]]; [discriminate| |].
        + injection Hin as <- <-. auto.
        + rewrite forallb_forall in Hmid. specialize (Hmid _ Hin). discriminate.
      - rewrite forallb_forall in Htail. specialize (Htail _ Hin). discriminate. }
    destruct (acknowledged _) eqn:Hack.
    + rewrite bind_bind. unfold redis_set.
      destruct (redis_set_loop_steps (album_id item) (seq 0 5)
                  (extend st
                     (send_line item
                      :: HttpPost (send_target G (cover item))
                           (send_params (snd p) (cover item)
                              (cp "\#" ++ album_id item ++ [newline] ++ cp "*"
                               ++ escape (title item) ++ cp "*" ++ [newline]
                               ++ [newline] ++ escape (author item) ++ [newline]
                               ++ [newline] ++ escape (link item)))
                      :: mid ++ [send_closing item true])))
        as (done & st2 & evs2 & Hrs & Htr2 & Hcls2).
      rewrite (bind_returns _ _ _ _ _ Hrs). run. intros Hrest.
      apply IH in Hrest as (evs & Htr & Hposts).
      exists (((send_line item
                :: HttpPost (send_target G (cover item))
                     (send_params (snd p) (cover item) (caption_of item))
                :: mid) ++ (send_closing item true :: evs2 ++ [Sleep 10])) ++ evs).
      split.
      { rewrite Htr. cbn [trace extend]. rewrite Htr2. cbn [trace extend].
        unfold caption_of, construct_params. cbn [fst snd].
        repeat first [rewrite <- app_assoc | progress cbn [app]]. reflexivity. }
      intros target params [Hin|Hin]%in_app_or.
      * apply Hhere in Hin as [-> ->].
        -- exists name, p, item. repeat split; auto. left. reflexivity.
        -- cbn [forallb is_post send_closing negb andb]. rewrite forallb_app.
           rewrite (forallb_weaken is_commit_step _ evs2) by (kinds || exact Hcls2).
           reflexivity.
      * destruct (Hposts _ _ Hin) as (n & q & it & H1 & H2 & H3 & H4 & H5).
        exists n, q, it. repeat split; auto. right. exact H3.
    + run. intros Hrest. apply IH in Hrest as (evs & Htr & Hposts).
      exists (((send_line item
                :: HttpPost (send_target G (cover item))
                     (send_params (snd p) (cover item) (caption_of item))
                :: mid) ++ [send_closing item false]) ++ evs).
      split.
      { rewrite Htr. cbn [trace extend].
        unfold caption_of, construct_params. cbn [fst snd].
        repeat first [rewrite <- app_assoc | progress cbn [app]]. reflexivity. }
      intros target params [Hin|Hin]%in_app_or.
      * apply Hhere in Hin as [-> ->]; [|reflexivity].
        exists name, p, item. repeat split; auto. left. reflexivity.
      * destruct (Hposts _ _ Hin) as (n & q & it & H1 & H2 & H3 & H4 & H5).
        exists n, q, it. repeat split; auto. right. exact H3.
Qed.

(** X21. Every request the inner loop of [main] makes to Telegram is the
    request of [send] for one of its items, and its chat is the value
    [CONFIGS] has under the key [rss_author] is bound to: the id of a
    configured artist, never [CHAT_ID]. *)
Theorem posts_go_to_the_chat_under_rss_author (items : list Item) (st st' : State)
    (r : res unit) (evs : list Event) :
  send_loop E G items st = (r, st') ->
  trace st' = trace st ++ evs ->
  forall target params,
    In (HttpPost target params) evs ->
    exists name p item,
      rss_author G = Some name
      /\ List.find (fun p => bool_decide (fst p = name)) (CONFIGS G) = Some p
      /\ In item items
      /\ target = send_target G (cover item)
      /\ params = send_params (snd p) (cover item) (caption_of item).
Proof.
  intros Hloop Htr. apply send_loop_posts in Hloop as (evs0 & Htr0 & Hposts).
  rewrite Htr0 in Htr. apply app_inv_head in Htr. subst evs0. exact Hposts.
Qed.

End Loop.

(** ** The feeds of [rss_url_generator] *)

(** X22. [rss_url_generator] yields one pair for each entry of [CONFIGS],
    in its order and under the artist's name, and the URLs of two pairs are
    the same only if the two artist ids are: no two different artists are
    read from one feed. *)
Theorem rss_url_generator_keeps_artists_apart (G : Globals) :
  List.map fst (rss_url_generator G) = List.map fst (CONFIGS G)
  /\ forall i j name1 url1 name2 url2 id1 id2,
       nth_error (rss_url_generator G) i = Some (name1, url1) ->
       nth_error (rss_url_generator G) j = Some (name2, url2) ->
       nth_error (List.map snd (CONFIGS G)) i = Some id1 ->
       nth_error (List.map snd (CONFIGS G)) j = Some id2 ->
       (url1 = url2 <-> id1 = id2).
Proof.
  unfold rss_url_generator. split.
  - rewrite List.map_map. reflexivity.
  - intros i j name1 url1 name2 url2 id1 id2 H1 H2 H3 H4.
    rewrite nth_error_map in H1, H2, H3, H4.
    destruct (nth_error (CONFIGS G) i) as [[n1 a1]|]; [|discriminate].
    destruct (nth_error (CONFIGS G) j) as [[n2 a2]|]; [|discriminate].
    cbn [option_map fst snd] in H1, H2, H3, H4.
    injection H1 as <- <-. injection H2 as <- <-.
    injection H3 as <-. injection H4 as <-.
    unfold rss_url, cat. split; [apply app_inv_head|intros ->; reflexivity].
Qed.

(** ** The further properties at the sample data *)

Lemma album_id_is_a_digit_run_witness :
  search_album_id (link sample_item) = Some (album_id sample_item)
  /\ (4 <= length (album_id sample_item) <= 15)%nat
  /\ forallb is_decimal (album_id sample_item) = true
  /\ exists pre post, link sample_item = pre ++ album_id sample_item ++ post.
Proof.
  assert (H : search_album_id (link sample_item) = Some (album_id sample_item))
    by (vm_compute; reflexivity).
  split; [exact H|].
  exact (album_id_is_a_digit_run (link sample_item) (album_id sample_item) H).
Defined.

Lemma album_id_is_first_run_witness :
  search_album_id (cp "https://music.163.com/#/album?id=") = None
  /\ match rev (cp "https://music.163.com/#/album?id=") with
     | [] => True
     | c :: _ => is_decimal c = false
     end
  /\ forallb is_decimal (cp "123456789") = true
  /\ (4 <= length (cp "123456789"))%nat
  /\ search_album_id (cp "https://music.163.com/#/album?id=" ++ cp "123456789" ++ [])
     = Some (firstn 15 (cp "123456789")).
Proof.
  assert (H1 : search_album_id (cp "https://music.163.com/#/album?id=") = None)
    by (vm_compute; reflexivity).
  assert (H2 : match rev (cp "https://music.163.com/#/album?id=") with
               | [] => True
               | c :: _ => is_decimal c = false
               end) by (vm_compute; reflexivity).
  assert (H3 : forallb is_decimal (cp "123456789") = true)
    by (vm_compute; reflexivity).
  assert (H4 : (4 <= length (cp "123456789"))%nat) by (vm_compute; lia).
  split; [exact H1|]. split; [exact H2|]. split; [exact H3|]. split; [exact H4|].
  exact (album_id_is_first_run (cp "https://music.163.com/#/album?id=")
           (cp "123456789") [] H1 H2 H3 H4 I).
Defined.

Lemma cover_is_cut_at_quote_or_space_witness :
  search_cover
    (cp "<img src=" ++ dquote :: cp "https://p1.music.126.net/abc.jpg" ++ [dquote])
  = Some (cover sample_item)
  /\ exists pre d1 d2 d3 tail post,
       cp "<img src=" ++ dquote :: cp "https://p1.music.126.net/abc.jpg" ++ [dquote]
       = pre ++ cover sample_item ++ post
       /\ cover sample_item
          = (cp "https://p1" ++ d1 :: cp "music" ++ d2 :: cp "126" ++ d3 :: cp "net/")
            ++ tail
       /\ d1 <> newline /\ d2 <> newline /\ d3 <> newline
       /\ forallb cover_tail tail = true
       /\ match post with
          | [] => True
          | q :: _ => q = dquote \/ is_space q = true
          end.
Proof.
  assert (H : search_cover
                (cp "<img src=" ++ dquote
                 :: cp "https://p1.music.126.net/abc.jpg" ++ [dquote])
              = Some (cover sample_item)) by (vm_compute; reflexivity).
  split; [exact H|].
  exact (cover_is_cut_at_quote_or_space _ (cover sample_item) H).
Defined.

Lemma parsed_item_comes_from_an_entry_witness :
  In sample_item (parsed sample_feed)
  /\ exists entry,
       In entry (entries sample_feed)
       /\ entry !! cp "title" = Some (title sample_item)
       /\ entry !! cp "author" = Some (author sample_item)
       /\ entry !! cp "published" = Some (published sample_item)
       /\ entry !! cp "link" = Some (link sample_item)
       /\ search_album_id (link sample_item) = Some (album_id sample_item)
       /\ exists summary,
            entry !! cp "summary" = Some summary
            /\ search_cover summary = Some (cover sample_item).
Proof.
  assert (H : In sample_item (parsed sample_feed))
    by (rewrite sample_feed_parsed; left; reflexivity).
  split; [exact H|].
  exact (parsed_item_comes_from_an_entry sample_feed sample_item H).
Defined.

Lemma parsed_album_id_needs_no_escape_witness :
  In sample_item (parsed sample_feed)
  /\ existsb reserved (album_id sample_item) = false
  /\ escape (album_id sample_item) = album_id sample_item.
Proof.
  assert (H : In sample_item (parsed sample_feed))
    by (rewrite sample_feed_parsed; left; reflexivity).
  split; [exact H|].
  exact (parsed_album_id_needs_no_escape sample_feed sample_item H).
Defined.

Lemma download_returns_the_first_good_answer_witness :
  download online (rss_url (cp "1")) empty_state
  = (Ret sample_feed, snd (download online (rss_url (cp "1")) empty_state))
  /\ exists pre,
       snd (download online (rss_url (cp "1")) empty_state)
       = extend empty_state (pre ++ [HttpGet (rss_url (cp "1")); Log INFO DownloadOk])
       /\ http_get online (trace empty_state ++ pre) (rss_url (cp "1"))
          = GetParsed (Some sample_feed)
       /\ gets_failed online (trace empty_state) pre = true.
Proof.
  assert (H : download online (rss_url (cp "1")) empty_state
              = (Ret sample_feed, snd (download online (rss_url (cp "1")) empty_state)))
    by (vm_compute; reflexivity).
  split; [exact H|].
  exact (download_returns_the_first_good_answer online (rss_url (cp "1")) empty_state
           (snd (download online (rss_url (cp "1")) empty_state)) sample_feed H).
Defined.

Lemma redis_set_success_stores_rj_code_witness :
  redis_set online names_bound (cp "123456789") empty_state
  = (Ret true, snd (redis_set online names_bound (cp "123456789") empty_state))
  /\ exists key,
       rj_code names_bound = Some key
       /\ redis (snd (redis_set online names_bound (cp "123456789") empty_state))
          = <[key := (cp "sent", 64281600%Z)]> (redis empty_state)
       /\ (forall item known st2,
             album_id item = key ->
             filter online item
               (snd (redis_set online names_bound (cp "123456789") empty_state))
             = (Ret known, st2) ->
             known = true)
       /\ (forall item known st2,
             album_id item <> key ->
             filter online item
               (snd (redis_set online names_bound (cp "123456789") empty_state))
             = (Ret known, st2) ->
             (known = true <-> is_Some (redis empty_state !! album_id item))).
Proof.
  assert (H : redis_set online names_bound (cp "123456789") empty_state
              = (Ret true,
                 snd (redis_set online names_bound (cp "123456789") empty_state)))
    by (vm_compute; reflexivity).
  split; [exact H|].
  exact (redis_set_success_stores_rj_code online names_bound (cp "123456789")
           empty_state
           (snd (redis_set online names_bound (cp "123456789") empty_state)) H).
Defined.

Lemma main_raises_only_witness :
  main store_down one_artist empty_state = (Raise TransportError, snd pass_store_down)
  /\ (TransportError = DownloadFailed
      \/ (TransportError = TransportError
          /\ exists h key, redis_exists store_down h key = ExistsRaises)
      \/ (TransportError = NameError "rss_author" /\ rss_author one_artist = None)
      \/ (exists name,
            TransportError = KeyError name
            /\ rss_author one_artist = Some name
            /\ List.find (fun p => bool_decide (fst p = name)) (CONFIGS one_artist)
               = None)).
Proof.
  assert (H : main store_down one_artist empty_state
              = (Raise TransportError, snd pass_store_down))
    by (vm_compute; reflexivity).
  split; [exact H|].
  exact (main_raises_only store_down one_artist empty_state (snd pass_store_down)
           TransportError H).
Defined.

Lemma send_loop_attempts_every_item_witness :
  rss_author names_bound = Some (cp "artist")
  /\ In (cp "artist") (List.map fst (CONFIGS names_bound))
  /\ exists st' evs,
       send_loop online names_bound [sample_item] empty_state = (Ret tt, st')
       /\ trace st' = trace empty_state ++ evs
       /\ List.filter is_send_line evs = List.map send_line [sample_item]
       /\ count_events is_post evs = length [sample_item]
       /\ count_events is_pause evs = count_events is_send_ok evs.
Proof.
  assert (H1 : rss_author names_bound = Some (cp "artist")) by reflexivity.
  assert (H2 : In (cp "artist") (List.map fst (CONFIGS names_bound)))
    by (left; reflexivity).
  split; [exact H1|]. split; [exact H2|].
  exact (send_loop_attempts_every_item online names_bound (cp "artist")
           [sample_item] empty_state H1 H2).
Defined.


Lemma one_source_posts_every_new_item_witness :
  rss_author names_bound = Some (cp "artist")
  /\ In (cp "artist") (List.map fst (CONFIGS names_bound))
  /\ exists r st' evs,
       one_source online names_bound (cp "artist") (rss_url (cp "1")) empty_state
       = (r, st')
       /\ trace st' = trace empty_state ++ evs
       /\ ((r = Raise DownloadFailed /\ count_events is_post evs = 0%nat)
           \/ (exists feed h,
                 http_get online h (rss_url (cp "1")) = GetParsed (Some feed)
                 /\ ((r = Raise TransportError
                      /\ lookups_answered online (trace empty_state) evs = false
                      /\ count_events is_post evs = 0%nat
                      /\ List.filter is_send_line evs = [])
                     \/ (r = Ret tt
                         /\ lookups_answered online (trace empty_state) evs = true
                         /\ count_events is_post evs
                            = length (new_items empty_state (parsed feed))
                         /\ List.filter is_send_line evs
                            = List.map send_line
                                (new_items empty_state (parsed feed)))))).
Proof.
  assert (H1 : rss_author names_bound = Some (cp "artist")) by reflexivity.
  assert (H2 : In (cp "artist") (List.map fst (CONFIGS names_bound)))
    by (left; reflexivity).
  split; [exact H1|]. split; [exact H2|].
  exact (one_source_posts_every_new_item online names_bound (cp "artist")
           (cp "artist") (rss_url (cp "1")) empty_state H1 H2).
Defined.

Lemma posts_go_to_the_chat_under_rss_author_witness :
  send_loop online names_bound [sample_item] empty_state
  = (fst (send_loop online names_bound [sample_item] empty_state),
     snd (send_loop online names_bound [sample_item] empty_state))
  /\ trace (snd (send_loop online names_bound [sample_item] empty_state))
     = trace empty_state
       ++ trace (snd (send_loop online names_bound [sample_item] empty_state))
  /\ forall target params,
       In (HttpPost target params)
         (trace (snd (send_loop online names_bound [sample_item] empty_state))) ->
       exists name p item,
         rss_author names_bound = Some name
         /\ List.find (fun p => bool_decide (fst p = name)) (CONFIGS names_bound)
            = Some p
         /\ In item [sample_item]
         /\ target = send_target names_bound (cover item)
         /\ params = send_params (snd p) (cover item) (caption_of item).
Proof.
  assert (H1 : send_loop online names_bound [sample_item] empty_state
               = (fst (send_loop online names_bound [sample_item] empty_state),
                  snd (send_loop online names_bound [sample_item] empty_state)))
    by (vm_compute; reflexivity).
  assert (H2 : trace (snd (send_loop online names_bound [sample_item] empty_state))
               = trace empty_state
                 ++ trace (snd (send_loop online names_bound [sample_item] empty_state)))
    by reflexivity.
  split; [exact H1|]. split; [exact H2|].
  exact (posts_go_to_the_chat_under_rss_author online names_bound [sample_item]
           empty_state
           (snd (send_loop online names_bound [sample_item] empty_state))
           (fst (send_loop online names_bound [sample_item] empty_state))
           (trace (snd (send_loop online names_bound [sample_item] empty_state)))
           H1 H2).
Defined.

Lemma download_backs_off_only_after_an_exception_witness :
  http_get flaky
    (trace empty_state ++ [Log INFO Downloading; Log INFO (AttemptOf 1 3)])
    (rss_url (cp "1")) = GetRaises
  /\ exists r evs post,
       download flaky (rss_url (cp "1")) empty_state = (r, extend empty_state evs)
       /\ evs = [Log INFO Downloading; Log INFO (AttemptOf 1 3)]
                ++ HttpGet (rss_url (cp "1")) :: post
       /\ exists post', post = Log INFO (FailedNext TransportError) :: Sleep 6 :: post'.
Proof.
  assert (H : http_get flaky
                (trace empty_state ++ [Log INFO Downloading; Log INFO (AttemptOf 1 3)])
                (rss_url (cp "1")) = GetRaises) by reflexivity.
  split; [exact H|].
  destruct (download_backs_off_only_after_an_exception flaky (rss_url (cp "1"))
              empty_state) as (r & evs & Hrun & Hget & _).
  assert (Hevs : evs
                 = [Log INFO Downloading; Log INFO (AttemptOf 1 3)]
                   ++ HttpGet (rss_url (cp "1"))
                   :: [Log INFO (FailedNext TransportError); Sleep 6;
                       Log INFO (AttemptOf 2 3); HttpGet (rss_url (cp "1"));
                       Log INFO (AttemptOf 3 3); HttpGet (rss_url (cp "1"));
                       Log INFO DownloadOk]).
  { assert (Hc : download flaky (rss_url (cp "1")) empty_state
                 = (Ret sample_feed,
                    extend empty_state
                      ([Log INFO Downloading; Log INFO (AttemptOf 1 3)]
                       ++ HttpGet (rss_url (cp "1"))
                       :: [Log INFO (FailedNext TransportError); Sleep 6;
                           Log INFO (AttemptOf 2 3); HttpGet (rss_url (cp "1"));
                           Log INFO (AttemptOf 3 3); HttpGet (rss_url (cp "1"));
                           Log INFO DownloadOk])))
      by (vm_compute; reflexivity).
    rewrite Hc in Hrun. injection Hrun as _ Htr. symmetry. exact Htr. }
  exists r, evs, [Log INFO (FailedNext TransportError); Sleep 6;
                  Log INFO (AttemptOf 2 3); HttpGet (rss_url (cp "1"));
                  Log INFO (AttemptOf 3 3); HttpGet (rss_url (cp "1"));
                  Log INFO DownloadOk].
  split; [exact Hrun|]. split; [exact Hevs|].
  exact (Hget _ _ Hevs H).
Defined.

Lemma rss_url_generator_keeps_artists_apart_witness :
  nth_error (rss_url_generator two_artists) 0 = Some (cp "first", rss_url (cp "1"))
  /\ nth_error (rss_url_generator two_artists) 1 = Some (cp "second", rss_url (cp "2"))
  /\ nth_error (List.map snd (CONFIGS two_artists)) 0 = Some (cp "1")
  /\ nth_error (List.map snd (CONFIGS two_artists)) 1 = Some (cp "2")
  /\ (rss_url (cp "1") = rss_url (cp "2") <-> cp "1" = cp "2").
Proof.
  assert (H1 : nth_error (rss_url_generator two_artists) 0
               = Some (cp "first", rss_url (cp "1"))) by reflexivity.
  assert (H2 : nth_error (rss_url_generator two_artists) 1
               = Some (cp "second", rss_url (cp "2"))) by reflexivity.
  assert (H3 : nth_error (List.map snd (CONFIGS two_artists)) 0 = Some (cp "1"))
    by reflexivity.
  assert (H4 : nth_error (List.map snd (CONFIGS two_artists)) 1 = Some (cp "2"))
    by reflexivity.
  split; [exact H1|]. split; [exact H2|]. split; [exact H3|]. split; [exact H4|].
  exact (proj2 (rss_url_generator_keeps_artists_apart two_artists) 0%nat 1%nat
           (cp "first") (rss_url (cp "1")) (cp "second") (rss_url (cp "2"))
           (cp "1") (cp "2") H1 H2 H3 H4).
Defined.
